(** * asm2vec training engine: [asm2vec/internal/training.py]

    A shallow embedding of the training engine (sequence window, training
    context and counters, gradient helpers, gradient step, [train] and
    [estimate]) together with the properties its specification states.

    Conventions of the embedding.
    - Python [float] and the components of numpy arrays are real numbers:
      rounding is not represented.  The range of binary64 matters for one
      function only, [_sigmoid]; module [Float64] treats it.
    - A numpy value is a 0-d or a 1-d array ([ndarray]); the arithmetic of
      numpy is written out with its broadcasting rule and its shape errors.
    - Python exceptions are values of [exn]; a computation that touches the
      heap has type [M A]: it takes a state and returns the state reached
      together with a value or the exception raised (the heap keeps what was
      written before an exception).
    - Token objects are shared and mutated in place.  They live in the
      vocabulary of the repository, keyed by name, and a reference to a
      [VectorizedToken] is its name. *)

From Stdlib Require Import Reals Lra Lia ZArith.
From stdpp Require Import gmap strings list.

(** ** Exceptions and results *)

(** The Python exceptions the engine can meet.  [NonTermination] is not one
    of them: it marks a loop of the embedding that ran out of fuel, which
    the loops over a sequence are proved not to do ([windows_terminate],
    [train_sequence_long]). *)
Inductive exn :=
| StopIteration
| KeyError
| IndexError
| TypeError
| ValueError
| AttributeError
| ZeroDivisionError
| NonTermination.

#[global] Instance exn_eq_dec : EqDecision exn.
Proof. solve_decision. Defined.

Inductive result (A : Type) :=
| Ok (a : A)
| Raise (e : exn).
Arguments Ok {A} a.
Arguments Raise {A} e.

Definition rbind {A B} (r : result A) (k : A -> result B) : result B :=
  match r with
  | Ok a => k a
  | Raise e => Raise e
  end.

Notation "'let!' x := r 'in' k" := (rbind r (fun x => k))
  (at level 10, x name, r at level 100, k at level 200, only parsing).

Fixpoint rmap {A B} (g : A -> result B) (l : list A) : result (list B) :=
  match l with
  | [] => Ok []
  | x :: l' => let! y := g x in let! ys := rmap g l' in Ok (y :: ys)
  end.

(** ** The fragment of numpy the engine uses *)

Inductive ndarray :=
| Scalar (x : R)
| Vec (xs : list R).

(** Elementwise binary operators ([+], [-], [*], [/]) with broadcasting: a
    0-d operand or a 1-d operand of length 1 is stretched; two 1-d operands
    of different lengths, none of them 1, raise [ValueError]. *)
Definition broadcast (o : R -> R -> R) (a b : ndarray) : result ndarray :=
  match a, b with
  | Scalar x, Scalar y => Ok (Scalar (o x y))
  | Scalar x, Vec ys => Ok (Vec (map (o x) ys))
  | Vec xs, Scalar y => Ok (Vec (map (fun x => o x y) xs))
  | Vec xs, Vec ys =>
      if (length xs =? length ys)%nat then Ok (Vec (zip_with o xs ys))
      else match xs, ys with
           | [x], _ => Ok (Vec (map (o x) ys))
           | _, [y] => Ok (Vec (map (fun x => o x y) xs))
           | _, _ => Raise ValueError
           end
  end.

(** In-place operators ([a += b], [a -= b]) on a 1-d array [a]: [b] is
    broadcast to the shape of [a], which cannot change. *)
Definition inplace (o : R -> R -> R) (a : list R) (b : ndarray) : result (list R) :=
  match b with
  | Scalar y => Ok (map (fun x => o x y) a)
  | Vec ys =>
      if (length a =? length ys)%nat then Ok (zip_with o a ys)
      else match ys with
           | [y] => Ok (map (fun x => o x y) a)
           | _ => Raise ValueError
           end
  end.

Definition Rsum (l : list R) : R := foldr Rplus 0%R l.

(** [np.dot]: product by a 0-d operand, inner product of two 1-d arrays of
    one length. *)
Definition np_dot (a b : ndarray) : result ndarray :=
  match a, b with
  | Scalar x, Scalar y => Ok (Scalar (x * y))
  | Scalar x, Vec ys => Ok (Vec (map (Rmult x) ys))
  | Vec xs, Scalar y => Ok (Vec (map (fun x => x * y)%R xs))
  | Vec xs, Vec ys =>
      if (length xs =? length ys)%nat then Ok (Scalar (Rsum (zip_with Rmult xs ys)))
      else Raise ValueError
  end.

Definition np_exp (a : ndarray) : ndarray :=
  match a with
  | Scalar x => Scalar (exp x)
  | Vec xs => Vec (map exp xs)
  end.

(** Two arrays stacked along a new first axis must have one shape. *)
Definition add_same_shape (a b : ndarray) : result ndarray :=
  match a, b with
  | Scalar x, Scalar y => Ok (Scalar (x + y))
  | Vec xs, Vec ys =>
      if (length xs =? length ys)%nat then Ok (Vec (zip_with Rplus xs ys))
      else Raise ValueError
  | _, _ => Raise ValueError
  end.

(** [np.sum(l, axis=0)] for a Python list [l] of arrays of one shape; the
    empty list sums to [0.0]. *)
Fixpoint np_sum_axis0 (l : list ndarray) : result ndarray :=
  match l with
  | [] => Ok (Scalar 0)
  | [a] => Ok a
  | a :: l' => let! s := np_sum_axis0 l' in add_same_shape a s
  end.

(** [np.average(l, axis=0)] for a Python list [l] of 1-d arrays: the
    elementwise mean.  Rows of different lengths raise [ValueError]; for the
    empty list numpy answers the 0-d quotient 0/0 (nan, with a warning). *)
Definition np_average_axis0 (l : list (list R)) : result ndarray :=
  let! s := np_sum_axis0 (map Vec l) in
  broadcast Rdiv s (Scalar (INR (length l))).

(** Python objects handed to numpy: an array, or an instance of a class
    numpy knows nothing of; one object, or a tuple of them. *)
Inductive pyobj :=
| Array (a : ndarray)
| Instance.

Inductive pyarg :=
| Single (o : pyobj)
| Tuple (items : list pyobj).

(** A call of a function of one positional parameter: Python checks the
    number of positional arguments before the body runs. *)
Definition call1 {A B} (callee : A -> result B) (positional : list A) : result B :=
  match positional with
  | [x] => callee x
  | _ => Raise TypeError
  end.

Definition atleast_1d (o : pyobj) : result (list R) :=
  match o with
  | Array (Scalar x) => Ok [x]
  | Array (Vec xs) => Ok xs
  | Instance => Raise ValueError
  end.

(** [np.hstack(tup)]: the arrays of the sequence [tup], joined.  A 1-d array
    is the sequence of its components. *)
Definition np_hstack (tup : pyarg) : result ndarray :=
  match tup with
  | Tuple items => let! rows := rmap atleast_1d items in Ok (Vec (concat rows))
  | Single (Array (Vec xs)) => Ok (Vec xs)
  | Single _ => Raise TypeError
  end.

Definition as_row (o : pyobj) : result (list R) :=
  match o with
  | Array (Vec xs) => Ok xs
  | _ => Raise ValueError
  end.

Definition same_lengths (rows : list (list R)) : bool :=
  match rows with
  | [] => true
  | r :: rows' => forallb (fun r' => (length r' =? length r)%nat) rows'
  end.

(** [np.average(a)] without [axis]: the mean of all the components of [a],
    a 0-d value.  A sequence that holds anything but arrays of one shape has
    no array form and raises [ValueError]. *)
Definition np_average (a : pyarg) : result ndarray :=
  match a with
  | Single (Array (Scalar x)) => Ok (Scalar x)
  | Single (Array (Vec xs)) => Ok (Scalar (Rsum xs / INR (length xs)))
  | Single Instance => Raise ValueError
  | Tuple items =>
      let! rows := rmap as_row items in
      if same_lengths rows
      then Ok (Scalar (Rsum (concat rows) / INR (length (concat rows))))
      else Raise ValueError
  end.

(** ** Data model *)

Record Asm2VecParams := {
  d : Z;
  initial_alpha : R;
  alpha_update_interval : Z;
  num_of_rnd_walks : Z;
  neg_samples : Z;
  iteration : Z
}.

(** [Asm2VecParams()] with no keyword argument. *)
Definition Asm2VecParams_default : Asm2VecParams :=
  {| d := 200; initial_alpha := 5 / 100; alpha_update_interval := 10000;
     num_of_rnd_walks := 3; neg_samples := 25; iteration := 1 |}.

Record Instruction := { op : string; args : list string }.

Definition InstructionSequence := list Instruction.

Module VectorizedToken.
(** The vectors of a token; its name is the key it is stored under. *)
Record t := { v : list R; v_pred : list R }.
End VectorizedToken.

Record Token := { vectorized : VectorizedToken.t; frequency : Z }.

Module VectorizedFunction.
Record t := { v : list R; sequences : list InstructionSequence }.
End VectorizedFunction.

Record FunctionRepository := {
  vocab : gmap string Token;
  funcs : list VectorizedFunction.t;
  num_of_tokens : Z
}.

(** A token as the gradient helpers see it: its name and its vectors at the
    time of the call. *)
Definition token_view : Type := string * VectorizedToken.t.

(** ** Gradient helpers (pure) *)

Definition _sigmoid (x : ndarray) : result ndarray :=
  let e := np_exp x in
  let! one_plus_e := broadcast Rplus (Scalar 1) e in
  broadcast Rdiv e one_plus_e.

Definition _identity (cond : bool) : Z := if cond then 1 else 0.

Definition _dot_sigmoid (lhs rhs : ndarray) : result ndarray :=
  let! p := np_dot lhs rhs in _sigmoid p.

(** [t == current_token]: tokens are compared by name. *)
Definition token_eq (a b : token_view) : bool := bool_decide (a.1 = b.1).

Definition _get_inst_repr (op : token_view) (args : list token_view) : result ndarray :=
  let! avg := np_average_axis0 (map (fun tk => VectorizedToken.v tk.2) args) in
  call1 np_hstack [Single (Array (Vec (VectorizedToken.v op.2))); Single (Array avg)].

Definition _get_function_grad (samples : list token_view) (current_token : token_view)
    (delta : ndarray) : result ndarray :=
  let! terms :=
    rmap (fun t =>
            let! s := _dot_sigmoid (Vec (VectorizedToken.v_pred current_token.2)) delta in
            broadcast Rminus (Scalar (IZR (_identity (token_eq t current_token)))) s)
         samples in
  let! neu := np_sum_axis0 terms in
  let! q := broadcast Rdiv neu (Scalar 3) in
  broadcast Rmult q (Vec (VectorizedToken.v_pred current_token.2)).

Definition _get_target_grad (target current_token : token_view) (delta : ndarray)
    : result ndarray :=
  let! s := _dot_sigmoid (Vec (VectorizedToken.v_pred target.2)) delta in
  let! p := broadcast Rmult s delta in
  broadcast Rminus (Scalar (IZR (_identity (token_eq target current_token)))) p.

(** ** Sequence window *)

(** The 6-tuple a window yields: references to the opcode token and to the
    operand tokens of the previous, current and next instruction. *)
Record ViewType := {
  view_prev_op : string; view_prev_args : list string;
  view_curr_op : string; view_curr_args : list string;
  view_next_op : string; view_next_args : list string
}.

(** [_ins] and [_view] are unset until the first [__next__]. *)
Record SequenceWindow := {
  _seq : InstructionSequence;
  _i : Z;
  _ins : option (Instruction * Instruction * Instruction);
  _view : option ViewType
}.

(** [seq[k]] on a Python list. *)
Definition py_index {A} (l : list A) (k : Z) : result A :=
  let n := Z.of_nat (length l) in
  let k' := if (k <? 0)%Z then (k + n)%Z else k in
  if ((0 <=? k') && (k' <? n))%Z
  then match l !! Z.to_nat k' with Some x => Ok x | None => Raise IndexError end
  else Raise IndexError.

(** [self._vocab[name].vectorized()]: the reference to the token's vectors. *)
Definition token_lookup (vocabulary : gmap string Token) (name : string) : result string :=
  match vocabulary !! name with
  | Some _ => Ok name
  | None => Raise KeyError
  end.

Definition SequenceWindow_init (sequence : InstructionSequence) : SequenceWindow :=
  {| _seq := sequence; _i := 1; _ins := None; _view := None |}.

Definition SequenceWindow_next (self : SequenceWindow) (vocabulary : gmap string Token)
    : result (ViewType * SequenceWindow) :=
  if (_i self >=? Z.of_nat (length (_seq self)) - 1)%Z then Raise StopIteration
  else
    let! prev_ins := py_index (_seq self) (_i self - 1) in
    let! curr_ins := py_index (_seq self) (_i self) in
    let! next_ins := py_index (_seq self) (_i self + 1) in
    let! prev_ins_op := token_lookup vocabulary (op prev_ins) in
    let! prev_ins_args := rmap (token_lookup vocabulary) (args prev_ins) in
    let! curr_ins_op := token_lookup vocabulary (op curr_ins) in
    let! curr_ins_args := rmap (token_lookup vocabulary) (args curr_ins) in
    let! next_ins_op := token_lookup vocabulary (op next_ins) in
    let! next_ins_args := rmap (token_lookup vocabulary) (args next_ins) in
    let result :=
      {| view_prev_op := prev_ins_op; view_prev_args := prev_ins_args;
         view_curr_op := curr_ins_op; view_curr_args := curr_ins_args;
         view_next_op := next_ins_op; view_next_args := next_ins_args |} in
    Ok (result,
        {| _seq := _seq self; _i := (_i self + 1)%Z;
           _ins := Some (prev_ins, curr_ins, next_ins); _view := Some result |}).

Definition window_attr {A} (get : ViewType -> A) (self : SequenceWindow) : result A :=
  match _view self with
  | Some vw => Ok (get vw)
  | None => Raise AttributeError
  end.

Definition prev_ins_op := window_attr view_prev_op.
Definition prev_ins_args := window_attr view_prev_args.
Definition curr_ins_op := window_attr view_curr_op.
Definition curr_ins_args := window_attr view_curr_args.
Definition next_ins_op := window_attr view_next_op.
Definition next_ins_args := window_attr view_next_args.

(** The windows of a sequence, each with the cursor position it was taken
    at: what draining a fresh window over [sequence] yields. *)
Fixpoint drain (fuel : nat) (wnd : SequenceWindow) (vocabulary : gmap string Token)
    : result (list (Z * ViewType)) :=
  match fuel with
  | O => Raise NonTermination
  | S fuel' =>
      match SequenceWindow_next wnd vocabulary with
      | Raise StopIteration => Ok []
      | Raise e => Raise e
      | Ok (vw, wnd') =>
          let! rest := drain fuel' wnd' vocabulary in
          Ok ((_i wnd, vw) :: rest)
      end
  end.

Definition windows (sequence : InstructionSequence) (vocabulary : gmap string Token)
    : result (list (Z * ViewType)) :=
  drain (S (length sequence)) (SequenceWindow_init sequence) vocabulary.

(** ** Training context *)

Module Counter.
Record t := { _name : string; _val : Z }.

Definition val (self : t) : Z := _val self.

Definition inc (self : t) : Z * t :=
  ((_val self + 1)%Z, {| _name := _name self; _val := (_val self + 1)%Z |}).

Definition reset (self : t) : Z * t :=
  (_val self, {| _name := _name self; _val := 0 |}).
End Counter.

Definition TOKENS_HANDLED_COUNTER : string := "tokens_handled".

Record TrainingContext (Sampler : Type) := {
  _repo : FunctionRepository;
  _params : Asm2VecParams;
  _alpha : R;
  _sampler : Sampler;
  _is_estimating : bool;
  _counters : gmap string Counter.t
}.
Arguments _repo {Sampler} _.
Arguments _params {Sampler} _.
Arguments _alpha {Sampler} _.
Arguments _sampler {Sampler} _.
Arguments _is_estimating {Sampler} _.
Arguments _counters {Sampler} _.

(** The state the engine works on: the training context (and through it
    the repository and its vocabulary) and the function under training. *)
Record State (Sampler : Type) := {
  context : TrainingContext Sampler;
  func : VectorizedFunction.t
}.
Arguments context {Sampler} _.
Arguments func {Sampler} _.

Section Engine.

(** The negative sampler ([asm2vec.internal.sampling]) is a collaborator:
    any constructor and any [sample] are admitted.  A draw names the tokens
    drawn and leaves the sampler in a new state. *)
Context {Sampler : Type}.
Variable NegativeSampler : list (string * Z) -> Sampler.
Variable sample : Sampler -> Z -> list string * Sampler.

(** *** Computations on the state *)

Definition M (A : Type) : Type := State Sampler -> State Sampler * result A.

Definition ret {A} (a : A) : M A := fun st => (st, Ok a).

Definition raise {A} (e : exn) : M A := fun st => (st, Raise e).

Definition bind {A B} (m : M A) (k : A -> M B) : M B :=
  fun st =>
    match m st with
    | (st', Ok a) => k a st'
    | (st', Raise e) => (st', Raise e)
    end.

Notation "'let*' x := m 'in' k" := (bind m (fun x => k))
  (at level 10, x name, m at level 100, k at level 200, only parsing).
Notation "m ;;; k" := (bind m (fun _ => k))
  (at level 100, k at level 200, right associativity, only parsing).

Definition lift {A} (r : result A) : M A := fun st => (st, r).

Definition gets {A} (proj : State Sampler -> A) : M A := fun st => (st, Ok (proj st)).

Definition modify (g : State Sampler -> State Sampler) : M unit := fun st => (g st, Ok tt).

(** [for x in l: body(x)] *)
Fixpoint for_each {A} (l : list A) (body : A -> M unit) : M unit :=
  match l with
  | [] => ret tt
  | x :: l' => body x ;;; for_each l' body
  end.

Fixpoint map_each {A B} (l : list A) (body : A -> M B) : M (list B) :=
  match l with
  | [] => ret []
  | x :: l' => let* y := body x in let* ys := map_each l' body in ret (y :: ys)
  end.

(** [try: m except e: pass] *)
Definition except_pass (e : exn) (m : M unit) : M unit :=
  fun st =>
    match m st with
    | (st', Raise e') => if bool_decide (e' = e) then (st', Ok tt) else (st', Raise e')
    | r => r
    end.

(** *** [TrainingContext] *)

Definition TrainingContext_init (repo : FunctionRepository) (params : Asm2VecParams)
    (is_estimating : bool) : TrainingContext Sampler :=
  {| _repo := repo;
     _params := params;
     _alpha := initial_alpha params;
     _sampler := NegativeSampler
                   (map (fun kt => (kt.1, frequency kt.2)) (map_to_list (vocab repo)));
     _is_estimating := is_estimating;
     _counters := ∅ |}.

Definition repo (self : TrainingContext Sampler) : FunctionRepository := _repo self.
Definition params (self : TrainingContext Sampler) : Asm2VecParams := _params self.
Definition alpha (self : TrainingContext Sampler) : R := _alpha self.
Definition sampler (self : TrainingContext Sampler) : Sampler := _sampler self.
Definition is_estimating (self : TrainingContext Sampler) : bool := _is_estimating self.

Definition set_alpha (alpha : R) (self : TrainingContext Sampler) : TrainingContext Sampler :=
  {| _repo := _repo self; _params := _params self; _alpha := alpha;
     _sampler := _sampler self; _is_estimating := _is_estimating self;
     _counters := _counters self |}.

Definition create_sequence_window (self : TrainingContext Sampler)
    (seq : InstructionSequence) : SequenceWindow :=
  SequenceWindow_init seq.

(** [self._counters.get(name)]: [None] when no counter has that name. *)
Definition get_counter (self : TrainingContext Sampler) (name : string) : option Counter.t :=
  _counters self !! name.

Definition add_counter (name : string) (initial : Z) (self : TrainingContext Sampler)
    : Counter.t * TrainingContext Sampler :=
  let c := {| Counter._name := name; Counter._val := initial |} in
  (c, {| _repo := _repo self; _params := _params self; _alpha := _alpha self;
         _sampler := _sampler self; _is_estimating := _is_estimating self;
         _counters := <[name := c]> (_counters self) |}).

Definition set_sampler (s : Sampler) (self : TrainingContext Sampler) : TrainingContext Sampler :=
  {| _repo := _repo self; _params := _params self; _alpha := _alpha self;
     _sampler := s; _is_estimating := _is_estimating self;
     _counters := _counters self |}.

Definition set_vocab (voc : gmap string Token) (self : TrainingContext Sampler)
    : TrainingContext Sampler :=
  {| _repo := {| vocab := voc; funcs := funcs (_repo self);
                 num_of_tokens := num_of_tokens (_repo self) |};
     _params := _params self; _alpha := _alpha self;
     _sampler := _sampler self; _is_estimating := _is_estimating self;
     _counters := _counters self |}.

Definition on_context (g : TrainingContext Sampler -> TrainingContext Sampler)
    (st : State Sampler) : State Sampler :=
  {| context := g (context st); func := func st |}.

Definition set_func_v (new_v : list R) (st : State Sampler) : State Sampler :=
  {| context := context st;
     func := {| VectorizedFunction.v := new_v;
                VectorizedFunction.sequences := VectorizedFunction.sequences (func st) |} |}.

(** *** Token objects *)

Definition the_vocab (st : State Sampler) : gmap string Token :=
  vocab (_repo (context st)).

(** The token a reference denotes, with its name.  A reference taken from
    the vocabulary always denotes a token; [KeyError] covers the rest. *)
Definition deref (t : string) : M token_view :=
  fun st =>
    match the_vocab st !! t with
    | Some tok => (st, Ok (t, vectorized tok))
    | None => (st, Raise KeyError)
    end.

Definition store_vectors (t : string) (vt : VectorizedToken.t) : M unit :=
  modify (fun st =>
    on_context (set_vocab (alter (fun tok => {| vectorized := vt; frequency := frequency tok |})
                                 t (the_vocab st))) st).

(** [t.v -= g] *)
Definition isub_v (t : string) (g : ndarray) : M unit :=
  let* tv := deref t in
  let* new_v := lift (inplace Rminus (VectorizedToken.v tv.2) g) in
  store_vectors t {| VectorizedToken.v := new_v;
                     VectorizedToken.v_pred := VectorizedToken.v_pred tv.2 |}.

(** [t.v_pred -= g] *)
Definition isub_v_pred (t : string) (g : ndarray) : M unit :=
  let* tv := deref t in
  let* new_v_pred := lift (inplace Rminus (VectorizedToken.v_pred tv.2) g) in
  store_vectors t {| VectorizedToken.v := VectorizedToken.v tv.2;
                     VectorizedToken.v_pred := new_v_pred |}.

(** *** The gradient step: [_train_vectorized] *)

(** Lines 181-183: the context delta. *)
Definition context_delta (wnd : SequenceWindow) : M ndarray :=
  let* prev_op := lift (prev_ins_op wnd) in
  let* prev_op_tk := deref prev_op in
  let* prev_args := lift (prev_ins_args wnd) in
  let* prev_args_tk := map_each prev_args deref in
  let* ct_prev := lift (_get_inst_repr prev_op_tk prev_args_tk) in
  let* next_op := lift (next_ins_op wnd) in
  let* next_op_tk := deref next_op in
  let* next_args := lift (next_ins_args wnd) in
  let* next_args_tk := map_each next_args deref in
  let* ct_next := lift (_get_inst_repr next_op_tk next_args_tk) in
  lift (np_average (Tuple [Array ct_prev; Instance; Array ct_next])).

(** Lines 189-192: the target set, a dict keyed by name, in insertion
    order. *)
Definition dict_of_names (names : list string) : list string :=
  foldl (fun dict name => if bool_decide (name ∈ dict) then dict else dict ++ [name]) [] names.

Definition draw_targets (tk : string) : M (list string) :=
  let* ctx := gets context in
  let (drawn, sampler') := sample (sampler ctx) (neg_samples (params ctx)) in
  modify (on_context (set_sampler sampler')) ;;;
  let targets := dict_of_names drawn in
  ret (if bool_decide (tk ∈ targets) then targets else targets ++ [tk]).

(** Lines 194-199: the learning-rate schedule. *)
Definition update_learning_rate : M unit :=
  let* ctx := gets context in
  match get_counter ctx TOKENS_HANDLED_COUNTER with
  | None => raise AttributeError
  | Some tokens_handled_counter =>
      if (alpha_update_interval (params ctx) =? 0)%Z then raise ZeroDivisionError
      else if (Counter.val tokens_handled_counter
                 mod alpha_update_interval (params ctx) =? 0)%Z
      then
        let total := (iteration (params ctx) * num_of_tokens (repo ctx) + 1)%Z in
        if (total =? 0)%Z then raise ZeroDivisionError
        else
          let alpha := (1 - IZR (Counter.val tokens_handled_counter) / IZR total)%R in
          modify (on_context
                    (set_alpha (Rmax alpha (initial_alpha (params ctx) * (1 / 10000))%R)))
      else ret tt
  end.

(** Lines 206-207. *)
Definition update_targets (targets : list string) (tk : string) (delta : ndarray) : M unit :=
  for_each targets (fun t =>
    let* target := deref t in
    let* current_token := deref tk in
    let* ctx := gets context in
    let* g := lift (_get_target_grad target current_token delta) in
    let* step := lift (broadcast Rmult (Scalar (alpha ctx)) g) in
    isub_v_pred t step).

(** Lines 189-207: the body of [for tk in tokens]. *)
Definition token_step (delta : ndarray) (f_grad : list R) (tk : string) : M (list R) :=
  let* targets := draw_targets tk in
  update_learning_rate ;;;
  let* samples := map_each targets deref in
  let* current_token := deref tk in
  let* g := lift (_get_function_grad samples current_token delta) in
  let* f_grad' := lift (inplace Rplus f_grad g) in
  let* ctx := gets context in
  (if is_estimating ctx then ret tt else update_targets targets tk delta) ;;;
  ret f_grad'.

Fixpoint token_loop (delta : ndarray) (f_grad : list R) (tokens : list string) : M (list R) :=
  match tokens with
  | [] => ret f_grad
  | tk :: tokens' =>
      let* f_grad' := token_step delta f_grad tk in
      token_loop delta f_grad' tokens'
  end.

(** Line 210. *)
Definition apply_function_gradient (f_grad : list R) : M unit :=
  let* ctx := gets context in
  let* f := gets func in
  let* step := lift (broadcast Rmult (Scalar (alpha ctx)) (Vec f_grad)) in
  let* new_v := lift (inplace Rminus (VectorizedFunction.v f) step) in
  modify (set_func_v new_v).

(** Lines 214-224.  The quotient by [len(...)] of an instruction without
    operands is not used: the loop over its operands is empty. *)
Definition apply_instruction_gradient (wnd : SequenceWindow) (f_grad : list R) : M unit :=
  let* prev_op := lift (prev_ins_op wnd) in
  let* prev_op_tk := deref prev_op in
  let d := length (VectorizedToken.v prev_op_tk.2) in
  let* ctx := gets context in
  let* step := lift (broadcast Rmult (Scalar (alpha ctx)) (Vec (take d f_grad))) in
  isub_v prev_op step ;;;
  let* prev_args := lift (prev_ins_args wnd) in
  let* q := lift (broadcast Rdiv (Vec (drop d f_grad)) (Scalar (INR (length prev_args)))) in
  let* prev_args_grad := lift (broadcast Rmult q (Scalar (alpha ctx))) in
  for_each prev_args (fun t => isub_v t prev_args_grad) ;;;
  let* next_op := lift (next_ins_op wnd) in
  let* step := lift (broadcast Rmult (Scalar (initial_alpha (params ctx)))
                                     (Vec (take d f_grad))) in
  isub_v next_op step ;;;
  let* next_args := lift (next_ins_args wnd) in
  let* q := lift (broadcast Rdiv (Vec (drop d f_grad)) (Scalar (INR (length next_args)))) in
  let* next_args_grad := lift (broadcast Rmult q (Scalar (alpha ctx))) in
  for_each next_args (fun t => isub_v t next_args_grad).

(** Lines 185-224: the step once the context delta is known. *)
Definition gradient_step (wnd : SequenceWindow) (delta : ndarray) : M unit :=
  let* curr_op := lift (curr_ins_op wnd) in
  let* curr_args := lift (curr_ins_args wnd) in
  let tokens := curr_op :: curr_args in
  let* f := gets func in
  let f_grad := repeat 0%R (length (VectorizedFunction.v f)) in
  let* f_grad := token_loop delta f_grad tokens in
  apply_function_gradient f_grad ;;;
  let* ctx := gets context in
  if is_estimating ctx then ret tt else apply_instruction_gradient wnd f_grad.

Definition _train_vectorized (wnd : SequenceWindow) : M unit :=
  let* delta := context_delta wnd in
  gradient_step wnd delta.

(** *** [_train_sequence], [train], [estimate] *)

(** [next(wnd)]: the window reads the vocabulary of the repository. *)
Definition next (wnd : SequenceWindow) : M (ViewType * SequenceWindow) :=
  fun st => (st, SequenceWindow_next wnd (the_vocab st)).

(** [while True: next(wnd); _train_vectorized(wnd, f, context)] *)
Fixpoint window_loop (fuel : nat) (wnd : SequenceWindow) : M unit :=
  match fuel with
  | O => raise NonTermination
  | S fuel' =>
      let* yielded := next wnd in
      _train_vectorized yielded.2 ;;;
      window_loop fuel' yielded.2
  end.

Definition _train_sequence (seq : InstructionSequence) : M unit :=
  let* ctx := gets context in
  let wnd := create_sequence_window ctx seq in
  except_pass StopIteration (window_loop (S (length seq)) wnd).

Definition set_funcs (fs : list VectorizedFunction.t) (self : TrainingContext Sampler)
    : TrainingContext Sampler :=
  {| _repo := {| vocab := vocab (_repo self); funcs := fs;
                 num_of_tokens := num_of_tokens (_repo self) |};
     _params := _params self; _alpha := _alpha self;
     _sampler := _sampler self; _is_estimating := _is_estimating self;
     _counters := _counters self |}.

(** The body of [for f in context.repo().funcs()] for the [i]-th function:
    [f] is an object of the repository, so what the body writes to it is
    in the repository whether the body returns or raises. *)
Definition train_function (i : nat) (f : VectorizedFunction.t)
    (ctx : TrainingContext Sampler) : TrainingContext Sampler * result unit :=
  let (st, r) := for_each (VectorizedFunction.sequences f) _train_sequence
                   {| context := ctx; func := f |} in
  (set_funcs (<[i := func st]> (funcs (repo (context st)))) (context st), r).

Fixpoint train_functions (i : nat) (fs : list VectorizedFunction.t)
    (ctx : TrainingContext Sampler) : TrainingContext Sampler * result unit :=
  match fs with
  | [] => (ctx, Ok tt)
  | f :: fs' =>
      match train_function i f ctx with
      | (ctx', Ok _) => train_functions (S i) fs' ctx'
      | (ctx', Raise e) => (ctx', Raise e)
      end
  end.

Definition train_context (repository : FunctionRepository) (params : Asm2VecParams)
    : TrainingContext Sampler :=
  (add_counter TOKENS_HANDLED_COUNTER 0 (TrainingContext_init repository params false)).2.

Definition train (repository : FunctionRepository) (params : Asm2VecParams)
    : TrainingContext Sampler * result unit :=
  let context := train_context repository params in
  train_functions 0 (funcs (repo context)) context.

Definition estimate_context (estimate_repo : FunctionRepository) (params : Asm2VecParams)
    : TrainingContext Sampler :=
  TrainingContext_init estimate_repo params true.

Definition estimate (f : VectorizedFunction.t) (estimate_repo : FunctionRepository)
    (params : Asm2VecParams) : State Sampler * result (list R) :=
  let context := estimate_context estimate_repo params in
  (let* _ := for_each (VectorizedFunction.sequences f) _train_sequence in
   let* f' := gets func in
   ret (VectorizedFunction.v f'))
    {| context := context; func := f |}.

End Engine.

(** ** A small corpus *)

(** A sampler that always draws the first token of positive frequency: one
    of the draws a frequency-weighted sampler can make. *)
Definition first_sampler (population : list (string * Z)) : list string :=
  map fst (filter (fun p => (0 <? p.2)%Z = true) population).

Definition first_sample (s : list string) (k : Z) : list string * list string :=
  (match s with
   | [] => []
   | name :: _ => repeat name (Z.to_nat k)
   end, s).

Definition ex_token (v v_pred : list R) : Token :=
  {| vectorized := {| VectorizedToken.v := v; VectorizedToken.v_pred := v_pred |};
     frequency := 1 |}.

Definition ex_vocab : gmap string Token :=
  <["push" := ex_token [0%R] [1%R; 0%R]]>
  (<["mov" := ex_token [0%R] [1%R; 0%R]]>
  (<["pop" := ex_token [0%R] [2%R; 0%R]]>
  (<["eax" := ex_token [0%R] [0%R; 1%R]]>
  (<["ebx" := ex_token [0%R] [0%R; 1%R]]> ∅)))).

(** [push eax; mov eax, ebx; pop ebx] *)
Definition ex_seq : InstructionSequence :=
  [ {| op := "push"; args := ["eax"] |};
    {| op := "mov"; args := ["eax"; "ebx"] |};
    {| op := "pop"; args := ["ebx"] |} ].

Definition ex_func : VectorizedFunction.t :=
  {| VectorizedFunction.v := [0%R; 0%R]; VectorizedFunction.sequences := [ex_seq] |}.

Definition ex_repo : FunctionRepository :=
  {| vocab := ex_vocab; funcs := [ex_func]; num_of_tokens := 7 |}.

(** One-component token vectors, two-component function vectors, no
    negative samples. *)
Definition ex_params : Asm2VecParams :=
  {| d := 1; initial_alpha := 1 / 20; alpha_update_interval := 10000;
     num_of_rnd_walks := 3; neg_samples := 0; iteration := 1 |}.

(** The window over [ex_seq] after its first [__next__]. *)
Definition ex_view : ViewType :=
  {| view_prev_op := "push"; view_prev_args := ["eax"];
     view_curr_op := "mov"; view_curr_args := ["eax"; "ebx"];
     view_next_op := "pop"; view_next_args := ["ebx"] |}.

Definition ex_wnd : SequenceWindow :=
  {| _seq := ex_seq; _i := 2;
     _ins := Some ({| op := "push"; args := ["eax"] |},
                   {| op := "mov"; args := ["eax"; "ebx"] |},
                   {| op := "pop"; args := ["ebx"] |});
     _view := Some ex_view |}.

(** ** [_sigmoid] on binary64 values *)

(** A binary64 value is a real number of magnitude below [2^1024], an
    infinity, or nan.  Arithmetic is exact inside the range (rounding and the
    sign of zero are not represented) and follows IEEE 754 at and beyond its
    ends; numpy signals overflow, division by zero and invalid operations by
    a warning, never by an exception. *)
Module Float64.

Inductive t :=
| Finite (x : R)
| PInf
| NInf
| NaN.

Definition huge : R := IZR (2 ^ 1024).

Definition range (x : R) : t :=
  if Rle_dec huge x then PInf
  else if Rle_dec x (- huge) then NInf
  else Finite x.

Definition np_exp (a : t) : t :=
  match a with
  | Finite x => range (exp x)
  | PInf => PInf
  | NInf => Finite 0
  | NaN => NaN
  end.

Definition add (a b : t) : t :=
  match a, b with
  | NaN, _ | _, NaN => NaN
  | PInf, NInf | NInf, PInf => NaN
  | PInf, _ | _, PInf => PInf
  | NInf, _ | _, NInf => NInf
  | Finite x, Finite y => range (x + y)
  end.

Definition div (a b : t) : t :=
  match a, b with
  | NaN, _ | _, NaN => NaN
  | PInf, PInf | PInf, NInf | NInf, PInf | NInf, NInf => NaN
  | PInf, Finite y => if Rlt_dec y 0 then NInf else PInf
  | NInf, Finite y => if Rlt_dec y 0 then PInf else NInf
  | Finite _, PInf | Finite _, NInf => Finite 0
  | Finite x, Finite y =>
      if Req_dec_T y 0
      then (if Req_dec_T x 0 then NaN else if Rlt_dec 0 x then PInf else NInf)
      else range (x / y)
  end.

Definition _sigmoid (x : t) : t :=
  let e := np_exp x in
  div e (add (Finite 1) e).

(** A finite value of the unit interval. *)
Definition in_unit_interval (r : t) : Prop :=
  match r with
  | Finite y => (0 <= y <= 1)%R
  | _ => False
  end.

End Float64.

(** ** The formulas of the specification, for comparison *)

(** [err(t) = label(t) - sigmoid(dot(t.v_pred, delta))] *)
Definition spec_err (t tk : token_view) (delta : ndarray) : result ndarray :=
  let! score := _dot_sigmoid (Vec (VectorizedToken.v_pred t.2)) delta in
  broadcast Rminus (Scalar (IZR (_identity (token_eq t tk)))) score.

(** The sum over the targets of [err(t) * t.v_pred]. *)
Definition spec_function_grad (targets : list token_view) (tk : token_view)
    (delta : ndarray) : result ndarray :=
  let! terms :=
    rmap (fun t =>
            let! e := spec_err t tk delta in
            broadcast Rmult e (Vec (VectorizedToken.v_pred t.2)))
         targets in
  np_sum_axis0 terms.

(** [err(t) * delta] *)
Definition spec_target_grad (t tk : token_view) (delta : ndarray) : result ndarray :=
  let! e := spec_err t tk delta in
  broadcast Rmult e delta.

(** [max(1 - counter/(I * total_tokens + 1), alpha0 * 10^-4)] *)
Definition spec_learning_rate (params : Asm2VecParams) (total_tokens counter : Z) : R :=
  Rmax (1 - IZR counter / IZR (iteration params * total_tokens + 1))
       (initial_alpha params * / 10 ^ 4).

(** ** Further data of the small corpus *)

Definition ex_mov : token_view :=
  ("mov", {| VectorizedToken.v := [0%R]; VectorizedToken.v_pred := [1%R; 0%R] |}).

Definition ex_eax : token_view :=
  ("eax", {| VectorizedToken.v := [0%R]; VectorizedToken.v_pred := [0%R; 1%R] |}).

(** A full-mode context over the small corpus whose tokens-handled counter
    holds [c]; with [c = 0] it is the context [train] starts from. *)
Definition ex_state_at (c : Z) : State (list string) :=
  {| context := (add_counter TOKENS_HANDLED_COUNTER c
                   (TrainingContext_init first_sampler ex_repo ex_params false)).2;
     func := ex_func |}.

(** The state [estimate] starts from. *)
Definition ex_estimate_state : State (list string) :=
  {| context := estimate_context first_sampler ex_repo ex_params; func := ex_func |}.

(** ** Vocabulary of the statements *)

(** Every opcode and operand name of the instruction is in the vocabulary. *)
Definition resolvable (vocabulary : gmap string Token) (ins : Instruction) : Prop :=
  is_Some (vocabulary !! op ins) /\ Forall (fun a => is_Some (vocabulary !! a)) (args ins).

(** An exception other than the end of an iteration and the fuel sentinel. *)
Definition ordinary (e : exn) : Prop := e <> StopIteration /\ e <> NonTermination.

Definition raises_ordinary {A} (r : result A) : Prop :=
  forall e, r = Raise e -> ordinary e.

Definition is_ok {A} (r : result A) : bool :=
  match r with
  | Ok _ => true
  | Raise _ => false
  end.

(** [m] leaves the part [proj] of the state as it is, whether it returns
    or raises. *)
Definition preserves {Sampler A T} (proj : State Sampler -> T) (m : M A) : Prop :=
  forall st, proj (m st).1 = proj st.

(** [m] leaves the whole state as it is. *)
Definition pure {Sampler A} (m : M (Sampler := Sampler) A) : Prop :=
  preserves (fun st => st) m.

(** [m] raises, whatever the state. *)
Definition fails {Sampler A} (m : M (Sampler := Sampler) A) : Prop :=
  forall st, exists e, (m st).2 = Raise e.

(** What [m] raises is ordinary. *)
Definition ordinarily {Sampler A} (m : M (Sampler := Sampler) A) : Prop :=
  forall st, raises_ordinary (m st).2.

(** While the context is in estimation mode, [m] keeps it so and leaves
    the vocabulary as it is. *)
Definition freezes_tokens {Sampler A} (m : M (Sampler := Sampler) A) : Prop :=
  forall st,
    is_estimating (context st) = true ->
    the_vocab (m st).1 = the_vocab st /\ is_estimating (context (m st).1) = true.

Definition counters_of {Sampler} (st : State Sampler) : gmap string Counter.t :=
  _counters (context st).

(** The vectors a state holds for the token named [t]. *)
Definition v_of {Sampler} (st : State Sampler) (t : string) : option (list R) :=
  VectorizedToken.v <$> (vectorized <$> the_vocab st !! t).

Definition v_pred_of {Sampler} (st : State Sampler) (t : string) : option (list R) :=
  VectorizedToken.v_pred <$> (vectorized <$> the_vocab st !! t).

(** The logistic function, the inner product, and
    [label(t) - sigmoid(dot(u, delta))]. *)
Definition sigma (x : R) : R := (exp x / (1 + exp x))%R.

Definition inner (xs ys : list R) : R := Rsum (zip_with Rmult xs ys).

Definition err_with (u : list R) (t tk : token_view) (delta : list R) : R :=
  (IZR (_identity (token_eq t tk)) - sigma (inner u delta))%R.

Arguments sigma : simpl never.

(** ** Further parts of the source *)

(** *** [Asm2VecParams.__init__]

    The keyword arguments of the constructor.  A value is taken at the
    annotated type of the field it goes to (an [int] given for the [float]
    field is that number); [None] stands for a call whose values are not of
    those types, which the embedding does not cover. *)
Inductive kwarg :=
| KInt (z : Z)
| KFloat (x : R).

(** [kwargs.get(key, default)] for an [int] field and for a [float] field. *)
Definition kwargs_int (kwargs : gmap string kwarg) (key : string) (default : Z) : option Z :=
  match kwargs !! key with
  | None => Some default
  | Some (KInt z) => Some z
  | Some (KFloat _) => None
  end.

Definition kwargs_float (kwargs : gmap string kwarg) (key : string) (default : R) : option R :=
  match kwargs !! key with
  | None => Some default
  | Some (KInt z) => Some (IZR z)
  | Some (KFloat x) => Some x
  end.

Definition Asm2VecParams_init (kwargs : gmap string kwarg) : option Asm2VecParams :=
  d ← kwargs_int kwargs "d" 200;
  initial_alpha ← kwargs_float kwargs "alpha" (5 / 100);
  alpha_update_interval ← kwargs_int kwargs "alpha_update_interval" 10000;
  num_of_rnd_walks ← kwargs_int kwargs "rnd_walks" 3;
  neg_samples ← kwargs_int kwargs "neg_samples" 25;
  iteration ← kwargs_int kwargs "iteration" 1;
  Some {| d := d; initial_alpha := initial_alpha;
          alpha_update_interval := alpha_update_interval;
          num_of_rnd_walks := num_of_rnd_walks; neg_samples := neg_samples;
          iteration := iteration |}.

(** The keywords the constructor reads. *)
Definition recognised_keywords : list string :=
  ["d"; "alpha"; "alpha_update_interval"; "rnd_walks"; "neg_samples"; "iteration"].

(** *** The instruction accessors of [SequenceWindow] *)

Definition ins_attr {A} (get : Instruction * Instruction * Instruction -> A)
    (self : SequenceWindow) : result A :=
  match _ins self with
  | Some ins => Ok (get ins)
  | None => Raise AttributeError
  end.

Definition prev_ins := ins_attr (fun ins => ins.1.1).
Definition curr_ins := ins_attr (fun ins => ins.1.2).
Definition next_ins := ins_attr (fun ins => ins.2).

(** The tuple [__next__] builds from three instructions whose names are in
    the vocabulary. *)
Definition view_of (prev curr next : Instruction) : ViewType :=
  {| view_prev_op := op prev; view_prev_args := args prev;
     view_curr_op := op curr; view_curr_args := args curr;
     view_next_op := op next; view_next_args := args next |}.

(** *** [Counter] used [k] times *)

Definition inc_times (k : nat) (c : Counter.t) : Counter.t :=
  Nat.iter k (fun c => (Counter.inc c).2) c.

(** *** Parts of the state *)

(** The frequency of every token: the vocabulary without its vectors. *)
Definition frequencies {Sampler} (st : State Sampler) : gmap string Z :=
  frequency <$> the_vocab st.

(** Everything of the context that is fixed when it is built. *)
Definition settings {Sampler} (st : State Sampler)
    : Asm2VecParams * bool * Z * list VectorizedFunction.t :=
  (params (context st), is_estimating (context st),
   num_of_tokens (repo (context st)), funcs (repo (context st))).

(** The names a window refers to on its previous and next instruction. *)
Definition neighbour_names (vw : ViewType) : list string :=
  view_prev_op vw :: view_prev_args vw ++ view_next_op vw :: view_next_args vw.


(** A function without a window: none of its sequences has three
    instructions.  A function with one. *)
Definition short_function (f : VectorizedFunction.t) : Prop :=
  Forall (fun seq => (length seq < 3)%nat) (VectorizedFunction.sequences f).

Definition long_function (f : VectorizedFunction.t) : Prop :=
  Exists (fun seq => (3 <= length seq)%nat) (VectorizedFunction.sequences f).

(** The operand vectors of the instruction have one length. *)
Definition uniform_operands (vocabulary : gmap string Token) (ins : Instruction) : Prop :=
  exists d, Forall (fun a => forall tok, vocabulary !! a = Some tok ->
                             length (VectorizedToken.v (vectorized tok)) = d) (args ins).

(** The length of the function vector and of the two vectors of every
    token. *)
Definition shapes {Sampler} (st : State Sampler) : nat * gmap string (nat * nat) :=
  (length (VectorizedFunction.v (func st)),
   (fun tok => (length (VectorizedToken.v (vectorized tok)),
                length (VectorizedToken.v_pred (vectorized tok)))) <$> the_vocab st).

(** What a gradient step has no business with: the settings, the counters,
    the token frequencies, the sequences of the function and the shapes. *)
Definition fixed_part {Sampler} (st : State Sampler) :=
  (settings st, counters_of st, frequencies st,
   VectorizedFunction.sequences (func st), shapes st).

(** The state but for the vocabulary: the function, the learning rate, the
    sampler and the counters. *)
Definition beside_vocab {Sampler} (st : State Sampler) :=
  (func st, alpha (context st), sampler (context st), counters_of st, settings st).

(** *** Computations that return *)

(** From every state that satisfies [inv], [m] returns a value that
    satisfies [post] and leaves a state that satisfies [inv]. *)
Definition returns {Sampler A} (inv : State Sampler -> Prop)
    (m : M (Sampler := Sampler) A) (post : A -> Prop) : Prop :=
  forall st, inv st -> exists a, (m st).2 = Ok a /\ post a /\ inv (m st).1.

(** The shapes of asm2vec: token vectors of [d] components, predictive
    vectors and function vector of [2 * d]. *)
Definition well_shaped {Sampler} (d : nat) (st : State Sampler) : Prop :=
  length (VectorizedFunction.v (func st)) = (2 * d)%nat
  /\ map_Forall (fun _ tok =>
                   length (VectorizedToken.v (vectorized tok)) = d
                   /\ length (VectorizedToken.v_pred (vectorized tok)) = (2 * d)%nat)
                (the_vocab st).

(** The tokens-handled counter is registered and neither division of the
    learning-rate schedule is by zero. *)
Definition rate_computable {Sampler} (st : State Sampler) : Prop :=
  is_Some (get_counter (context st) TOKENS_HANDLED_COUNTER)
  /\ alpha_update_interval (params (context st)) <> 0%Z
  /\ (iteration (params (context st)) * num_of_tokens (repo (context st)) + 1)%Z <> 0%Z.

Definition known {Sampler} (st : State Sampler) (t : string) : Prop :=
  is_Some (the_vocab st !! t).

(** The sampler draws names of the vocabulary of [st], now and after every
    draw: [sampler_ok] holds of the states it goes through. *)
Definition sampler_sound {Sampler} (sample : Sampler -> Z -> list string * Sampler)
    (sampler_ok : Sampler -> Prop) (st : State Sampler) : Prop :=
  sampler_ok (sampler (context st))
  /\ forall s k, sampler_ok s -> Forall (known st) (sample s k).1 /\ sampler_ok (sample s k).2.

(** What a gradient step started in [st0] keeps true of the states it goes
    through. *)
Definition step_inv {Sampler} (sampler_ok : Sampler -> Prop) (st0 st : State Sampler) : Prop :=
  fixed_part st = fixed_part st0 /\ sampler_ok (sampler (context st)).
(** * Properties *)

(** ** Exceptions of the pure helpers *)

Lemma ordinary_not_stop (e : exn) : ordinary e -> e <> StopIteration.
Proof. now intros [H _]. Qed.

Lemma raises_ordinary_ok {A} (a : A) : raises_ordinary (Ok a).
Proof. intros e. discriminate. Qed.

Lemma raises_ordinary_raise {A} (e : exn) : ordinary e -> raises_ordinary (Raise (A := A) e).
Proof. intros He e' [= <-]. exact He. Qed.

Lemma rbind_ordinary {A B} (r : result A) (k : A -> result B) :
  raises_ordinary r -> (forall a, raises_ordinary (k a)) -> raises_ordinary (rbind r k).
Proof.
  destruct r as [a|e]; cbn; [auto|].
  intros Hr _ e' [= <-]. now apply Hr.
Qed.

Lemma rmap_ordinary {A B} (g : A -> result B) (l : list A) :
  (forall x, raises_ordinary (g x)) -> raises_ordinary (rmap g l).
Proof.
  intros Hg. induction l as [|x l IH]; cbn; [apply raises_ordinary_ok|].
  apply rbind_ordinary; [apply Hg|]. intros y.
  apply rbind_ordinary; [exact IH|]. intros ys. apply raises_ordinary_ok.
Qed.

Lemma py_index_ordinary {A} (l : list A) (k : Z) : raises_ordinary (py_index l k).
Proof.
  unfold py_index. destruct (_ && _).
  - destruct (l !! _); [apply raises_ordinary_ok|].
    apply raises_ordinary_raise. split; discriminate.
  - apply raises_ordinary_raise. split; discriminate.
Qed.

Lemma token_lookup_ordinary (vocabulary : gmap string Token) (name : string) :
  raises_ordinary (token_lookup vocabulary name).
Proof.
  unfold token_lookup. destruct (vocabulary !! name); [apply raises_ordinary_ok|].
  apply raises_ordinary_raise. split; discriminate.
Qed.

Lemma window_attr_ordinary {A} (get : ViewType -> A) (wnd : SequenceWindow) :
  raises_ordinary (window_attr get wnd).
Proof.
  unfold window_attr. destruct (_view wnd); [apply raises_ordinary_ok|].
  apply raises_ordinary_raise. split; discriminate.
Qed.

Lemma broadcast_ordinary (o : R -> R -> R) (a b : ndarray) :
  raises_ordinary (broadcast o a b).
Proof.
  destruct a as [x|xs], b as [y|ys]; cbn; try apply raises_ordinary_ok.
  destruct (_ =? _)%nat; [apply raises_ordinary_ok|].
  destruct xs as [|x [|x' xs]], ys as [|y [|y' ys]];
    first [ apply raises_ordinary_ok | apply raises_ordinary_raise; split; discriminate ].
Qed.

Lemma add_same_shape_ordinary (a b : ndarray) : raises_ordinary (add_same_shape a b).
Proof.
  destruct a as [x|xs], b as [y|ys]; cbn;
    try apply raises_ordinary_ok; try (apply raises_ordinary_raise; split; discriminate).
  destruct (_ =? _)%nat; [apply raises_ordinary_ok|].
  apply raises_ordinary_raise; split; discriminate.
Qed.

Lemma np_sum_axis0_ordinary (l : list ndarray) : raises_ordinary (np_sum_axis0 l).
Proof.
  induction l as [|a l IH]; [apply raises_ordinary_ok|].
  destruct l as [|b l]; [apply raises_ordinary_ok|].
  change (raises_ordinary (let! s := np_sum_axis0 (b :: l) in add_same_shape a s)).
  apply rbind_ordinary; [exact IH|]. intros s. apply add_same_shape_ordinary.
Qed.

Lemma np_average_axis0_ordinary (rows : list (list R)) :
  raises_ordinary (np_average_axis0 rows).
Proof.
  unfold np_average_axis0.
  apply rbind_ordinary; [apply np_sum_axis0_ordinary|]. intros s. apply broadcast_ordinary.
Qed.

(** ** Sequence window *)

Lemma token_lookup_some (vocabulary : gmap string Token) (name : string) :
  is_Some (vocabulary !! name) -> token_lookup vocabulary name = Ok name.
Proof. intros [tok Htok]. unfold token_lookup. now rewrite Htok. Qed.

Lemma rmap_token_lookup (vocabulary : gmap string Token) (names : list string) :
  Forall (fun a => is_Some (vocabulary !! a)) names ->
  rmap (token_lookup vocabulary) names = Ok names.
Proof.
  induction 1 as [|a names Ha _ IH]; [reflexivity|].
  cbn. rewrite (token_lookup_some _ _ Ha). cbn. now rewrite IH.
Qed.

Lemma py_index_nat {A} (l : list A) (k : nat) (x : A) :
  l !! k = Some x -> py_index l (Z.of_nat k) = Ok x.
Proof.
  intros Hk. pose proof (lookup_lt_Some _ _ _ Hk) as Hlt.
  unfold py_index.
  destruct (Z.ltb_spec (Z.of_nat k) 0) as [Hneg|_]; [lia|].
  destruct (Z.leb_spec 0 (Z.of_nat k)) as [_|Hneg]; [|lia].
  destruct (Z.ltb_spec (Z.of_nat k) (Z.of_nat (length l))) as [_|Hge]; [|lia].
  cbn. now rewrite Nat2Z.id, Hk.
Qed.

Section Window.

Variable vocabulary : gmap string Token.

(** At the end of the sequence [__next__] raises [StopIteration]. *)
Lemma next_stops (wnd : SequenceWindow) :
  (Z.of_nat (length (_seq wnd)) - 1 <= _i wnd)%Z ->
  SequenceWindow_next wnd vocabulary = Raise StopIteration.
Proof.
  intros Hi. unfold SequenceWindow_next.
  destruct (Z.geb_spec (_i wnd) (Z.of_nat (length (_seq wnd)) - 1)); [reflexivity|lia].
Qed.

(** Inside the sequence it yields or raises a lookup error. *)
Lemma next_inside (wnd : SequenceWindow) :
  (_i wnd < Z.of_nat (length (_seq wnd)) - 1)%Z ->
  raises_ordinary (SequenceWindow_next wnd vocabulary).
Proof.
  intros Hi. unfold SequenceWindow_next.
  destruct (Z.geb_spec (_i wnd) (Z.of_nat (length (_seq wnd)) - 1)) as [Hge|_]; [lia|].
  repeat (first [ apply rbind_ordinary; [|intros ?]
                | apply py_index_ordinary
                | apply token_lookup_ordinary
                | apply rmap_ordinary; intros ?; apply token_lookup_ordinary ]).
  apply raises_ordinary_ok.
Qed.

(** What it yields is a window over the same sequence, one position on. *)
Lemma next_advances (wnd wnd' : SequenceWindow) (vw : ViewType) :
  SequenceWindow_next wnd vocabulary = Ok (vw, wnd') ->
  (_i wnd < Z.of_nat (length (_seq wnd)) - 1)%Z
  /\ _seq wnd' = _seq wnd /\ _i wnd' = (_i wnd + 1)%Z.
Proof.
  unfold SequenceWindow_next.
  destruct (Z.geb_spec (_i wnd) (Z.of_nat (length (_seq wnd)) - 1)) as [Hge|Hlt];
    [discriminate|].
  intros Hnext. split; [exact Hlt|].
  repeat match type of Hnext with
         | rbind ?r _ = Ok _ => destruct r; cbn [rbind] in Hnext; [|discriminate]
         end.
  injection Hnext as _ <-. now split.
Qed.

Lemma next_yields (wnd : SequenceWindow) (i : nat) :
  _i wnd = Z.of_nat i -> (1 <= i)%nat -> (i + 1 < length (_seq wnd))%nat ->
  Forall (resolvable vocabulary) (_seq wnd) ->
  exists vw wnd',
    SequenceWindow_next wnd vocabulary = Ok (vw, wnd')
    /\ _seq wnd' = _seq wnd /\ _i wnd' = Z.of_nat (S i).
Proof.
  intros Hi H1 Hlen Hres.
  destruct (lookup_lt_is_Some_2 (_seq wnd) (i - 1)) as [p Hp]; [lia|].
  destruct (lookup_lt_is_Some_2 (_seq wnd) i) as [c Hc]; [lia|].
  destruct (lookup_lt_is_Some_2 (_seq wnd) (i + 1)) as [n Hn]; [lia|].
  rewrite Forall_lookup in Hres.
  destruct (Hres _ _ Hp) as [Hpo Hpa], (Hres _ _ Hc) as [Hco Hca],
           (Hres _ _ Hn) as [Hno Hna].
  unfold SequenceWindow_next.
  destruct (Z.geb_spec (_i wnd) (Z.of_nat (length (_seq wnd)) - 1)) as [Hge|_]; [lia|].
  rewrite Hi.
  replace (Z.of_nat i - 1)%Z with (Z.of_nat (i - 1)) by lia.
  replace (Z.of_nat i + 1)%Z with (Z.of_nat (i + 1)) by lia.
  rewrite (py_index_nat _ _ _ Hp), (py_index_nat _ _ _ Hc), (py_index_nat _ _ _ Hn).
  cbn.
  rewrite (token_lookup_some _ _ Hpo), (token_lookup_some _ _ Hco),
    (token_lookup_some _ _ Hno).
  cbn.
  rewrite (rmap_token_lookup _ _ Hpa). cbn.
  rewrite (rmap_token_lookup _ _ Hca). cbn.
  rewrite (rmap_token_lookup _ _ Hna). cbn.
  eexists _, _. split; [reflexivity|]. cbn. split; [reflexivity|lia].
Qed.

(** Draining from cursor [i] with [k] windows left yields them in order,
    whatever fuel above [k] is given. *)
Lemma drain_positions (k : nat) :
  forall (fuel i : nat) (wnd : SequenceWindow),
    _i wnd = Z.of_nat i -> (1 <= i)%nat -> (i + k + 1 = length (_seq wnd))%nat ->
    (k < fuel)%nat -> Forall (resolvable vocabulary) (_seq wnd) ->
    exists views,
      drain fuel wnd vocabulary = Ok views
      /\ map fst views = map Z.of_nat (seq i k).
Proof.
  induction k as [|k IH]; intros fuel i wnd Hi H1 Hlen Hfuel Hres.
  - destruct fuel as [|fuel]; [lia|]. cbn.
    rewrite next_stops by lia. now exists [].
  - destruct fuel as [|fuel]; [lia|]. cbn [drain].
    destruct (next_yields wnd i Hi H1 ltac:(lia) Hres) as (vw & wnd' & -> & Hseq & Hi').
    destruct (IH fuel (S i) wnd' Hi' ltac:(lia) ltac:(rewrite Hseq; lia) ltac:(lia)
                ltac:(now rewrite Hseq)) as (views & -> & Hpos).
    cbn. eexists. split; [reflexivity|]. cbn. now rewrite Hpos, Hi.
Qed.

(** With fuel above the number of positions left, draining does not run
    out of fuel, whatever the vocabulary holds. *)
Lemma drain_fuel (fuel : nat) :
  forall wnd : SequenceWindow,
    (0 < fuel)%nat ->
    (Z.of_nat (length (_seq wnd)) - 1 - _i wnd < Z.of_nat fuel)%Z ->
    drain fuel wnd vocabulary <> Raise NonTermination.
Proof.
  induction fuel as [|fuel IH]; intros wnd Hpos Hfuel; [lia|].
  cbn [drain].
  destruct (SequenceWindow_next wnd vocabulary) as [[vw wnd']|e] eqn:Hnext.
  - apply next_advances in Hnext as (Hlt & Hseq & Hi).
    specialize (IH wnd' ltac:(lia) ltac:(rewrite Hseq, Hi; lia)).
    destruct (drain fuel wnd' vocabulary) as [rest|e]; cbn; [discriminate|].
    intros [= ->]. now apply IH.
  - destruct (Z.lt_ge_cases (_i wnd) (Z.of_nat (length (_seq wnd)) - 1)) as [Hin|Hout].
    + destruct (next_inside wnd Hin e Hnext) as [Hs Hn].
      destruct e; try discriminate; contradiction.
    + rewrite next_stops in Hnext by lia. injection Hnext as <-. discriminate.
Qed.

End Window.

Lemma windows_terminate (sequence : InstructionSequence) (vocabulary : gmap string Token) :
  windows sequence vocabulary <> Raise NonTermination.
Proof. unfold windows. apply drain_fuel; [lia|]. cbn. lia. Qed.

(** C7. A window over a sequence of fewer than 3 instructions yields nothing
    and ends by end-of-iteration.  Over a sequence of [n >= 3] instructions
    whose token names are all in the vocabulary it yields exactly [n - 2]
    context tuples, taken at the cursor positions [1, 2, ..., n - 2] in this
    order, each once, and then ends by end-of-iteration. *)
Theorem sequence_window_positions
    (sequence : InstructionSequence) (vocabulary : gmap string Token) :
  ((length sequence < 3)%nat -> windows sequence vocabulary = Ok [])
  /\ ((3 <= length sequence)%nat ->
      Forall (resolvable vocabulary) sequence ->
      exists views,
        windows sequence vocabulary = Ok views
        /\ length views = (length sequence - 2)%nat
        /\ map fst views = map Z.of_nat (seq 1 (length sequence - 2))).
Proof.
  split.
  - intros Hshort. unfold windows. cbn [drain].
    rewrite next_stops; [reflexivity|]. cbn. lia.
  - intros Hlong Hres.
    destruct (drain_positions vocabulary (length sequence - 2) (S (length sequence)) 1
                (SequenceWindow_init sequence)) as (views & Hviews & Hpos);
      [reflexivity|lia|cbn; lia|lia|exact Hres|].
    exists views. split; [exact Hviews|]. split; [|exact Hpos].
    rewrite <- (length_map fst views), Hpos, length_map. apply length_seq.
Qed.

Lemma ex_seq_resolvable : Forall (resolvable ex_vocab) ex_seq.
Proof.
  unfold ex_seq. repeat constructor; cbn; try (eexists; reflexivity).
Qed.

Lemma sequence_window_positions_witness :
  exists views,
    windows ex_seq ex_vocab = Ok views
    /\ length views = 1%nat
    /\ map fst views = [1%Z].
Proof.
  apply (proj2 (sequence_window_positions ex_seq ex_vocab)).
  - cbn. lia.
  - exact ex_seq_resolvable.
Defined.

Example ex_wnd_next :
  SequenceWindow_next (SequenceWindow_init ex_seq) ex_vocab = Ok (ex_view, ex_wnd).
Proof. reflexivity. Qed.

(** ** Computations on the state *)

Section Computations.

Context {Sampler : Type}.

Lemma pure_preserves {A T} (proj : State Sampler -> T) (m : M A) :
  pure m -> preserves proj m.
Proof. intros Hm st. now rewrite (Hm st). Qed.

Section Preserved.

Context {T : Type} (proj : State Sampler -> T).

Lemma preserves_ret {A} (a : A) : preserves proj (ret a).
Proof. now intros st. Qed.

Lemma preserves_raise {A} (e : exn) : preserves proj (raise (A := A) e).
Proof. now intros st. Qed.

Lemma preserves_lift {A} (r : result A) : preserves proj (lift r).
Proof. now intros st. Qed.

Lemma preserves_gets {A} (g : State Sampler -> A) : preserves proj (gets g).
Proof. now intros st. Qed.

Lemma preserves_deref (t : string) : preserves proj (deref t).
Proof. intros st. unfold deref. now destruct (the_vocab st !! t). Qed.

Lemma preserves_modify (g : State Sampler -> State Sampler) :
  (forall st, proj (g st) = proj st) -> preserves proj (modify g).
Proof. intros Hg st. apply Hg. Qed.

Lemma preserves_bind {A B} (m : M A) (k : A -> M B) :
  preserves proj m -> (forall a, preserves proj (k a)) -> preserves proj (bind m k).
Proof.
  intros Hm Hk st. unfold bind. specialize (Hm st).
  destruct (m st) as [st' [a|e]]; cbn in *; [|exact Hm].
  now rewrite Hk.
Qed.

(** When [m] always raises, what follows it does not matter. *)
Lemma preserves_bind_fails {A B} (m : M A) (k : A -> M B) :
  preserves proj m -> fails m -> preserves proj (bind m k).
Proof.
  intros Hm Hf st. unfold bind. specialize (Hm st). destruct (Hf st) as [e He].
  destruct (m st) as [st' [a|e']]; cbn in *; [discriminate|exact Hm].
Qed.

Lemma preserves_map_each {A B} (l : list A) (body : A -> M B) :
  (forall x, preserves proj (body x)) -> preserves proj (map_each l body).
Proof.
  intros Hbody. induction l as [|x l IH]; cbn [map_each].
  - apply preserves_ret.
  - apply preserves_bind; [apply Hbody|]. intros y.
    apply preserves_bind; [exact IH|]. intros ys. apply preserves_ret.
Qed.

Lemma preserves_for_each {A} (l : list A) (body : A -> M unit) :
  (forall x, preserves proj (body x)) -> preserves proj (for_each l body).
Proof.
  intros Hbody. induction l as [|x l IH]; cbn [for_each].
  - apply preserves_ret.
  - apply preserves_bind; [apply Hbody|]. intros _. exact IH.
Qed.

Lemma preserves_except_pass (e : exn) (m : M unit) :
  preserves proj m -> preserves proj (except_pass e m).
Proof.
  intros Hm st. unfold except_pass. specialize (Hm st).
  destruct (m st) as [st' [[]|e']]; cbn in *; [assumption|].
  now destruct (bool_decide (e' = e)).
Qed.

End Preserved.

Lemma fails_lift_raise {A} (r : result A) :
  (exists e, r = Raise e) -> fails (Sampler := Sampler) (lift r).
Proof. intros [e ->] st. now exists e. Qed.

Lemma fails_bind_l {A B} (m : M A) (k : A -> M B) :
  fails m -> fails (Sampler := Sampler) (bind m k).
Proof.
  intros Hm st. unfold bind. destruct (Hm st) as [e He].
  destruct (m st) as [st' [a|e']]; cbn in *; [discriminate|]. now exists e'.
Qed.

Lemma fails_bind_r {A B} (m : M A) (k : A -> M B) :
  (forall a, fails (k a)) -> fails (Sampler := Sampler) (bind m k).
Proof.
  intros Hk st. unfold bind.
  destruct (m st) as [st' [a|e']]; cbn; [apply Hk|now exists e'].
Qed.

Lemma ordinarily_bind {A B} (m : M A) (k : A -> M B) :
  ordinarily m -> (forall a, ordinarily (k a)) -> ordinarily (Sampler := Sampler) (bind m k).
Proof.
  intros Hm Hk st. unfold bind. specialize (Hm st).
  destruct (m st) as [st' [a|e']]; cbn in *; [apply Hk|].
  intros e [= <-]. now apply Hm.
Qed.

Lemma ordinarily_bind_fails {A B} (m : M A) (k : A -> M B) :
  ordinarily m -> fails m -> ordinarily (Sampler := Sampler) (bind m k).
Proof.
  intros Hm Hf st. unfold bind. specialize (Hm st). destruct (Hf st) as [e He].
  destruct (m st) as [st' [a|e']]; cbn in *; [discriminate|].
  intros e'' [= <-]. now apply Hm.
Qed.

Lemma ordinarily_lift {A} (r : result A) :
  raises_ordinary r -> ordinarily (Sampler := Sampler) (lift r).
Proof. intros Hr st. exact Hr. Qed.

Lemma ordinarily_deref (t : string) : ordinarily (Sampler := Sampler) (deref t).
Proof.
  intros st. unfold deref. destruct (the_vocab st !! t); cbn.
  - apply raises_ordinary_ok.
  - apply raises_ordinary_raise. split; discriminate.
Qed.

Lemma ordinarily_map_each {A B} (l : list A) (body : A -> M B) :
  (forall x, ordinarily (body x)) -> ordinarily (Sampler := Sampler) (map_each l body).
Proof.
  intros Hbody. induction l as [|x l IH]; cbn [map_each].
  - intros st. apply raises_ordinary_ok.
  - apply ordinarily_bind; [apply Hbody|]. intros y.
    apply ordinarily_bind; [exact IH|]. intros ys st. apply raises_ordinary_ok.
Qed.

(** In estimation mode. *)
Lemma freezes_preserving {A} (m : M A) :
  preserves the_vocab m -> preserves (fun st => is_estimating (context st)) m ->
  freezes_tokens (Sampler := Sampler) m.
Proof. intros Hv He st Hest. split; [apply Hv|]. now rewrite (He st). Qed.

Lemma freezes_bind {A B} (m : M A) (k : A -> M B) :
  freezes_tokens m -> (forall a, freezes_tokens (k a)) ->
  freezes_tokens (Sampler := Sampler) (bind m k).
Proof.
  intros Hm Hk st Hest. unfold bind. destruct (Hm st Hest) as [Hv He].
  destruct (m st) as [st' [a|e]]; cbn in *; [|now split].
  destruct (Hk a st' He) as [Hv' He']. split; [congruence|exact He'].
Qed.

(** A branch on the mode read from the context takes the estimation side. *)
Lemma freezes_branch {A} (estimating training : M A) :
  freezes_tokens estimating ->
  freezes_tokens (Sampler := Sampler)
    (bind (gets context) (fun ctx => if is_estimating ctx then estimating else training)).
Proof.
  intros Hm st Hest. unfold bind, gets. rewrite Hest. now apply Hm.
Qed.

Lemma freezes_for_each {A} (l : list A) (body : A -> M unit) :
  (forall x, freezes_tokens (body x)) -> freezes_tokens (Sampler := Sampler) (for_each l body).
Proof.
  intros Hbody. induction l as [|x l IH]; cbn [for_each].
  - now intros st Hest.
  - apply freezes_bind; [apply Hbody|]. intros _. exact IH.
Qed.

End Computations.

(** ** The context delta *)

(** [np.hstack] is called with two positional arguments: whatever the
    tokens, [_get_inst_repr] raises, [TypeError] unless the operand vectors
    already failed to average. *)
Lemma get_inst_repr_raises (op : token_view) (args : list token_view) :
  exists e, _get_inst_repr op args = Raise e /\ ordinary e.
Proof.
  unfold _get_inst_repr.
  pose proof (np_average_axis0_ordinary (map (fun tk => VectorizedToken.v tk.2) args)) as H.
  destruct (np_average_axis0 _) as [avg|e]; cbn.
  - exists TypeError. split; [reflexivity|]. split; discriminate.
  - exists e. split; [reflexivity|]. now apply H.
Qed.

Section ContextDelta.

Context {Sampler : Type}.
Variable sample : Sampler -> Z -> list string * Sampler.

Lemma context_delta_preserves {T} (proj : State Sampler -> T) (wnd : SequenceWindow) :
  preserves proj (context_delta wnd).
Proof.
  unfold context_delta.
  repeat (first [ apply preserves_lift | apply preserves_deref
                | apply preserves_map_each; intros ?
                | apply preserves_bind; [|intros ?] ]).
Qed.

Lemma context_delta_fails (wnd : SequenceWindow) :
  fails (Sampler := Sampler) (context_delta wnd).
Proof.
  unfold context_delta.
  apply fails_bind_r; intros prev_op. apply fails_bind_r; intros prev_op_tk.
  apply fails_bind_r; intros prev_args. apply fails_bind_r; intros prev_args_tk.
  apply fails_bind_l, fails_lift_raise.
  destruct (get_inst_repr_raises prev_op_tk prev_args_tk) as (e & -> & _). now exists e.
Qed.

Lemma context_delta_ordinarily (wnd : SequenceWindow) :
  ordinarily (Sampler := Sampler) (context_delta wnd).
Proof.
  unfold context_delta.
  apply ordinarily_bind; [apply ordinarily_lift, window_attr_ordinary|intros prev_op].
  apply ordinarily_bind; [apply ordinarily_deref|intros prev_op_tk].
  apply ordinarily_bind; [apply ordinarily_lift, window_attr_ordinary|intros prev_args].
  apply ordinarily_bind;
    [apply ordinarily_map_each; intros ?; apply ordinarily_deref|intros prev_args_tk].
  destruct (get_inst_repr_raises prev_op_tk prev_args_tk) as (e & He & Hord).
  apply ordinarily_bind_fails.
  - apply ordinarily_lift. rewrite He. now apply raises_ordinary_raise.
  - apply fails_lift_raise. now exists e.
Qed.

(** The gradient step stops at its first statements: the state is as it
    was, and the exception is neither the end of an iteration nor the fuel
    sentinel. *)
Lemma train_vectorized_raises (wnd : SequenceWindow) (st : State Sampler) :
  exists e, _train_vectorized sample wnd st = (st, Raise e) /\ ordinary e.
Proof.
  unfold _train_vectorized.
  pose proof (preserves_bind_fails (fun st => st) _ (gradient_step sample wnd)
                (context_delta_preserves _ wnd) (context_delta_fails wnd) st) as Hst.
  destruct (fails_bind_l _ (gradient_step sample wnd) (context_delta_fails wnd) st) as [e He].
  pose proof (ordinarily_bind_fails _ (gradient_step sample wnd)
                (context_delta_ordinarily wnd) (context_delta_fails wnd) st) as Hord.
  destruct (bind _ _ st) as [st' r]; cbn in *. subst. exists e. split; [reflexivity|].
  now apply Hord.
Qed.

End ContextDelta.

(** C1 (what the code does). The context delta is not computed: for every
    window and state the first statements of the gradient step raise and
    leave the state as it was; on the first window of [push eax; mov eax,
    ebx; pop ebx] the exception is the [TypeError] of [np.hstack] called with
    two positional arguments.  And [np.average] without [axis], even of three
    arrays of one shape, is the 0-d mean of all their components, not their
    elementwise average. *)
Theorem context_delta_not_computed :
  (forall (Sampler : Type) (wnd : SequenceWindow) (st : State Sampler),
     exists e, context_delta wnd st = (st, Raise e))
  /\ context_delta ex_wnd ex_estimate_state = (ex_estimate_state, Raise TypeError)
  /\ np_average (Tuple [Array (Vec [3; 0]%R); Array (Vec [0; 0]%R); Array (Vec [0; 3]%R)])
     = Ok (Scalar 1).
Proof.
  split; [|split].
  - intros Sampler wnd st.
    pose proof (context_delta_preserves (fun st => st) wnd st) as Hst.
    destruct (context_delta_fails wnd st) as [e He].
    destruct (context_delta wnd st) as [st' r]; cbn in *. subst. now exists e.
  - vm_compute. reflexivity.
  - cbn. do 2 f_equal. lra.
Qed.

(** ** Sequences, [train] and [estimate] *)

Section Sequences.

Context {Sampler : Type}.
Variable NegativeSampler : list (string * Z) -> Sampler.
Variable sample : Sampler -> Z -> list string * Sampler.

Lemma train_sequence_short (seq : InstructionSequence) (st : State Sampler) :
  (length seq < 3)%nat -> _train_sequence sample seq st = (st, Ok tt).
Proof.
  intros Hshort. unfold _train_sequence, bind, gets, except_pass, create_sequence_window.
  cbn [window_loop]. unfold bind, next.
  rewrite next_stops; [reflexivity|]. cbn. lia.
Qed.

(** On a sequence of three instructions or more the first window is never
    trained: the sequence is left by an exception and the state is as it
    was. *)
Lemma train_sequence_long (seq : InstructionSequence) (st : State Sampler) :
  (3 <= length seq)%nat ->
  exists e, _train_sequence sample seq st = (st, Raise e) /\ ordinary e.
Proof.
  intros Hlong. unfold _train_sequence, bind, gets, except_pass, create_sequence_window.
  cbn [window_loop]. unfold bind at 1. unfold next.
  pose proof (next_inside (the_vocab st) (SequenceWindow_init seq)) as Hnext.
  destruct (SequenceWindow_next _ _) as [[vw wnd']|e].
  - unfold bind at 1. cbn [snd].
    destruct (train_vectorized_raises sample wnd' st) as (e & -> & Hord).
    exists e. rewrite bool_decide_eq_false_2; [now split|].
    now apply ordinary_not_stop.
  - assert (Hord : ordinary e) by (apply Hnext; [cbn; lia|reflexivity]).
    exists e. rewrite bool_decide_eq_false_2; [now split|].
    now apply ordinary_not_stop.
Qed.

Lemma train_sequence_pure (seq : InstructionSequence) :
  pure (_train_sequence sample seq).
Proof.
  intros st. destruct (Nat.lt_ge_cases (length seq) 3) as [Hshort|Hlong].
  - now rewrite train_sequence_short.
  - destruct (train_sequence_long seq st Hlong) as (e & -> & _). reflexivity.
Qed.

Lemma train_sequences_short (seqs : list InstructionSequence) (st : State Sampler) :
  Forall (fun seq => (length seq < 3)%nat) seqs ->
  for_each seqs (_train_sequence sample) st = (st, Ok tt).
Proof.
  induction 1 as [|seq seqs Hseq _ IH]; [reflexivity|].
  cbn [for_each]. unfold bind. now rewrite train_sequence_short.
Qed.

Lemma train_sequences_long (seqs : list InstructionSequence) (st : State Sampler) :
  Exists (fun seq => (3 <= length seq)%nat) seqs ->
  exists e, for_each seqs (_train_sequence sample) st = (st, Raise e) /\ ordinary e.
Proof.
  induction seqs as [|seq seqs IH]; intros Hex; [now apply Exists_nil in Hex|].
  cbn [for_each]. unfold bind.
  destruct (Nat.lt_ge_cases (length seq) 3) as [Hshort|Hlong].
  - rewrite train_sequence_short by exact Hshort.
    apply IH. apply Exists_cons in Hex as [Hhere|Hlater]; [lia|exact Hlater].
  - destruct (train_sequence_long seq st Hlong) as (e & -> & Hord). now exists e.
Qed.

(** [estimate] returns the vector it was given when no sequence has a
    window, and raises otherwise; either way the function and the
    repository are as they were. *)
Lemma estimate_outcome (f : VectorizedFunction.t) (estimate_repo : FunctionRepository)
    (params : Asm2VecParams) :
  let st0 := {| context := estimate_context NegativeSampler estimate_repo params;
                func := f |} in
  (Forall (fun seq => (length seq < 3)%nat) (VectorizedFunction.sequences f) ->
   estimate NegativeSampler sample f estimate_repo params
   = (st0, Ok (VectorizedFunction.v f)))
  /\ (Exists (fun seq => (3 <= length seq)%nat) (VectorizedFunction.sequences f) ->
      exists e,
        estimate NegativeSampler sample f estimate_repo params = (st0, Raise e)
        /\ ordinary e).
Proof.
  intros st0. unfold estimate. fold st0. split; intros Hseqs.
  - unfold bind at 1. now rewrite train_sequences_short.
  - unfold bind at 1. destruct (train_sequences_long _ st0 Hseqs) as (e & -> & Hord).
    now exists e.
Qed.

(** [train] leaves the vocabulary as it was: no window is ever trained. *)
Lemma train_function_vocab (i : nat) (f : VectorizedFunction.t)
    (ctx : TrainingContext Sampler) :
  vocab (_repo (train_function sample i f ctx).1) = vocab (_repo ctx).
Proof.
  unfold train_function.
  pose proof (preserves_for_each (fun st => st) (VectorizedFunction.sequences f)
                (_train_sequence sample) train_sequence_pure
                {| context := ctx; func := f |}) as Hpure.
  destruct (for_each _ _ _) as [st r]. cbn in Hpure. subst st. reflexivity.
Qed.

Lemma train_functions_vocab (fs : list VectorizedFunction.t) :
  forall (i : nat) (ctx : TrainingContext Sampler),
    vocab (_repo (train_functions sample i fs ctx).1) = vocab (_repo ctx).
Proof.
  induction fs as [|f fs IH]; intros i ctx; [reflexivity|].
  cbn [train_functions].
  pose proof (train_function_vocab i f ctx) as Hf.
  destruct (train_function sample i f ctx) as [ctx' [[]|e]]; cbn in Hf.
  - now rewrite IH.
  - exact Hf.
Qed.

Lemma train_vocab_unchanged (repository : FunctionRepository) (params : Asm2VecParams) :
  vocab (_repo (train NegativeSampler sample repository params).1) = vocab repository.
Proof. unfold train. now rewrite train_functions_vocab. Qed.

End Sequences.

(** C6 (what the code does). [estimate] on a function with the one sequence
    [push eax; mov eax, ebx; pop ebx] raises at the first window and returns
    no vector; the function and the vocabulary are as they were. *)
Theorem estimate_raises_at_first_window :
  estimate first_sampler first_sample ex_func ex_repo ex_params
  = (ex_estimate_state, Raise TypeError).
Proof. vm_compute. reflexivity. Qed.

(** [train] over the same corpus raises at the same place. *)
Example ex_train :
  (train first_sampler first_sample ex_repo ex_params).2 = Raise TypeError.
Proof. vm_compute. reflexivity. Qed.

(** ** Counters and the learning rate *)

Section TokenStep.

Context {Sampler : Type}.
Variable NegativeSampler : list (string * Z) -> Sampler.
Variable sample : Sampler -> Z -> list string * Sampler.

Lemma update_learning_rate_no_counter (st : State Sampler) :
  get_counter (context st) TOKENS_HANDLED_COUNTER = None ->
  update_learning_rate st = (st, Raise AttributeError).
Proof. intros Hc. unfold update_learning_rate, bind, gets. now rewrite Hc. Qed.

Lemma code_rate_is_spec (p : Asm2VecParams) (total_tokens counter : Z) :
  Rmax (1 - IZR counter / IZR (iteration p * total_tokens + 1))
       (initial_alpha p * (1 / 10000))
  = spec_learning_rate p total_tokens counter.
Proof. unfold spec_learning_rate. f_equal. cbn [pow]. lra. Qed.

Lemma update_learning_rate_recomputes (st : State Sampler) (c : Counter.t) :
  let p := params (context st) in
  let total_tokens := num_of_tokens (repo (context st)) in
  get_counter (context st) TOKENS_HANDLED_COUNTER = Some c ->
  alpha_update_interval p <> 0%Z ->
  (Counter.val c mod alpha_update_interval p = 0)%Z ->
  (iteration p * total_tokens + 1 <> 0)%Z ->
  update_learning_rate st
  = (on_context (set_alpha (spec_learning_rate p total_tokens (Counter.val c))) st, Ok tt).
Proof.
  intros p total_tokens Hc HU Hmod Htotal.
  unfold update_learning_rate, bind, gets. rewrite Hc.
  fold p total_tokens.
  destruct (Z.eqb_spec (alpha_update_interval p) 0) as [|_]; [contradiction|].
  rewrite Hmod. cbn [Z.eqb].
  destruct (Z.eqb_spec (iteration p * total_tokens + 1) 0) as [|_]; [contradiction|].
  unfold modify. now rewrite code_rate_is_spec.
Qed.

(** Off the multiples of the interval the rate is left alone. *)
Lemma update_learning_rate_skips (st : State Sampler) (c : Counter.t) :
  let p := params (context st) in
  get_counter (context st) TOKENS_HANDLED_COUNTER = Some c ->
  alpha_update_interval p <> 0%Z ->
  (Counter.val c mod alpha_update_interval p <> 0)%Z ->
  update_learning_rate st = (st, Ok tt).
Proof.
  intros p Hc HU Hmod.
  unfold update_learning_rate, bind, gets. rewrite Hc. fold p.
  destruct (Z.eqb_spec (alpha_update_interval p) 0) as [|_]; [contradiction|].
  destruct (Z.eqb_spec (Counter.val c mod alpha_update_interval p) 0) as [|_];
    [contradiction|reflexivity].
Qed.

(** The schedule is antitone in the counter and bounded below. *)
Lemma spec_learning_rate_antitone (p : Asm2VecParams) (total_tokens c1 c2 : Z) :
  (0 < iteration p * total_tokens + 1)%Z -> (c1 <= c2)%Z ->
  (spec_learning_rate p total_tokens c2 <= spec_learning_rate p total_tokens c1)%R.
Proof.
  intros Htotal Hc. unfold spec_learning_rate.
  apply Rmax_lub; [|apply Rmax_r].
  eapply Rle_trans; [|apply Rmax_l].
  apply IZR_lt in Htotal. apply IZR_le in Hc.
  set (t := IZR (iteration p * total_tokens + 1)) in *.
  assert (IZR c1 / t <= IZR c2 / t)%R; [|lra].
  unfold Rdiv. apply Rmult_le_compat_r; [|exact Hc].
  left. now apply Rinv_0_lt_compat.
Qed.

Lemma spec_learning_rate_floor (p : Asm2VecParams) (total_tokens c : Z) :
  (initial_alpha p * / 10 ^ 4 <= spec_learning_rate p total_tokens c)%R.
Proof. apply Rmax_r. Qed.

(** What each part of the token loop leaves alone.  [proj] is a part of
    the state that the writes to the sampler, to the learning rate and to the
    token vectors do not touch. *)
Section Untouched.

Context {T : Type} (proj : State Sampler -> T).

Hypothesis proj_sampler : forall s st, proj (on_context (set_sampler s) st) = proj st.
Hypothesis proj_alpha : forall a st, proj (on_context (set_alpha a) st) = proj st.

Lemma draw_targets_untouched (tk : string) : preserves proj (draw_targets sample tk).
Proof.
  unfold draw_targets.
  apply preserves_bind; [apply preserves_gets|intros ctx].
  destruct (sample _ _) as [drawn sampler'].
  apply preserves_bind; [now apply preserves_modify|intros _]. apply preserves_ret.
Qed.

Lemma update_learning_rate_untouched : preserves proj update_learning_rate.
Proof.
  unfold update_learning_rate.
  apply preserves_bind; [apply preserves_gets|intros ctx].
  destruct (get_counter ctx _); [|apply preserves_raise].
  repeat (destruct (_ =? _)%Z); try apply preserves_raise; try apply preserves_ret.
  now apply preserves_modify.
Qed.

Hypothesis proj_vocab : forall voc st, proj (on_context (set_vocab voc) st) = proj st.

Lemma isub_v_pred_untouched (t : string) (g : ndarray) : preserves proj (isub_v_pred t g).
Proof.
  unfold isub_v_pred, store_vectors.
  repeat (first [ apply preserves_lift | apply preserves_deref
                | now apply preserves_modify
                | apply preserves_bind; [|intros ?] ]).
Qed.

Lemma update_targets_untouched (targets : list string) (tk : string) (delta : ndarray) :
  preserves proj (update_targets targets tk delta).
Proof.
  unfold update_targets. apply preserves_for_each. intros t.
  repeat (first [ apply preserves_lift | apply preserves_deref | apply preserves_gets
                | apply isub_v_pred_untouched
                | apply preserves_bind; [|intros ?] ]).
Qed.

Lemma token_step_untouched (delta : ndarray) (f_grad : list R) (tk : string) :
  preserves proj (token_step sample delta f_grad tk).
Proof.
  unfold token_step.
  apply preserves_bind; [apply draw_targets_untouched|intros targets].
  apply preserves_bind; [apply update_learning_rate_untouched|intros _].
  apply preserves_bind;
    [apply preserves_map_each; intros ?; apply preserves_deref|intros samples].
  apply preserves_bind; [apply preserves_deref|intros current_token].
  apply preserves_bind; [apply preserves_lift|intros g].
  apply preserves_bind; [apply preserves_lift|intros f_grad'].
  apply preserves_bind; [apply preserves_gets|intros ctx].
  apply preserves_bind; [|intros _; apply preserves_ret].
  destruct (is_estimating ctx); [apply preserves_ret|apply update_targets_untouched].
Qed.

Lemma token_loop_untouched (delta : ndarray) (tokens : list string) (f_grad : list R) :
  preserves proj (token_loop sample delta f_grad tokens).
Proof.
  revert f_grad. induction tokens as [|tk tokens IH]; intros f_grad; cbn [token_loop].
  - apply preserves_ret.
  - apply preserves_bind; [apply token_step_untouched|intros f_grad']. apply IH.
Qed.

End Untouched.

(** However many tokens the loop handles, the counters hold what they
    held: [Counter.inc] is not called. *)
Lemma token_loop_counters (delta : ndarray) (tokens : list string) (f_grad : list R) :
  preserves counters_of (token_loop sample delta f_grad tokens).
Proof. now apply token_loop_untouched. Qed.

Lemma token_step_no_counter (delta : ndarray) (f_grad : list R) (tk : string)
    (st : State Sampler) :
  get_counter (context st) TOKENS_HANDLED_COUNTER = None ->
  exists st', token_step sample delta f_grad tk st = (st', Raise AttributeError).
Proof.
  intros Hc. unfold token_step. unfold bind at 1.
  pose proof (draw_targets_untouched counters_of ltac:(reflexivity) tk st) as Hkeep.
  assert (Hok : exists targets, (draw_targets sample tk st).2 = Ok targets).
  { unfold draw_targets, bind, gets. destruct (sample _ _) as [drawn sampler'].
    cbn. eauto. }
  destruct Hok as [targets Hok].
  destruct (draw_targets sample tk st) as [st1 r]; cbn in Hkeep, Hok. subst r.
  unfold bind at 1.
  rewrite update_learning_rate_no_counter; [now exists st1|].
  unfold get_counter. unfold counters_of in Hkeep. rewrite Hkeep. exact Hc.
Qed.

Lemma gradient_step_no_counter (wnd : SequenceWindow) (vw : ViewType) (delta : ndarray)
    (st : State Sampler) :
  _view wnd = Some vw ->
  get_counter (context st) TOKENS_HANDLED_COUNTER = None ->
  exists st', gradient_step sample wnd delta st = (st', Raise AttributeError).
Proof.
  intros Hview Hc. unfold gradient_step, curr_ins_op, curr_ins_args, window_attr.
  rewrite Hview. unfold bind at 1. cbn [lift]. unfold bind at 1. cbn [lift].
  unfold bind at 1. cbn [gets]. unfold bind at 1. cbn [token_loop]. unfold bind at 1.
  destruct (token_step_no_counter delta
              (repeat 0%R (length (VectorizedFunction.v (func st))))
              (view_curr_op vw) st Hc) as [st' ->].
  now exists st'.
Qed.

(** The token loop recomputes one and the same rate at every token: the
    counter it reads does not move. *)
Lemma token_step_rate (delta : ndarray) (f_grad : list R) (tk : string)
    (st : State Sampler) (c : Counter.t) :
  let p := params (context st) in
  let total_tokens := num_of_tokens (repo (context st)) in
  get_counter (context st) TOKENS_HANDLED_COUNTER = Some c ->
  alpha_update_interval p <> 0%Z ->
  (Counter.val c mod alpha_update_interval p = 0)%Z ->
  (iteration p * total_tokens + 1 <> 0)%Z ->
  alpha (context (token_step sample delta f_grad tk st).1)
  = spec_learning_rate p total_tokens (Counter.val c).
Proof.
  intros p total_tokens Hc HU Hmod Htotal. unfold token_step. unfold bind at 1.
  pose proof (draw_targets_untouched counters_of ltac:(reflexivity) tk st) as Hcounters.
  pose proof (draw_targets_untouched (fun st => params (context st))
                ltac:(reflexivity) tk st) as Hparams.
  pose proof (draw_targets_untouched (fun st => num_of_tokens (repo (context st)))
                ltac:(reflexivity) tk st) as Htokens.
  assert (Hok : exists targets, (draw_targets sample tk st).2 = Ok targets).
  { unfold draw_targets, bind, gets. destruct (sample _ _) as [drawn sampler'].
    cbn. eauto. }
  destruct Hok as [targets Hok].
  destruct (draw_targets sample tk st) as [st1 r]; cbn in Hcounters, Hparams, Htokens, Hok.
  subst r. unfold bind at 1.
  rewrite (update_learning_rate_recomputes st1 c);
    [|unfold get_counter; unfold counters_of in Hcounters; now rewrite Hcounters
     |now rewrite Hparams|now rewrite Hparams|now rewrite Hparams, Htokens].
  rewrite Hparams, Htokens. fold p total_tokens.
  match goal with
  | |- alpha (context (?rest ?st2).1) = _ =>
      assert (Hrest : preserves (fun st => alpha (context st)) rest)
  end.
  { apply preserves_bind;
      [apply preserves_map_each; intros ?; apply preserves_deref|intros samples].
    apply preserves_bind; [apply preserves_deref|intros current_token].
    apply preserves_bind; [apply preserves_lift|intros g].
    apply preserves_bind; [apply preserves_lift|intros f_grad'].
    apply preserves_bind; [apply preserves_gets|intros ctx].
    apply preserves_bind; [|intros _; apply preserves_ret].
    destruct (is_estimating ctx); [apply preserves_ret|].
    now apply update_targets_untouched. }
  rewrite Hrest. reflexivity.
Qed.

Lemma token_loop_rate (delta : ndarray) (tokens : list string) :
  forall (f_grad : list R) (st : State Sampler) (c : Counter.t),
    let p := params (context st) in
    let total_tokens := num_of_tokens (repo (context st)) in
    tokens <> [] ->
    get_counter (context st) TOKENS_HANDLED_COUNTER = Some c ->
    alpha_update_interval p <> 0%Z ->
    (Counter.val c mod alpha_update_interval p = 0)%Z ->
    (iteration p * total_tokens + 1 <> 0)%Z ->
    alpha (context (token_loop sample delta f_grad tokens st).1)
    = spec_learning_rate p total_tokens (Counter.val c).
Proof.
  induction tokens as [|tk tokens IH]; intros f_grad st c p total_tokens Hne Hc HU Hmod Htotal;
    [contradiction|].
  cbn [token_loop]. unfold bind.
  pose proof (token_step_rate delta f_grad tk st c Hc HU Hmod Htotal) as Hrate.
  pose proof (token_step_untouched counters_of ltac:(reflexivity) ltac:(reflexivity)
                ltac:(reflexivity) delta f_grad tk st) as Hcounters.
  pose proof (token_step_untouched (fun st => params (context st))
                ltac:(reflexivity) ltac:(reflexivity) ltac:(reflexivity)
                delta f_grad tk st) as Hparams.
  pose proof (token_step_untouched (fun st => num_of_tokens (repo (context st)))
                ltac:(reflexivity) ltac:(reflexivity) ltac:(reflexivity)
                delta f_grad tk st) as Htokens.
  destruct (token_step sample delta f_grad tk st) as [st' [f_grad'|e]];
    cbn in Hrate, Hcounters, Hparams, Htokens; [|exact Hrate].
  destruct tokens as [|tk' tokens]; [exact Hrate|].
  rewrite (IH f_grad' st' c); [now rewrite Hparams, Htokens|discriminate| | | | ].
  - unfold get_counter. unfold counters_of in Hcounters. now rewrite Hcounters.
  - now rewrite Hparams.
  - now rewrite Hparams.
  - now rewrite Hparams, Htokens.
Qed.

(** In estimation mode the gradient step, from line 185 on, writes to no
    token: the two writes to token vectors are behind [if not
    context.is_estimating()]. *)
Lemma token_step_freezes (delta : ndarray) (f_grad : list R) (tk : string) :
  freezes_tokens (token_step sample delta f_grad tk).
Proof.
  unfold token_step.
  apply freezes_bind;
    [apply freezes_preserving; now apply draw_targets_untouched|intros targets].
  apply freezes_bind;
    [apply freezes_preserving; now apply update_learning_rate_untouched|intros _].
  apply freezes_bind;
    [apply freezes_preserving; apply preserves_map_each; intros ?; apply preserves_deref
    |intros samples].
  apply freezes_bind; [apply freezes_preserving; apply preserves_deref|intros current_token].
  apply freezes_bind; [apply freezes_preserving; apply preserves_lift|intros g].
  apply freezes_bind; [apply freezes_preserving; apply preserves_lift|intros f_grad'].
  intros st Hest. unfold bind, gets, ret. unfold is_estimating in *.
  rewrite Hest. cbn. split; [reflexivity|exact Hest].
Qed.

Lemma token_loop_freezes (delta : ndarray) (tokens : list string) (f_grad : list R) :
  freezes_tokens (token_loop sample delta f_grad tokens).
Proof.
  revert f_grad. induction tokens as [|tk tokens IH]; intros f_grad; cbn [token_loop].
  - now intros st Hest.
  - apply freezes_bind; [apply token_step_freezes|intros f_grad']. apply IH.
Qed.

Lemma apply_function_gradient_freezes (f_grad : list R) :
  freezes_tokens (Sampler := Sampler) (apply_function_gradient f_grad).
Proof.
  unfold apply_function_gradient. apply freezes_preserving.
  - repeat (first [ apply preserves_lift | apply preserves_gets
                  | now apply preserves_modify
                  | apply preserves_bind; [|intros ?] ]).
  - repeat (first [ apply preserves_lift | apply preserves_gets
                  | now apply preserves_modify
                  | apply preserves_bind; [|intros ?] ]).
Qed.

Lemma gradient_step_freezes (wnd : SequenceWindow) (delta : ndarray) :
  freezes_tokens (gradient_step sample wnd delta).
Proof.
  unfold gradient_step.
  apply freezes_bind; [apply freezes_preserving; apply preserves_lift|intros curr_op].
  apply freezes_bind; [apply freezes_preserving; apply preserves_lift|intros curr_args].
  apply freezes_bind; [apply freezes_preserving; apply preserves_gets|intros f].
  apply freezes_bind; [apply token_loop_freezes|intros f_grad].
  apply freezes_bind; [apply apply_function_gradient_freezes|intros _].
  apply (freezes_branch (ret tt)). now intros st Hest.
Qed.

End TokenStep.

(** C8. Whenever the tokens-handled counter is a multiple of the update
    interval, the learning rate is recomputed as
    [max(1 - counter/(I * total_tokens + 1), alpha0 * 10^-4)]; at two
    recomputation points of a run, the counter of the later one not below
    that of the earlier one, the later rate is at most the earlier rate, and
    it is at least [alpha0 * 10^-4]. *)
Theorem learning_rate_schedule {Sampler : Type} (st1 st2 : State Sampler)
    (c1 c2 : Counter.t) :
  let p := params (context st1) in
  let total_tokens := num_of_tokens (repo (context st1)) in
  params (context st2) = p ->
  num_of_tokens (repo (context st2)) = total_tokens ->
  get_counter (context st1) TOKENS_HANDLED_COUNTER = Some c1 ->
  get_counter (context st2) TOKENS_HANDLED_COUNTER = Some c2 ->
  alpha_update_interval p <> 0%Z ->
  (0 < iteration p * total_tokens + 1)%Z ->
  (Counter.val c1 mod alpha_update_interval p = 0)%Z ->
  (Counter.val c2 mod alpha_update_interval p = 0)%Z ->
  (Counter.val c1 <= Counter.val c2)%Z ->
  let rate1 := alpha (context (update_learning_rate st1).1) in
  let rate2 := alpha (context (update_learning_rate st2).1) in
  rate1 = spec_learning_rate p total_tokens (Counter.val c1)
  /\ rate2 = spec_learning_rate p total_tokens (Counter.val c2)
  /\ (rate2 <= rate1)%R
  /\ (initial_alpha p * / 10 ^ 4 <= rate2)%R.
Proof.
  intros p total_tokens Hp Htotal Hc1 Hc2 HU Hpos Hm1 Hm2 Hle rate1 rate2.
  assert (H1 : rate1 = spec_learning_rate p total_tokens (Counter.val c1)).
  { unfold rate1. rewrite (update_learning_rate_recomputes st1 c1); auto.
    fold p total_tokens. lia. }
  assert (H2 : rate2 = spec_learning_rate p total_tokens (Counter.val c2)).
  { unfold rate2. rewrite (update_learning_rate_recomputes st2 c2); auto.
    - now rewrite Hp, Htotal.
    - now rewrite Hp.
    - now rewrite Hp.
    - rewrite Hp, Htotal. lia. }
  rewrite H1, H2. split; [reflexivity|]. split; [reflexivity|]. split.
  - now apply spec_learning_rate_antitone.
  - apply spec_learning_rate_floor.
Qed.

Lemma learning_rate_schedule_witness :
  let rate1 := alpha (context (update_learning_rate (ex_state_at 0)).1) in
  let rate2 := alpha (context (update_learning_rate (ex_state_at 10000)).1) in
  rate1 = spec_learning_rate ex_params 7 0
  /\ rate2 = spec_learning_rate ex_params 7 10000
  /\ (rate2 <= rate1)%R
  /\ (initial_alpha ex_params * / 10 ^ 4 <= rate2)%R.
Proof.
  apply (learning_rate_schedule (ex_state_at 0) (ex_state_at 10000)
           {| Counter._name := TOKENS_HANDLED_COUNTER; Counter._val := 0 |}
           {| Counter._name := TOKENS_HANDLED_COUNTER; Counter._val := 10000 |});
    try reflexivity; cbn; lia.
Defined.

(** C10. [train] registers the tokens-handled counter, [estimate] does
    not; [get_counter] answers [None] for a name that is not registered.  So
    in the state [estimate] starts from, where its first gradient step would
    run, the learning-rate check raises [AttributeError] instead of reading a
    counter value, and so does the gradient step at any window position,
    whatever context delta it is given. *)
Theorem estimate_counter_unregistered {Sampler : Type}
    (NegativeSampler : list (string * Z) -> Sampler)
    (sample : Sampler -> Z -> list string * Sampler)
    (repository : FunctionRepository) (params : Asm2VecParams)
    (f : VectorizedFunction.t) :
  let st0 := {| context := estimate_context NegativeSampler repository params;
                func := f |} in
  get_counter (train_context NegativeSampler repository params) TOKENS_HANDLED_COUNTER
  = Some {| Counter._name := TOKENS_HANDLED_COUNTER; Counter._val := 0 |}
  /\ get_counter (context st0) TOKENS_HANDLED_COUNTER = None
  /\ update_learning_rate st0 = (st0, Raise AttributeError)
  /\ forall seq i ins vw delta,
       exists st',
         gradient_step sample {| _seq := seq; _i := i; _ins := ins; _view := Some vw |}
           delta st0
         = (st', Raise AttributeError).
Proof.
  intros st0.
  assert (Hnone : get_counter (context st0) TOKENS_HANDLED_COUNTER = None) by reflexivity.
  split; [|split; [|split]].
  - unfold train_context, add_counter, get_counter. cbn. apply lookup_insert_eq.
  - exact Hnone.
  - now apply update_learning_rate_no_counter.
  - intros seq i ins vw delta.
    now apply (gradient_step_no_counter sample _ vw).
Qed.

(** C2 (what the code does). The token loop over the three tokens of
    [mov eax, ebx], started where [train] starts, returns, and the
    tokens-handled counter holds 0 before it and 0 after it. *)
Theorem tokens_handled_counter_not_incremented :
  let run := token_loop first_sample (Vec [0%R; 0%R]) [0%R; 0%R] ["mov"; "eax"; "ebx"]
               (ex_state_at 0) in
  is_ok run.2 = true
  /\ get_counter (context (ex_state_at 0)) TOKENS_HANDLED_COUNTER
     = Some {| Counter._name := TOKENS_HANDLED_COUNTER; Counter._val := 0 |}
  /\ get_counter (context run.1) TOKENS_HANDLED_COUNTER
     = Some {| Counter._name := TOKENS_HANDLED_COUNTER; Counter._val := 0 |}.
Proof.
  intros run. split; [|split].
  - vm_compute. reflexivity.
  - reflexivity.
  - unfold get_counter.
    pose proof (token_loop_counters first_sample (Vec [0%R; 0%R]) ["mov"; "eax"; "ebx"]
                  [0%R; 0%R] (ex_state_at 0)) as Hkeep.
    unfold counters_of in Hkeep. fold run in Hkeep. rewrite Hkeep. reflexivity.
Qed.

(** ** Gradient formulas *)

Lemma sigma_0 : sigma 0 = (1 / 2)%R.
Proof. unfold sigma. rewrite exp_0. lra. Qed.

Lemma dot_sigmoid_vectors (xs ys : list R) :
  length xs = length ys ->
  _dot_sigmoid (Vec xs) (Vec ys) = Ok (Scalar (sigma (inner xs ys))).
Proof.
  intros Hlen. unfold _dot_sigmoid, np_dot. rewrite Hlen, Nat.eqb_refl. reflexivity.
Qed.

Lemma spec_err_vectors (t tk : token_view) (delta : list R) :
  length (VectorizedToken.v_pred t.2) = length delta ->
  spec_err t tk (Vec delta) = Ok (Scalar (err_with (VectorizedToken.v_pred t.2) t tk delta)).
Proof. intros Hlen. unfold spec_err. now rewrite dot_sigmoid_vectors. Qed.

Lemma zip_with_scaled (a b : R) (xs : list R) :
  zip_with Rplus (map (Rmult a) xs) (map (Rmult b) xs) = map (Rmult (a + b)) xs.
Proof.
  induction xs as [|x xs IH]; [reflexivity|].
  cbn. rewrite IH. f_equal. lra.
Qed.

Section FunctionGradient.

Variables (tk : token_view) (delta : list R).

Hypothesis shape : length (VectorizedToken.v_pred tk.2) = length delta.

(** What the code sums: every target is scored against the predictive
    vector of [tk]. *)
Lemma code_terms (samples : list token_view) :
  rmap (fun t =>
          let! s := _dot_sigmoid (Vec (VectorizedToken.v_pred tk.2)) (Vec delta) in
          broadcast Rminus (Scalar (IZR (_identity (token_eq t tk)))) s) samples
  = Ok (map (fun t => Scalar (err_with (VectorizedToken.v_pred tk.2) t tk delta)) samples).
Proof.
  induction samples as [|t samples IH]; [reflexivity|].
  cbn [rmap]. rewrite IH, dot_sigmoid_vectors by exact shape. reflexivity.
Qed.

(** The two sums over a non-empty target set with one predictive vector. *)
Lemma sums_agree (t : token_view) (samples : list token_view) :
  exists total,
    np_sum_axis0
      (map (fun t => Scalar (err_with (VectorizedToken.v_pred tk.2) t tk delta))
           (t :: samples))
    = Ok (Scalar total)
    /\ np_sum_axis0
         (map (fun t =>
                 Vec (map (Rmult (err_with (VectorizedToken.v_pred tk.2) t tk delta))
                          (VectorizedToken.v_pred tk.2)))
              (t :: samples))
       = Ok (Vec (map (Rmult total) (VectorizedToken.v_pred tk.2))).
Proof.
  revert t. induction samples as [|t' samples IH]; intros t.
  - eexists. split; reflexivity.
  - destruct (IH t') as (total & Hs & Hv).
    exists (err_with (VectorizedToken.v_pred tk.2) t tk delta + total)%R.
    change (map ?g (t :: t' :: samples)) with (g t :: map g (t' :: samples)).
    split.
    + change (np_sum_axis0 (?a :: map ?g (t' :: samples)))
        with (let! s := np_sum_axis0 (map g (t' :: samples)) in add_same_shape a s).
      rewrite Hs. reflexivity.
    + change (np_sum_axis0 (?a :: map ?g (t' :: samples)))
        with (let! s := np_sum_axis0 (map g (t' :: samples)) in add_same_shape a s).
      rewrite Hv. cbn. rewrite !length_map, Nat.eqb_refl.
      now rewrite zip_with_scaled.
Qed.

End FunctionGradient.

Ltac real_components :=
  repeat f_equal;
  unfold err_with, inner, token_eq; cbn;
  repeat (rewrite bool_decide_eq_true_2 by reflexivity);
  repeat (rewrite bool_decide_eq_false_2 by discriminate);
  repeat match goal with
         | |- context [sigma ?x] => progress (replace x with 0%R by lra)
         end;
  rewrite ?sigma_0; cbn [_identity]; lra.

Ltac score_components :=
  repeat f_equal;
  unfold err_with, inner, token_eq; cbn;
  repeat (rewrite bool_decide_eq_true_2 by reflexivity);
  repeat (rewrite bool_decide_eq_false_2 by discriminate);
  repeat match goal with
         | |- context [sigma ?x] =>
             first [ progress (replace x with 0%R by lra)
                   | progress (replace x with 1%R by lra) ]
         end;
  rewrite ?sigma_0; cbn [_identity]; lra.

Lemma sigma_1_above_half : (1 / 2 < sigma 1)%R.
Proof.
  pose proof (exp_increasing 0 1 ltac:(lra)) as He. rewrite exp_0 in He.
  unfold sigma.
  replace (exp 1 / (1 + exp 1))%R with (1 - / (1 + exp 1))%R by (field; lra).
  assert (Hinv : (/ (1 + exp 1) < / 2)%R) by (apply Rinv_lt_contravar; lra).
  lra.
Qed.

(** The sum of a list of 0-d values. *)
Lemma np_sum_scalars (xs : list R) :
  np_sum_axis0 (map Scalar xs) = Ok (Scalar (Rsum xs)).
Proof.
  induction xs as [|a [|b xs] IH]; [reflexivity| |].
  - cbn. do 2 f_equal. lra.
  - change (np_sum_axis0 (map Scalar (a :: b :: xs)))
      with (let! s := np_sum_axis0 (map Scalar (b :: xs)) in add_same_shape (Scalar a) s).
    rewrite IH. reflexivity.
Qed.

(** What [_get_function_grad] returns on vectors of one length, for any
    target set: every target is scored against the predictive vector of
    [tk], not against its own, and the sum of these error signals, divided
    by 3, scales the predictive vector of [tk] alone. *)
Lemma function_grad_formula (samples : list token_view) (tk : token_view)
    (delta : list R) :
  length (VectorizedToken.v_pred tk.2) = length delta ->
  _get_function_grad samples tk (Vec delta)
  = Ok (Vec (map (Rmult
                    (Rsum (map (fun t => err_with (VectorizedToken.v_pred tk.2) t tk delta)
                               samples) / 3))
                 (VectorizedToken.v_pred tk.2))).
Proof.
  intros Hshape. unfold _get_function_grad. rewrite (code_terms tk delta Hshape).
  cbn [rbind].
  rewrite <- (map_map (fun t => err_with (VectorizedToken.v_pred tk.2) t tk delta) Scalar).
  rewrite np_sum_scalars. reflexivity.
Qed.

(** C3 (what the code does). With [tk = mov], [mov.v_pred = [1, 0]],
    [eax.v_pred = [0, 1]] and [delta = [1, 0]]: the error signal of the
    target [eax] is [0 - sigmoid(dot(eax.v_pred, delta)) = -1/2], and the sum
    over the targets [mov] and [eax] of [err(t) * t.v_pred] is
    [[1 - sigmoid(1), -1/2]].  [_get_function_grad] scores [eax] against
    [mov.v_pred] ([0 - sigmoid(1)]), scales [mov.v_pred] alone and divides by
    3: it returns [[(1 - 2 sigmoid(1)) / 3, 0]], which is no multiple of the
    claimed sum.  With [mov] the only target and [delta = [0, 0]], where the
    choice of the vector makes no difference, the claimed sum is [[1/2, 0]]
    and the code returns [[1/6, 0]]. *)
Theorem function_gradient_uses_current_token :
  spec_err ex_eax ex_mov (Vec [1; 0]%R) = Ok (Scalar (- (1 / 2)))
  /\ spec_function_grad [ex_eax] ex_mov (Vec [1; 0]%R) = Ok (Vec [0; - (1 / 2)]%R)
  /\ _get_function_grad [ex_eax] ex_mov (Vec [1; 0]%R) = Ok (Vec [(0 - sigma 1) / 3; 0]%R)
  /\ spec_function_grad [ex_mov; ex_eax] ex_mov (Vec [1; 0]%R)
     = Ok (Vec [1 - sigma 1; - (1 / 2)]%R)
  /\ _get_function_grad [ex_mov; ex_eax] ex_mov (Vec [1; 0]%R)
     = Ok (Vec [(1 - 2 * sigma 1) / 3; 0]%R)
  /\ (forall k : R,
        _get_function_grad [ex_mov; ex_eax] ex_mov (Vec [1; 0]%R)
        <> Ok (Vec (map (Rmult k) [1 - sigma 1; - (1 / 2)]%R)))
  /\ spec_function_grad [ex_mov] ex_mov (Vec [0; 0]%R) = Ok (Vec [1 / 2; 0]%R)
  /\ _get_function_grad [ex_mov] ex_mov (Vec [0; 0]%R) = Ok (Vec [1 / 6; 0]%R).
Proof.
  assert (Hcode : _get_function_grad [ex_mov; ex_eax] ex_mov (Vec [1; 0]%R)
                  = Ok (Vec [(1 - 2 * sigma 1) / 3; 0]%R)).
  { rewrite function_grad_formula by reflexivity. cbn. score_components. }
  split; [|split; [|split; [|split; [|split; [|split; [|split]]]]]].
  - rewrite spec_err_vectors by reflexivity. score_components.
  - unfold spec_function_grad. cbn [rmap].
    rewrite !spec_err_vectors by reflexivity. cbn. score_components.
  - rewrite function_grad_formula by reflexivity. cbn. score_components.
  - unfold spec_function_grad. cbn [rmap].
    rewrite !spec_err_vectors by reflexivity. cbn. score_components.
  - exact Hcode.
  - intros k. rewrite Hcode. cbn [map]. intros [= H1 H2].
    pose proof sigma_1_above_half. assert (k = 0%R) by lra. subst k. lra.
  - unfold spec_function_grad. cbn [rmap].
    rewrite !spec_err_vectors by reflexivity. cbn. score_components.
  - rewrite function_grad_formula by reflexivity. cbn. score_components.
Qed.

(** What [_get_target_grad] returns on vectors of one length: the label
    minus the product, not the difference times [delta]. *)
Lemma target_grad_formula (target current_token : token_view) (delta : list R) :
  length (VectorizedToken.v_pred target.2) = length delta ->
  _get_target_grad target current_token (Vec delta)
  = Ok (Vec (map (Rminus (IZR (_identity (token_eq target current_token))))
                 (map (Rmult (sigma (inner (VectorizedToken.v_pred target.2) delta)))
                      delta))).
Proof.
  intros Hshape. unfold _get_target_grad. now rewrite dot_sigmoid_vectors.
Qed.

Lemma spec_target_grad_formula (t tk : token_view) (delta : list R) :
  length (VectorizedToken.v_pred t.2) = length delta ->
  spec_target_grad t tk (Vec delta)
  = Ok (Vec (map (Rmult (err_with (VectorizedToken.v_pred t.2) t tk delta)) delta)).
Proof.
  intros Hshape. unfold spec_target_grad. now rewrite spec_err_vectors.
Qed.

(** C4 (what the code does). For the true target with [v_pred = [1, 0]] and
    [delta = [0, 2]], [err(t) * delta] is [[0, 1]] and [_get_target_grad]
    returns [1 - sigmoid(0) * delta = [1, 0]].  With [delta = [0, 0]], for
    which [alpha * err(t) * delta] is zero, the update at learning rate 1/20
    moves [v_pred] from [[1, 0]] to [[19/20, -1/20]]. *)
Theorem target_gradient_precedence :
  _get_target_grad ex_mov ex_mov (Vec [0; 2]%R) = Ok (Vec [1; 0]%R)
  /\ spec_target_grad ex_mov ex_mov (Vec [0; 2]%R) = Ok (Vec [0; 1]%R)
  /\ let run := update_targets ["mov"] "mov" (Vec [0; 0]%R) (ex_state_at 0) in
     run.2 = Ok tt
     /\ alpha (context (ex_state_at 0)) = (1 / 20)%R
     /\ v_pred_of (ex_state_at 0) "mov" = Some [1; 0]%R
     /\ v_pred_of run.1 "mov" = Some [19 / 20; - 1 / 20]%R.
Proof.
  split; [|split].
  - unfold _get_target_grad. rewrite dot_sigmoid_vectors by reflexivity.
    cbn. real_components.
  - unfold spec_target_grad. rewrite spec_err_vectors by reflexivity.
    cbn. real_components.
  - intros run. split; [vm_compute; reflexivity|].
    split; [reflexivity|]. split; [reflexivity|].
    vm_compute. repeat f_equal; lra.
Qed.

(** The learning rate [train] works with from its first token on. *)
Example first_recomputed_rate :
  alpha (context (update_learning_rate (ex_state_at 0)).1) = 1%R.
Proof.
  rewrite (update_learning_rate_recomputes (ex_state_at 0)
             {| Counter._name := TOKENS_HANDLED_COUNTER; Counter._val := 0 |});
    [|reflexivity|discriminate|reflexivity|discriminate].
  cbn [fst context alpha _alpha on_context set_alpha].
  unfold spec_learning_rate.
  cbn [iteration initial_alpha ex_params Counter.val Counter._val params repo
       num_of_tokens ex_repo ex_state_at context add_counter snd _params _repo
       TrainingContext_init].
  change (1 * 7 + 1)%Z with 8%Z.
  rewrite Rmax_left; cbn [pow]; lra.
Qed.

(** C5 (what the code does). With current learning rate 1, initial
    learning rate 1/20 and accumulated gradient [[1, 2]], on the window of
    [push eax; mov eax, ebx; pop ebx]: the previous opcode vector goes from
    [[0]] to [[-1]] (the opcode portion times the current rate), the next
    opcode vector from [[0]] to [[-1/20]] (the opcode portion times the
    initial rate); the operand vectors of both instructions go from [[0]] to
    [[-2]]. *)
Theorem next_opcode_scaled_by_initial_alpha :
  let st := on_context (set_alpha 1) (ex_state_at 0) in
  let run := apply_instruction_gradient ex_wnd [1; 2]%R st in
  alpha (context st) = 1%R
  /\ initial_alpha (params (context st)) = (1 / 20)%R
  /\ run.2 = Ok tt
  /\ v_of st "push" = Some [0%R] /\ v_of run.1 "push" = Some [-1]%R
  /\ v_of st "pop" = Some [0%R] /\ v_of run.1 "pop" = Some [- 1 / 20]%R
  /\ v_of run.1 "eax" = Some [-2]%R /\ v_of run.1 "ebx" = Some [-2]%R.
Proof.
  intros st run.
  split; [reflexivity|]. split; [reflexivity|].
  split; [vm_compute; reflexivity|].
  split; [reflexivity|]. split; [vm_compute; repeat f_equal; lra|].
  split; [reflexivity|]. split; [vm_compute; repeat f_equal; lra|].
  split; vm_compute; repeat f_equal; lra.
Qed.

(** ** [_sigmoid] at the end of the range *)

Lemma exp_two_pow (n : nat) : (IZR (2 ^ Z.of_nat n) <= exp (INR n))%R.
Proof.
  induction n as [|n IH].
  - change (INR 0) with 0%R. change (2 ^ Z.of_nat 0)%Z with 1%Z. rewrite exp_0. lra.
  - rewrite S_INR, exp_plus, Nat2Z.inj_succ, Z.pow_succ_r by lia.
    rewrite mult_IZR.
    pose proof (exp_ineq1 1 ltac:(lra)) as H1.
    pose proof (exp_pos (INR n)) as Hpos.
    assert (0 <= IZR (2 ^ Z.of_nat n))%R by (apply IZR_le; lia).
    nra.
Qed.

Lemma huge_above_one : (1 < Float64.huge)%R.
Proof. unfold Float64.huge. apply IZR_lt. reflexivity. Qed.

Lemma exp_2000_overflows : (Float64.huge <= exp 2000)%R.
Proof.
  replace 2000%R with (INR 2000) by (rewrite INR_IZR_INZ; reflexivity).
  eapply Rle_trans; [|apply exp_two_pow].
  unfold Float64.huge. apply IZR_le. apply Z.pow_le_mono_r; lia.
Qed.

(** When the exponential overflows the quotient is inf/inf. *)
Lemma sigmoid_overflow (x : R) :
  (Float64.huge <= exp x)%R -> Float64._sigmoid (Float64.Finite x) = Float64.NaN.
Proof.
  intros Hx. unfold Float64._sigmoid, Float64.np_exp, Float64.range.
  destruct (Rle_dec Float64.huge (exp x)); [reflexivity|contradiction].
Qed.

Lemma sigmoid_in_range (x : R) :
  (exp x < Float64.huge)%R ->
  exists y, Float64._sigmoid (Float64.Finite x) = Float64.Finite y /\ (0 <= y <= 1)%R.
Proof.
  intros Hx. pose proof (exp_pos x) as Hpos. pose proof huge_above_one as Hhuge.
  unfold Float64._sigmoid, Float64.np_exp, Float64.range.
  destruct (Rle_dec Float64.huge (exp x)) as [Hle|_]; [lra|].
  destruct (Rle_dec (exp x) (- Float64.huge)) as [Hle|_]; [lra|].
  cbn [Float64.add]. unfold Float64.range.
  destruct (Rle_dec Float64.huge (1 + exp x)) as [_|Hsum].
  - exists 0%R. split; [reflexivity|lra].
  - destruct (Rle_dec (1 + exp x) (- Float64.huge)) as [Hle|_]; [lra|].
    cbn [Float64.div].
    destruct (Req_dec_T (1 + exp x) 0) as [Hz|_]; [lra|].
    assert (Hq : (0 < exp x / (1 + exp x) < 1)%R).
    { assert (Hinv : (0 < / (1 + exp x))%R) by (apply Rinv_0_lt_compat; lra).
      assert (Heq : (exp x / (1 + exp x) = 1 - / (1 + exp x))%R) by (field; lra).
      split; [|lra].
      unfold Rdiv. now apply Rmult_lt_0_compat. }
    unfold Float64.range.
    destruct (Rle_dec Float64.huge (exp x / (1 + exp x))) as [Hle|_]; [lra|].
    destruct (Rle_dec (exp x / (1 + exp x)) (- Float64.huge)) as [Hle|_]; [lra|].
    eexists. split; [reflexivity|lra].
Qed.

(** On the reals the same quotient lies strictly between 0 and 1. *)
Lemma sigma_unit_interval (x : R) : (0 < sigma x < 1)%R.
Proof.
  pose proof (exp_pos x) as Hpos. unfold sigma.
  assert (Hinv : (0 < / (1 + exp x))%R) by (apply Rinv_0_lt_compat; lra).
  assert (Heq : (exp x / (1 + exp x) = 1 - / (1 + exp x))%R) by (field; lra).
  split; [|lra]. unfold Rdiv. now apply Rmult_lt_0_compat.
Qed.

(** C9 (amended). [_sigmoid] computes [e / (1 + e)] with [e = exp(x)] and
    neither clamps [x] nor rearranges the quotient.  For every [x] whose
    exponential stays inside the range of binary64 the result is a finite
    value of [[0, 1]]; for every [x] whose exponential overflows the result
    is nan, and no exception is raised. *)
Theorem sigmoid_unclamped (x : R) :
  ((exp x < Float64.huge)%R ->
   exists y, Float64._sigmoid (Float64.Finite x) = Float64.Finite y /\ (0 <= y <= 1)%R)
  /\ ((Float64.huge <= exp x)%R ->
      Float64._sigmoid (Float64.Finite x) = Float64.NaN).
Proof. split; [apply sigmoid_in_range|apply sigmoid_overflow]. Qed.

Lemma sigmoid_unclamped_witness :
  (exists y, Float64._sigmoid (Float64.Finite 0) = Float64.Finite y /\ (0 <= y <= 1)%R)
  /\ Float64._sigmoid (Float64.Finite 2000) = Float64.NaN.
Proof.
  split.
  - apply (proj1 (sigmoid_unclamped 0)). rewrite exp_0. exact huge_above_one.
  - apply (proj2 (sigmoid_unclamped 2000)). exact exp_2000_overflows.
Defined.

(** C9 as stated fails at the input 2000: the result is not a finite value
    of the unit interval. *)
Lemma sigmoid_counterexample :
  Float64._sigmoid (Float64.Finite 2000) = Float64.NaN
  /\ ~ Float64.in_unit_interval (Float64._sigmoid (Float64.Finite 2000)).
Proof.
  pose proof (sigmoid_overflow 2000 exp_2000_overflows) as H.
  split; [exact H|]. rewrite H. cbn. tauto.
Qed.

(** * Further properties *)

(** ** Parameters *)

Lemma kwargs_int_other (kwargs : gmap string kwarg) (key key' : string) (value : kwarg)
    (default : Z) :
  key <> key' -> kwargs_int (<[key := value]> kwargs) key' default = kwargs_int kwargs key' default.
Proof. intros Hne. unfold kwargs_int. now rewrite lookup_insert_ne. Qed.

Lemma kwargs_float_other (kwargs : gmap string kwarg) (key key' : string) (value : kwarg)
    (default : R) :
  key <> key' ->
  kwargs_float (<[key := value]> kwargs) key' default = kwargs_float kwargs key' default.
Proof. intros Hne. unfold kwargs_float. now rewrite lookup_insert_ne. Qed.

(** X1. The constructor reads the six keywords [d], [alpha],
    [alpha_update_interval], [rnd_walks], [neg_samples] and [iteration] and
    no other: a keyword argument of any other name, the field names
    [initial_alpha] and [num_of_rnd_walks] among them, changes nothing. *)
Theorem params_ignore_other_keywords
    (kwargs : gmap string kwarg) (key : string) (value : kwarg) :
  key ∉ recognised_keywords ->
  Asm2VecParams_init (<[key := value]> kwargs) = Asm2VecParams_init kwargs.
Proof.
  unfold recognised_keywords. rewrite !not_elem_of_cons.
  intros (Hd & Ha & Hu & Hr & Hn & Hi & _).
  unfold Asm2VecParams_init.
  now rewrite !kwargs_int_other, kwargs_float_other by assumption.
Qed.

Lemma params_ignore_other_keywords_witness :
  Asm2VecParams_init (<["initial_alpha" := KFloat 1]> ∅) = Asm2VecParams_init ∅.
Proof.
  apply (params_ignore_other_keywords ∅ "initial_alpha" (KFloat 1)).
  unfold recognised_keywords. rewrite !not_elem_of_cons.
  repeat split; try discriminate. apply not_elem_of_nil.
Defined.

(** X2. Without keywords the parameters are the defaults (200, 0.05, 10000,
    3, 25, 1).  The keyword [alpha] sets the field [initial_alpha] and the
    keyword [rnd_walks] the field [num_of_rnd_walks]; each leaves the other
    five fields as they are without it. *)
Theorem params_keywords (kwargs : gmap string kwarg) (p : Asm2VecParams) :
  Asm2VecParams_init kwargs = Some p ->
  Asm2VecParams_init ∅ = Some Asm2VecParams_default
  /\ (forall a,
        Asm2VecParams_init (<["alpha" := KFloat a]> kwargs)
        = Some {| d := d p; initial_alpha := a;
                  alpha_update_interval := alpha_update_interval p;
                  num_of_rnd_walks := num_of_rnd_walks p;
                  neg_samples := neg_samples p; iteration := iteration p |})
  /\ (forall w,
        Asm2VecParams_init (<["rnd_walks" := KInt w]> kwargs)
        = Some {| d := d p; initial_alpha := initial_alpha p;
                  alpha_update_interval := alpha_update_interval p;
                  num_of_rnd_walks := w;
                  neg_samples := neg_samples p; iteration := iteration p |}).
Proof.
  intros Hp. split; [reflexivity|].
  unfold Asm2VecParams_init in Hp.
  destruct (kwargs_int kwargs "d" 200) as [vd|] eqn:Hd; [|discriminate].
  destruct (kwargs_float kwargs "alpha" (5 / 100)) as [va|] eqn:Ha; [|discriminate].
  destruct (kwargs_int kwargs "alpha_update_interval" 10000) as [vu|] eqn:Hu;
    [|discriminate].
  destruct (kwargs_int kwargs "rnd_walks" 3) as [vr|] eqn:Hr; [|discriminate].
  destruct (kwargs_int kwargs "neg_samples" 25) as [vn|] eqn:Hn; [|discriminate].
  destruct (kwargs_int kwargs "iteration" 1) as [vi|] eqn:Hi; [|discriminate].
  cbn in Hp. injection Hp as <-.
  split.
  - intros a. unfold Asm2VecParams_init.
    rewrite !kwargs_int_other by discriminate. rewrite Hd, Hu, Hr, Hn, Hi.
    unfold kwargs_float. rewrite lookup_insert_eq. reflexivity.
  - intros w. unfold Asm2VecParams_init.
    rewrite (kwargs_int_other _ _ "d"), (kwargs_int_other _ _ "alpha_update_interval"),
      (kwargs_int_other _ _ "neg_samples"), (kwargs_int_other _ _ "iteration"),
      kwargs_float_other by discriminate.
    rewrite Hd, Ha, Hu, Hn, Hi.
    unfold kwargs_int at 1. rewrite lookup_insert_eq. reflexivity.
Qed.

Lemma params_keywords_witness :
  Asm2VecParams_init ∅ = Some Asm2VecParams_default
  /\ (forall a,
        Asm2VecParams_init (<["alpha" := KFloat a]> (<["d" := KInt 50]> ∅))
        = Some {| d := 50; initial_alpha := a; alpha_update_interval := 10000;
                  num_of_rnd_walks := 3; neg_samples := 25; iteration := 1 |})
  /\ (forall w,
        Asm2VecParams_init (<["rnd_walks" := KInt w]> (<["d" := KInt 50]> ∅))
        = Some {| d := 50; initial_alpha := 5 / 100; alpha_update_interval := 10000;
                  num_of_rnd_walks := w; neg_samples := 25; iteration := 1 |}).
Proof.
  apply (params_keywords (<["d" := KInt 50]> ∅)
           {| d := 50; initial_alpha := 5 / 100; alpha_update_interval := 10000;
              num_of_rnd_walks := 3; neg_samples := 25; iteration := 1 |}).
  reflexivity.
Defined.

(** ** Counters *)

Lemma inc_times_val (k : nat) (c : Counter.t) :
  Counter.val (inc_times k c) = (Counter.val c + Z.of_nat k)%Z
  /\ Counter._name (inc_times k c) = Counter._name c.
Proof.
  induction k as [|k [IHv IHn]]; [cbn; split; [lia|reflexivity]|].
  unfold inc_times, Counter.val in *. rewrite Nat.iter_succ.
  set (c' := Nat.iter k _ c) in *.
  change (Counter._val (Counter.inc c').2) with (Counter._val c' + 1)%Z.
  change (Counter._name (Counter.inc c').2) with (Counter._name c').
  rewrite IHv, IHn. split; [lia|reflexivity].
Qed.

(** X3. A counter incremented [k] times holds its initial value plus [k],
    and the next [inc] returns one more; [reset] returns the value held and
    leaves 0; the name does not change. *)
Theorem counter_inc_reset (c : Counter.t) (k : nat) :
  Counter.val (inc_times k c) = (Counter.val c + Z.of_nat k)%Z
  /\ (Counter.inc (inc_times k c)).1 = (Counter.val c + Z.of_nat k + 1)%Z
  /\ (Counter.reset (inc_times k c)).1 = (Counter.val c + Z.of_nat k)%Z
  /\ Counter.val (Counter.reset (inc_times k c)).2 = 0%Z
  /\ Counter._name (Counter.reset (inc_times k c)).2 = Counter._name c.
Proof.
  destruct (inc_times_val k c) as [Hv Hn].
  unfold Counter.val in *. set (c' := inc_times k c) in *.
  change (Counter.inc c').1 with (Counter._val c' + 1)%Z.
  change (Counter.reset c').1 with (Counter._val c').
  change (Counter._val (Counter.reset c').2) with 0%Z.
  change (Counter._name (Counter.reset c').2) with (Counter._name c').
  rewrite Hv, Hn. repeat split.
Qed.

(** X4. A fresh context has no counter under any name.  After
    [add_counter(name, initial)], [get_counter(name)] is a counter of that
    name holding [initial], and [get_counter] of every other name answers as
    before; registering the name again replaces the counter, whatever it
    held. *)
Theorem counter_registry {Sampler : Type} (NegativeSampler : list (string * Z) -> Sampler)
    (repository : FunctionRepository) (params : Asm2VecParams) (mode : bool)
    (ctx : TrainingContext Sampler) (name name' : string) (initial initial' : Z) :
  get_counter (TrainingContext_init NegativeSampler repository params mode) name = None
  /\ get_counter (add_counter name initial ctx).2 name'
     = (if decide (name = name')
        then Some {| Counter._name := name; Counter._val := initial |}
        else get_counter ctx name')
  /\ (add_counter name initial ctx).1
     = {| Counter._name := name; Counter._val := initial |}
  /\ (add_counter name initial' (add_counter name initial ctx).2).2
     = (add_counter name initial' ctx).2.
Proof.
  split; [apply lookup_empty|]. split; [|split; [reflexivity|]].
  - unfold get_counter, add_counter. cbn. apply lookup_insert.
  - unfold add_counter. cbn. now rewrite insert_insert_eq.
Qed.

(** ** The window, one [__next__] at a time *)

Lemma py_index_ok {A} (l : list A) (k : Z) (x : A) :
  (0 <= k)%Z -> py_index l k = Ok x -> l !! Z.to_nat k = Some x.
Proof.
  intros Hk. unfold py_index.
  destruct (Z.ltb_spec k 0) as [Hneg|_]; [lia|].
  destruct (_ && _); [|discriminate].
  destruct (l !! Z.to_nat k); [|discriminate]. now intros [= ->].
Qed.

Lemma token_lookup_ok (vocabulary : gmap string Token) (name name' : string) :
  token_lookup vocabulary name = Ok name' -> name' = name /\ is_Some (vocabulary !! name).
Proof.
  unfold token_lookup. destruct (vocabulary !! name) as [tok|] eqn:Htok; [|discriminate].
  intros [= <-]. split; [reflexivity|]. now exists tok.
Qed.

Lemma rmap_token_lookup_ok (vocabulary : gmap string Token) (names names' : list string) :
  rmap (token_lookup vocabulary) names = Ok names' ->
  names' = names /\ Forall (fun a => is_Some (vocabulary !! a)) names.
Proof.
  revert names'. induction names as [|a names IH]; intros names'; cbn.
  - intros [= <-]. now split.
  - destruct (token_lookup vocabulary a) as [a'|] eqn:Ha; [|discriminate]. cbn.
    destruct (rmap (token_lookup vocabulary) names) as [rest|]; [|discriminate]. cbn.
    intros [= <-]. apply token_lookup_ok in Ha as [-> Ha].
    destruct (IH rest eq_refl) as [-> Hrest]. split; [reflexivity|]. now constructor.
Qed.

Lemma token_lookup_outcome (vocabulary : gmap string Token) (name : string) :
  (is_Some (vocabulary !! name) /\ token_lookup vocabulary name = Ok name)
  \/ (~ is_Some (vocabulary !! name) /\ token_lookup vocabulary name = Raise KeyError).
Proof.
  unfold token_lookup. destruct (vocabulary !! name) as [tok|] eqn:Htok.
  - left. split; [now exists tok|reflexivity].
  - right. split; [|reflexivity]. intros [tok Htok']. congruence.
Qed.

(** A lookup of names returns them or raises [KeyError]. *)
Lemma rmap_token_lookup_outcome (vocabulary : gmap string Token) (names : list string) :
  (Forall (fun a => is_Some (vocabulary !! a)) names
   /\ rmap (token_lookup vocabulary) names = Ok names)
  \/ (~ Forall (fun a => is_Some (vocabulary !! a)) names
      /\ rmap (token_lookup vocabulary) names = Raise KeyError).
Proof.
  induction names as [|a names IH]; [left; now split|].
  cbn [rmap].
  destruct (token_lookup_outcome vocabulary a) as [[Ha ->]|[Ha ->]]; cbn [rbind].
  - destruct IH as [[Hall ->]|[Hnot ->]]; cbn [rbind].
    + left. split; [|reflexivity]. now constructor.
    + right. split; [|reflexivity]. intros Hall. apply Hnot. now inversion Hall.
  - right. split; [|reflexivity]. intros Hall. apply Ha. now inversion Hall.
Qed.

(** What a successful [__next__] read and built. *)
Lemma next_ok_view (vocabulary : gmap string Token) (wnd wnd' : SequenceWindow)
    (vw : ViewType) :
  (1 <= _i wnd)%Z ->
  SequenceWindow_next wnd vocabulary = Ok (vw, wnd') ->
  exists p c n,
    _seq wnd !! Z.to_nat (_i wnd - 1) = Some p
    /\ _seq wnd !! Z.to_nat (_i wnd) = Some c
    /\ _seq wnd !! Z.to_nat (_i wnd + 1) = Some n
    /\ resolvable vocabulary p /\ resolvable vocabulary c /\ resolvable vocabulary n
    /\ vw = view_of p c n
    /\ wnd' = {| _seq := _seq wnd; _i := (_i wnd + 1)%Z;
                 _ins := Some (p, c, n); _view := Some (view_of p c n) |}.
Proof.
  intros Hi. unfold SequenceWindow_next.
  destruct (_ >=? _)%Z; [discriminate|].
  destruct (py_index (_seq wnd) (_i wnd - 1)) as [p|] eqn:Hp; [|discriminate].
  destruct (py_index (_seq wnd) (_i wnd)) as [c|] eqn:Hc; [|discriminate].
  destruct (py_index (_seq wnd) (_i wnd + 1)) as [n|] eqn:Hn; [|discriminate].
  cbn [rbind].
  destruct (token_lookup vocabulary (op p)) as [po|] eqn:Hpo; [|discriminate].
  cbn [rbind].
  destruct (rmap (token_lookup vocabulary) (args p)) as [pa|] eqn:Hpa; [|discriminate].
  cbn [rbind].
  destruct (token_lookup vocabulary (op c)) as [co|] eqn:Hco; [|discriminate].
  cbn [rbind].
  destruct (rmap (token_lookup vocabulary) (args c)) as [ca|] eqn:Hca; [|discriminate].
  cbn [rbind].
  destruct (token_lookup vocabulary (op n)) as [no|] eqn:Hno; [|discriminate].
  cbn [rbind].
  destruct (rmap (token_lookup vocabulary) (args n)) as [na|] eqn:Hna; [|discriminate].
  cbn [rbind].
  intros [= <- <-].
  apply py_index_ok in Hp, Hc, Hn; try lia.
  apply token_lookup_ok in Hpo as [-> Hpo], Hco as [-> Hco], Hno as [-> Hno].
  apply rmap_token_lookup_ok in Hpa as [-> Hpa], Hca as [-> Hca], Hna as [-> Hna].
  exists p, c, n. unfold resolvable, view_of. repeat split; assumption.
Qed.

(** X5. Before the first [__next__] every accessor of a window raises
    [AttributeError].  After a [__next__] that returned at cursor [i >= 1],
    the three instruction accessors give [seq[i-1]], [seq[i]] and [seq[i+1]],
    the opcode and operand accessors give their names, the tuple returned
    holds the same six values, and the cursor is at [i + 1] over the same
    sequence. *)
Theorem window_accessors (vocabulary : gmap string Token) (sequence : InstructionSequence)
    (wnd wnd' : SequenceWindow) (vw : ViewType) :
  (1 <= _i wnd)%Z ->
  SequenceWindow_next wnd vocabulary = Ok (vw, wnd') ->
  (prev_ins (SequenceWindow_init sequence) = Raise AttributeError
   /\ curr_ins (SequenceWindow_init sequence) = Raise AttributeError
   /\ next_ins (SequenceWindow_init sequence) = Raise AttributeError
   /\ prev_ins_op (SequenceWindow_init sequence) = Raise AttributeError
   /\ prev_ins_args (SequenceWindow_init sequence) = Raise AttributeError
   /\ curr_ins_op (SequenceWindow_init sequence) = Raise AttributeError
   /\ curr_ins_args (SequenceWindow_init sequence) = Raise AttributeError
   /\ next_ins_op (SequenceWindow_init sequence) = Raise AttributeError
   /\ next_ins_args (SequenceWindow_init sequence) = Raise AttributeError)
  /\ exists p c n,
       _seq wnd !! Z.to_nat (_i wnd - 1) = Some p
       /\ _seq wnd !! Z.to_nat (_i wnd) = Some c
       /\ _seq wnd !! Z.to_nat (_i wnd + 1) = Some n
       /\ prev_ins wnd' = Ok p /\ curr_ins wnd' = Ok c /\ next_ins wnd' = Ok n
       /\ prev_ins_op wnd' = Ok (op p) /\ prev_ins_args wnd' = Ok (args p)
       /\ curr_ins_op wnd' = Ok (op c) /\ curr_ins_args wnd' = Ok (args c)
       /\ next_ins_op wnd' = Ok (op n) /\ next_ins_args wnd' = Ok (args n)
       /\ vw = view_of p c n
       /\ _i wnd' = (_i wnd + 1)%Z /\ _seq wnd' = _seq wnd.
Proof.
  intros Hi Hnext. split; [repeat split|].
  destruct (next_ok_view vocabulary wnd wnd' vw Hi Hnext)
    as (p & c & n & Hp & Hc & Hn & _ & _ & _ & -> & ->).
  exists p, c, n. repeat split; assumption.
Qed.

Lemma window_accessors_witness :
  (prev_ins (SequenceWindow_init ex_seq) = Raise AttributeError
   /\ curr_ins (SequenceWindow_init ex_seq) = Raise AttributeError
   /\ next_ins (SequenceWindow_init ex_seq) = Raise AttributeError
   /\ prev_ins_op (SequenceWindow_init ex_seq) = Raise AttributeError
   /\ prev_ins_args (SequenceWindow_init ex_seq) = Raise AttributeError
   /\ curr_ins_op (SequenceWindow_init ex_seq) = Raise AttributeError
   /\ curr_ins_args (SequenceWindow_init ex_seq) = Raise AttributeError
   /\ next_ins_op (SequenceWindow_init ex_seq) = Raise AttributeError
   /\ next_ins_args (SequenceWindow_init ex_seq) = Raise AttributeError)
  /\ exists p c n,
       _seq (SequenceWindow_init ex_seq) !! Z.to_nat (1 - 1) = Some p
       /\ _seq (SequenceWindow_init ex_seq) !! Z.to_nat 1 = Some c
       /\ _seq (SequenceWindow_init ex_seq) !! Z.to_nat (1 + 1) = Some n
       /\ prev_ins ex_wnd = Ok p /\ curr_ins ex_wnd = Ok c /\ next_ins ex_wnd = Ok n
       /\ prev_ins_op ex_wnd = Ok (op p) /\ prev_ins_args ex_wnd = Ok (args p)
       /\ curr_ins_op ex_wnd = Ok (op c) /\ curr_ins_args ex_wnd = Ok (args c)
       /\ next_ins_op ex_wnd = Ok (op n) /\ next_ins_args ex_wnd = Ok (args n)
       /\ ex_view = view_of p c n
       /\ _i ex_wnd = (1 + 1)%Z /\ _seq ex_wnd = ex_seq.
Proof.
  apply (window_accessors ex_vocab ex_seq (SequenceWindow_init ex_seq) ex_wnd ex_view).
  - cbn. lia.
  - reflexivity.
Defined.

(** With the cursor inside the sequence, [__next__] returns the tuple of
    the three instructions or raises [KeyError], as the vocabulary holds all
    their names or not. *)
Lemma next_inside_outcome (vocabulary : gmap string Token) (wnd : SequenceWindow)
    (i : nat) (p c n : Instruction) :
  _i wnd = Z.of_nat i -> (1 <= i)%nat ->
  _seq wnd !! (i - 1)%nat = Some p -> _seq wnd !! i = Some c ->
  _seq wnd !! (i + 1)%nat = Some n ->
  (resolvable vocabulary p /\ resolvable vocabulary c /\ resolvable vocabulary n
   /\ SequenceWindow_next wnd vocabulary
      = Ok (view_of p c n,
            {| _seq := _seq wnd; _i := (_i wnd + 1)%Z;
               _ins := Some (p, c, n); _view := Some (view_of p c n) |}))
  \/ (~ (resolvable vocabulary p /\ resolvable vocabulary c /\ resolvable vocabulary n)
      /\ SequenceWindow_next wnd vocabulary = Raise KeyError).
Proof.
  intros Hi H1 Hp Hc Hn.
  pose proof (lookup_lt_Some _ _ _ Hn) as Hlen.
  unfold SequenceWindow_next.
  destruct (Z.geb_spec (_i wnd) (Z.of_nat (length (_seq wnd)) - 1)) as [Hge|_]; [lia|].
  replace (_i wnd - 1)%Z with (Z.of_nat (i - 1)) by lia.
  replace (py_index (_seq wnd) (_i wnd + 1)) with (py_index (_seq wnd) (Z.of_nat (i + 1)))
    by (f_equal; lia).
  replace (py_index (_seq wnd) (_i wnd)) with (py_index (_seq wnd) (Z.of_nat i))
    by (f_equal; lia).
  rewrite (py_index_nat _ _ _ Hp), (py_index_nat _ _ _ Hc), (py_index_nat _ _ _ Hn).
  cbn [rbind]. unfold resolvable.
  destruct (token_lookup_outcome vocabulary (op p)) as [[Hpo ->]|[Hno ->]];
    [|right; split; [tauto|reflexivity]].
  cbn [rbind].
  destruct (rmap_token_lookup_outcome vocabulary (args p)) as [[Hpa ->]|[Hno ->]];
    [|right; split; [tauto|reflexivity]].
  cbn [rbind].
  destruct (token_lookup_outcome vocabulary (op c)) as [[Hco ->]|[Hno ->]];
    [|right; split; [tauto|reflexivity]].
  cbn [rbind].
  destruct (rmap_token_lookup_outcome vocabulary (args c)) as [[Hca ->]|[Hno ->]];
    [|right; split; [tauto|reflexivity]].
  cbn [rbind].
  destruct (token_lookup_outcome vocabulary (op n)) as [[Hno ->]|[Hno ->]];
    [|right; split; [tauto|reflexivity]].
  cbn [rbind].
  destruct (rmap_token_lookup_outcome vocabulary (args n)) as [[Hna ->]|[Hnone ->]];
    [|right; split; [tauto|reflexivity]].
  cbn [rbind]. left. repeat split; assumption.
Qed.

(** X6. With the cursor inside the sequence, [__next__] raises [KeyError]
    as soon as one opcode or operand name of the previous, current or next
    instruction is missing from the vocabulary. *)
Theorem window_missing_token (vocabulary : gmap string Token) (wnd : SequenceWindow)
    (i : nat) (p c n : Instruction) :
  _i wnd = Z.of_nat i -> (1 <= i)%nat ->
  _seq wnd !! (i - 1)%nat = Some p -> _seq wnd !! i = Some c ->
  _seq wnd !! (i + 1)%nat = Some n ->
  ~ (resolvable vocabulary p /\ resolvable vocabulary c /\ resolvable vocabulary n) ->
  SequenceWindow_next wnd vocabulary = Raise KeyError.
Proof.
  intros Hi H1 Hp Hc Hn Hmissing.
  destruct (next_inside_outcome vocabulary wnd i p c n Hi H1 Hp Hc Hn)
    as [(Hrp & Hrc & Hrn & _)|[_ Hraise]]; [|exact Hraise].
  exfalso. apply Hmissing. exact (conj Hrp (conj Hrc Hrn)).
Qed.

Lemma window_missing_token_witness :
  SequenceWindow_next (SequenceWindow_init ex_seq) (delete "ebx" ex_vocab) = Raise KeyError.
Proof.
  apply (window_missing_token (delete "ebx" ex_vocab) (SequenceWindow_init ex_seq) 1
           {| op := "push"; args := ["eax"] |}
           {| op := "mov"; args := ["eax"; "ebx"] |}
           {| op := "pop"; args := ["ebx"] |}); try reflexivity; try lia.
  intros (_ & _ & _ & Hargs). cbn in Hargs.
  apply Forall_cons in Hargs as [[tok Htok] _].
  vm_compute in Htok. discriminate.
Defined.

(** ** The windows of a sequence *)

Lemma drain_views (vocabulary : gmap string Token) (k : nat) :
  forall (fuel i : nat) (wnd : SequenceWindow),
    _i wnd = Z.of_nat i -> (1 <= i)%nat -> (i + k + 1 = length (_seq wnd))%nat ->
    (k < fuel)%nat -> Forall (resolvable vocabulary) (_seq wnd) ->
    exists views,
      drain fuel wnd vocabulary = Ok views
      /\ forall j p c n,
           _seq wnd !! (i + j - 1)%nat = Some p -> _seq wnd !! (i + j)%nat = Some c ->
           _seq wnd !! (i + j + 1)%nat = Some n ->
           views !! j = Some (Z.of_nat (i + j), view_of p c n).
Proof.
  induction k as [|k IH]; intros fuel i wnd Hi H1 Hlen Hfuel Hres.
  - destruct fuel as [|fuel]; [lia|]. cbn.
    rewrite next_stops by lia. exists []. split; [reflexivity|].
    intros j p c n _ _ Hn. apply lookup_lt_Some in Hn. lia.
  - destruct fuel as [|fuel]; [lia|]. cbn [drain].
    destruct (next_yields vocabulary wnd i Hi H1 ltac:(lia) Hres)
      as (vw & wnd' & Hnext & Hseq & Hi').
    destruct (next_ok_view vocabulary wnd wnd' vw ltac:(lia) Hnext)
      as (p0 & c0 & n0 & Hp0 & Hc0 & Hn0 & _ & _ & _ & Hvw & _).
    rewrite Hnext.
    destruct (IH fuel (S i) wnd' Hi' ltac:(lia) ltac:(rewrite Hseq; lia) ltac:(lia)
                ltac:(now rewrite Hseq)) as (views & -> & Hviews).
    cbn. eexists. split; [reflexivity|].
    intros [|j] p c n Hp Hc Hn.
    + cbn. rewrite Hvw. rewrite Hi in Hp0, Hc0, Hn0 |- *.
      replace (Z.to_nat (Z.of_nat i - 1)) with (i + 0 - 1)%nat in Hp0 by lia.
      replace (Z.to_nat (Z.of_nat i)) with (i + 0)%nat in Hc0 by lia.
      replace (Z.to_nat (Z.of_nat i + 1)) with (i + 0 + 1)%nat in Hn0 by lia.
      rewrite Hp in Hp0. rewrite Hc in Hc0. rewrite Hn in Hn0.
      injection Hp0 as <-. injection Hc0 as <-. injection Hn0 as <-.
      now rewrite Nat.add_0_r.
    + cbn. replace (i + S j)%nat with (S i + j)%nat by lia.
      apply Hviews; rewrite Hseq.
      * now replace (S i + j - 1)%nat with (i + S j - 1)%nat by lia.
      * now replace (S i + j)%nat with (i + S j)%nat by lia.
      * now replace (S i + j + 1)%nat with (i + S j + 1)%nat by lia.
Qed.

(** X7. Over a vocabulary that holds every name of the sequence, the
    windows of a sequence of [n] instructions are [n - 2] tuples (none when
    [n < 3]), and the tuple number [k] (from 0) is taken at cursor [k + 1]
    and holds the opcode and operand names of the instructions [k], [k + 1]
    and [k + 2] as previous, current and next. *)
Theorem windows_contents (sequence : InstructionSequence) (vocabulary : gmap string Token) :
  Forall (resolvable vocabulary) sequence ->
  exists views,
    windows sequence vocabulary = Ok views
    /\ length views = (length sequence - 2)%nat
    /\ forall k p c n,
         sequence !! k = Some p -> sequence !! (k + 1)%nat = Some c ->
         sequence !! (k + 2)%nat = Some n ->
         views !! k = Some (Z.of_nat (k + 1), view_of p c n).
Proof.
  intros Hres. destruct (Nat.lt_ge_cases (length sequence) 3) as [Hshort|Hlong].
  - exists []. split; [|split].
    + unfold windows. cbn [drain]. rewrite next_stops; [reflexivity|]. cbn. lia.
    + cbn. lia.
    + intros k p c n _ _ Hn. apply lookup_lt_Some in Hn. lia.
  - destruct (drain_views vocabulary (length sequence - 2) (S (length sequence)) 1
                (SequenceWindow_init sequence)) as (views & Hviews & Hcontents);
      [reflexivity|lia|cbn; lia|lia|exact Hres|].
    destruct (drain_positions vocabulary (length sequence - 2) (S (length sequence)) 1
                (SequenceWindow_init sequence)) as (views' & Hviews' & Hpos);
      [reflexivity|lia|cbn; lia|lia|exact Hres|].
    exists views. split; [exact Hviews|]. split.
    + unfold windows in *. rewrite Hviews in Hviews'. injection Hviews' as <-.
      rewrite <- (length_map fst views), Hpos, length_map. apply length_seq.
    + intros k p c n Hp Hc Hn.
      replace (k + 1)%nat with (1 + k)%nat by lia.
      apply Hcontents; cbn [_seq SequenceWindow_init].
      * now replace (1 + k - 1)%nat with k by lia.
      * now replace (1 + k)%nat with (k + 1)%nat by lia.
      * now replace (1 + k + 1)%nat with (k + 2)%nat by lia.
Qed.

Lemma windows_contents_witness :
  exists views,
    windows ex_seq ex_vocab = Ok views
    /\ length views = (length ex_seq - 2)%nat
    /\ forall k p c n,
         ex_seq !! k = Some p -> ex_seq !! (k + 1)%nat = Some c ->
         ex_seq !! (k + 2)%nat = Some n ->
         views !! k = Some (Z.of_nat (k + 1), view_of p c n).
Proof. apply (windows_contents ex_seq ex_vocab). exact ex_seq_resolvable. Defined.

(** Inside the sequence the only exception of [__next__] is [KeyError]:
    the three indices are in range. *)
Lemma next_inside_key_error (vocabulary : gmap string Token) (wnd : SequenceWindow)
    (e : exn) :
  (1 <= _i wnd < Z.of_nat (length (_seq wnd)) - 1)%Z ->
  SequenceWindow_next wnd vocabulary = Raise e -> e = KeyError.
Proof.
  intros Hi Hnext.
  destruct (lookup_lt_is_Some_2 (_seq wnd) (Z.to_nat (_i wnd) - 1)) as [p Hp]; [lia|].
  destruct (lookup_lt_is_Some_2 (_seq wnd) (Z.to_nat (_i wnd))) as [c Hc]; [lia|].
  destruct (lookup_lt_is_Some_2 (_seq wnd) (Z.to_nat (_i wnd) + 1)) as [n Hn]; [lia|].
  destruct (next_inside_outcome vocabulary wnd (Z.to_nat (_i wnd)) p c n
              ltac:(lia) ltac:(lia) Hp Hc Hn) as [(_ & _ & _ & Hok)|[_ Hraise]];
    congruence.
Qed.

Lemma drain_key_error (vocabulary : gmap string Token) (fuel : nat) :
  forall (wnd : SequenceWindow) (e : exn),
    (1 <= _i wnd)%Z -> (0 < fuel)%nat ->
    (Z.of_nat (length (_seq wnd)) - 1 - _i wnd < Z.of_nat fuel)%Z ->
    drain fuel wnd vocabulary = Raise e -> e = KeyError.
Proof.
  induction fuel as [|fuel IH]; intros wnd e Hi Hpos Hfuel; [lia|].
  cbn [drain].
  destruct (SequenceWindow_next wnd vocabulary) as [[vw wnd']|e'] eqn:Hnext.
  - apply next_advances in Hnext as (Hlt & Hseq & Hi').
    specialize (IH wnd' e ltac:(lia) ltac:(lia) ltac:(rewrite Hseq, Hi'; lia)).
    destruct (drain fuel wnd' vocabulary) as [rest|e'']; cbn; [discriminate|].
    intros [= <-]. now apply IH.
  - destruct (Z.lt_ge_cases (_i wnd) (Z.of_nat (length (_seq wnd)) - 1)) as [Hin|Hout].
    + rewrite (next_inside_key_error vocabulary wnd e' ltac:(lia) Hnext).
      now intros [= <-].
    + rewrite next_stops in Hnext by lia. injection Hnext as <-. discriminate.
Qed.

(** X8. Draining a fresh window returns its tuples or raises [KeyError]:
    the cursor guard keeps [seq[i-1]], [seq[i]] and [seq[i+1]] inside the
    sequence, so no [IndexError] arises, whatever the sequence and the
    vocabulary. *)
Theorem windows_raise_only_key_error
    (sequence : InstructionSequence) (vocabulary : gmap string Token) :
  (exists views, windows sequence vocabulary = Ok views)
  \/ windows sequence vocabulary = Raise KeyError.
Proof.
  destruct (windows sequence vocabulary) as [views|e] eqn:Hw; [left; now exists views|].
  right. f_equal. unfold windows in Hw.
  apply (drain_key_error vocabulary (S (length sequence)) (SequenceWindow_init sequence) e);
    [cbn; lia|lia|cbn; lia|exact Hw].
Qed.

(** ** The outcome of [train] and [estimate] *)

Section Outcome.

Context {Sampler : Type}.
Variable NegativeSampler : list (string * Z) -> Sampler.
Variable sample : Sampler -> Z -> list string * Sampler.

Lemma set_funcs_same (ctx : TrainingContext Sampler) :
  set_funcs (funcs (repo ctx)) ctx = ctx.
Proof. destruct ctx as [[voc fs n] p a s e c]. reflexivity. Qed.

(** The body of the loop over the functions writes nothing: what it hands
    back is the context it was given. *)
Lemma train_function_context (i : nat) (f : VectorizedFunction.t)
    (ctx : TrainingContext Sampler) :
  funcs (repo ctx) !! i = Some f -> (train_function sample i f ctx).1 = ctx.
Proof.
  intros Hf. unfold train_function.
  pose proof (preserves_for_each (fun st => st) (VectorizedFunction.sequences f)
                (_train_sequence sample) (train_sequence_pure sample)
                {| context := ctx; func := f |}) as Hpure.
  destruct (for_each _ _ _) as [st r]. cbn in Hpure. subst st. cbn.
  rewrite list_insert_id by exact Hf. apply set_funcs_same.
Qed.

Lemma train_function_short (i : nat) (f : VectorizedFunction.t)
    (ctx : TrainingContext Sampler) :
  funcs (repo ctx) !! i = Some f ->
  Forall (fun seq => (length seq < 3)%nat) (VectorizedFunction.sequences f) ->
  train_function sample i f ctx = (ctx, Ok tt).
Proof.
  intros Hf Hshort. pose proof (train_function_context i f ctx Hf) as Hctx.
  unfold train_function in *. rewrite train_sequences_short in * by exact Hshort.
  cbn in *. now rewrite Hctx.
Qed.

Lemma train_function_long (i : nat) (f : VectorizedFunction.t)
    (ctx : TrainingContext Sampler) :
  funcs (repo ctx) !! i = Some f ->
  Exists (fun seq => (3 <= length seq)%nat) (VectorizedFunction.sequences f) ->
  exists e, train_function sample i f ctx = (ctx, Raise e) /\ ordinary e.
Proof.
  intros Hf Hlong. pose proof (train_function_context i f ctx Hf) as Hctx.
  unfold train_function in *.
  destruct (train_sequences_long sample _ {| context := ctx; func := f |} Hlong)
    as (e & He & Hord).
  rewrite He in *. cbn in *. exists e. now rewrite Hctx.
Qed.

Lemma short_or_long (f : VectorizedFunction.t) : {short_function f} + {long_function f}.
Proof.
  apply Forall_Exists_dec. intros seq.
  destruct (le_lt_dec 3 (length seq)); [now right|now left].
Qed.

Lemma train_functions_outcome (fs : list VectorizedFunction.t) :
  forall (i : nat) (ctx : TrainingContext Sampler),
    (forall j f, fs !! j = Some f -> funcs (repo ctx) !! (i + j)%nat = Some f) ->
    (Forall short_function fs /\ train_functions sample i fs ctx = (ctx, Ok tt))
    \/ (Exists long_function fs
        /\ exists e, train_functions sample i fs ctx = (ctx, Raise e) /\ ordinary e).
Proof.
  induction fs as [|f fs IH]; intros i ctx Hfs; [left; now split|].
  cbn [train_functions].
  assert (Hf : funcs (repo ctx) !! i = Some f).
  { specialize (Hfs 0%nat f eq_refl). now rewrite Nat.add_0_r in Hfs. }
  destruct (short_or_long f) as [Hshort|Hlong].
  - rewrite (train_function_short i f ctx Hf Hshort).
    destruct (IH (S i) ctx) as [[Hall Hok]|(Hex & e & He & Hord)].
    + intros j g Hg. specialize (Hfs (S j) g Hg).
      now replace (S i + j)%nat with (i + S j)%nat by lia.
    + left. split; [now constructor|exact Hok].
    + right. split; [now apply Exists_cons_tl|now exists e].
  - destruct (train_function_long i f ctx Hf Hlong) as (e & -> & Hord).
    right. split; [now apply Exists_cons_hd|now exists e].
Qed.

(** *** The first window *)

Lemma deref_some (t : string) (tok : Token) (st : State Sampler) :
  the_vocab st !! t = Some tok -> deref t st = (st, Ok (t, vectorized tok)).
Proof. intros Ht. unfold deref. now rewrite Ht. Qed.

Lemma map_each_deref (names : list string) (st : State Sampler) :
  Forall (fun a => is_Some (the_vocab st !! a)) names ->
  exists tvs,
    map_each names deref st = (st, Ok tvs)
    /\ Forall2 (fun a tv => exists tok, the_vocab st !! a = Some tok
                                        /\ tv = (a, vectorized tok)) names tvs.
Proof.
  induction 1 as [|a names [tok Ha] _ (tvs & IH & Htvs)].
  - exists []. split; [reflexivity|constructor].
  - exists ((a, vectorized tok) :: tvs). split.
    + cbn [map_each]. unfold bind at 1. rewrite (deref_some a tok st Ha).
      unfold bind at 1. now rewrite IH.
    + constructor; [now exists tok|exact Htvs].
Qed.

Lemma np_sum_axis0_rows (d : nat) (rows : list (list R)) :
  rows <> [] -> Forall (fun row => length row = d) rows ->
  exists s, np_sum_axis0 (map Vec rows) = Ok (Vec s) /\ length s = d.
Proof.
  induction rows as [|row rows IH]; intros Hne Hrows; [congruence|].
  apply Forall_cons in Hrows as [Hrow Hrows].
  destruct rows as [|row' rows].
  - exists row. now split.
  - destruct (IH ltac:(congruence) Hrows) as (s & Hs & Hlen).
    change (np_sum_axis0 (map Vec (row :: row' :: rows)))
      with (let! s := np_sum_axis0 (map Vec (row' :: rows)) in add_same_shape (Vec row) s).
    rewrite Hs. cbn [rbind add_same_shape].
    rewrite (proj2 (Nat.eqb_eq _ _)) by congruence.
    eexists. split; [reflexivity|]. rewrite length_zip_with. lia.
Qed.

Lemma np_average_axis0_rows (d : nat) (rows : list (list R)) :
  Forall (fun row => length row = d) rows ->
  exists avg, np_average_axis0 rows = Ok avg.
Proof.
  intros Hrows. unfold np_average_axis0. destruct rows as [|row rows].
  - cbn. now eexists.
  - destruct (np_sum_axis0_rows d (row :: rows) ltac:(congruence) Hrows) as (s & -> & _).
    cbn. now eexists.
Qed.

(** With operand vectors of one length the average exists and the call of
    [np.hstack] is reached: it raises [TypeError]. *)
Lemma get_inst_repr_type_error (d : nat) (op : token_view) (args : list token_view) :
  Forall (fun tv => length (VectorizedToken.v tv.2) = d) args ->
  _get_inst_repr op args = Raise TypeError.
Proof.
  intros Hargs. unfold _get_inst_repr.
  destruct (np_average_axis0_rows d (map (fun tk => VectorizedToken.v tk.2) args))
    as [avg ->]; [|reflexivity].
  now apply Forall_map.
Qed.

Lemma train_sequence_type_error (p c n : Instruction) (rest : InstructionSequence)
    (st : State Sampler) :
  resolvable (the_vocab st) p -> resolvable (the_vocab st) c ->
  resolvable (the_vocab st) n -> uniform_operands (the_vocab st) p ->
  _train_sequence sample (p :: c :: n :: rest) st = (st, Raise TypeError).
Proof.
  intros Hp Hc Hn [d Hd].
  destruct (next_inside_outcome (the_vocab st) (SequenceWindow_init (p :: c :: n :: rest))
              1 p c n eq_refl ltac:(lia) eq_refl eq_refl eq_refl)
    as [(_ & _ & _ & Hnext)|[Hno _]]; [|tauto].
  unfold _train_sequence, bind at 1, gets, create_sequence_window, except_pass.
  cbn [window_loop]. unfold bind at 1, next. rewrite Hnext. cbn [snd].
  unfold bind at 1, _train_vectorized, bind at 1.
  assert (Hdelta : context_delta
                     {| _seq := p :: c :: n :: rest; _i := 1 + 1;
                        _ins := Some (p, c, n); _view := Some (view_of p c n) |} st
                   = (st, Raise TypeError)).
  { unfold context_delta. unfold bind at 1. cbn [lift prev_ins_op window_attr _view].
    destruct Hp as [[tok Htok] Hargs].
    unfold bind at 1. cbn [view_of view_prev_op]. rewrite (deref_some _ tok st Htok).
    unfold bind at 1. cbn [lift prev_ins_args window_attr _view view_prev_args view_of].
    destruct (map_each_deref (args p) st Hargs) as (tvs & Htvs & Hviews).
    unfold bind at 1. rewrite Htvs.
    unfold bind at 1. unfold lift at 1.
    rewrite (get_inst_repr_type_error d); [reflexivity|].
    clear Htvs. induction Hviews as [|a tv names tvs (tok' & Ha & ->) _ IH]; [constructor|].
    apply Forall_cons in Hd as [Hd Hds]. apply Forall_cons in Hargs as [_ Hargs].
    constructor; [now apply Hd|now apply IH]. }
  cbn [SequenceWindow_init _seq _i] in *. rewrite Hdelta. reflexivity.
Qed.

End Outcome.

(** X9. [train] changes nothing: the context it leaves (repository with its
    token and function vectors, learning rate, sampler, counter at 0) is
    the one it built at the start, whether it returns or raises.  It returns
    exactly when no sequence of any function has three instructions, that is
    when there is no window to train; otherwise it raises. *)
Theorem train_outcome {Sampler : Type} (NegativeSampler : list (string * Z) -> Sampler)
    (sample : Sampler -> Z -> list string * Sampler)
    (repository : FunctionRepository) (params : Asm2VecParams) :
  (Forall short_function (funcs repository)
   /\ train NegativeSampler sample repository params
      = (train_context NegativeSampler repository params, Ok tt))
  \/ (Exists long_function (funcs repository)
      /\ exists e,
           train NegativeSampler sample repository params
           = (train_context NegativeSampler repository params, Raise e)
           /\ e <> StopIteration).
Proof.
  unfold train.
  destruct (train_functions_outcome sample
              (funcs (repo (train_context NegativeSampler repository params))) 0
              (train_context NegativeSampler repository params))
    as [[Hall Hok]|(Hex & e & He & Hord)]; [intros j f Hf; exact Hf| |].
  - left. split; [exact Hall|exact Hok].
  - right. split; [exact Hex|]. exists e. split; [exact He|now apply ordinary_not_stop].
Qed.

(** X10. [estimate] leaves the function and the repository as they were.
    It returns, and then the vector the function already had, exactly when
    no sequence of the function has three instructions; otherwise it
    raises. *)
Theorem estimate_outcome_cases {Sampler : Type}
    (NegativeSampler : list (string * Z) -> Sampler)
    (sample : Sampler -> Z -> list string * Sampler)
    (f : VectorizedFunction.t) (estimate_repo : FunctionRepository)
    (params : Asm2VecParams) :
  (short_function f
   /\ estimate NegativeSampler sample f estimate_repo params
      = ({| context := estimate_context NegativeSampler estimate_repo params; func := f |},
         Ok (VectorizedFunction.v f)))
  \/ (long_function f
      /\ exists e,
           estimate NegativeSampler sample f estimate_repo params
           = ({| context := estimate_context NegativeSampler estimate_repo params;
                 func := f |}, Raise e)
           /\ e <> StopIteration).
Proof.
  destruct (estimate_outcome NegativeSampler sample f estimate_repo params) as [Hshort Hlong].
  destruct (short_or_long f) as [Hs|Hl].
  - left. split; [exact Hs|now apply Hshort].
  - right. split; [exact Hl|]. destruct (Hlong Hl) as (e & He & Hord).
    exists e. split; [exact He|now apply ordinary_not_stop].
Qed.

(** X11. Where the first sequence of the first function starts with three
    instructions whose names are all in the vocabulary, and the operand
    vectors of the first of them have one length, [train] raises the
    [TypeError] of [np.hstack] called with two positional arguments, and so
    does [estimate] on that function. *)
Theorem first_window_type_error {Sampler : Type}
    (NegativeSampler : list (string * Z) -> Sampler)
    (sample : Sampler -> Z -> list string * Sampler)
    (repository : FunctionRepository) (params : Asm2VecParams)
    (f : VectorizedFunction.t) (fs : list VectorizedFunction.t)
    (p c n : Instruction) (rest : InstructionSequence) (seqs : list InstructionSequence) :
  funcs repository = f :: fs ->
  VectorizedFunction.sequences f = (p :: c :: n :: rest) :: seqs ->
  resolvable (vocab repository) p -> resolvable (vocab repository) c ->
  resolvable (vocab repository) n -> uniform_operands (vocab repository) p ->
  train NegativeSampler sample repository params
  = (train_context NegativeSampler repository params, Raise TypeError)
  /\ estimate NegativeSampler sample f repository params
     = ({| context := estimate_context NegativeSampler repository params; func := f |},
        Raise TypeError).
Proof.
  intros Hfuncs Hseqs Hp Hc Hn Hd. split.
  - unfold train. change (funcs (repo (train_context NegativeSampler repository params)))
      with (funcs repository). rewrite Hfuncs. cbn [train_functions].
    pose proof (train_function_context sample 0 f
                  (train_context NegativeSampler repository params)) as Hctx.
    unfold train_function in *. rewrite Hseqs in *. cbn [for_each] in *.
    unfold bind at 1 in Hctx. unfold bind at 1.
    rewrite train_sequence_type_error in * by assumption.
    cbn in Hctx. cbn. rewrite Hctx; [reflexivity|]. cbn. now rewrite Hfuncs.
  - unfold estimate. unfold bind at 1. rewrite Hseqs. cbn [for_each]. unfold bind at 1.
    rewrite train_sequence_type_error by assumption. reflexivity.
Qed.

Lemma first_window_type_error_witness :
  train first_sampler first_sample ex_repo ex_params
  = (train_context first_sampler ex_repo ex_params, Raise TypeError)
  /\ estimate first_sampler first_sample ex_func ex_repo ex_params
     = ({| context := estimate_context first_sampler ex_repo ex_params; func := ex_func |},
        Raise TypeError).
Proof.
  apply (first_window_type_error first_sampler first_sample ex_repo ex_params ex_func []
           {| op := "push"; args := ["eax"] |}
           {| op := "mov"; args := ["eax"; "ebx"] |}
           {| op := "pop"; args := ["ebx"] |} [] []).
  - reflexivity.
  - reflexivity.
  - split; [now eexists|repeat constructor; now eexists].
  - split; [now eexists|repeat constructor; now eexists].
  - split; [now eexists|repeat constructor; now eexists].
  - exists 1%nat. repeat constructor. intros tok [= <-]. reflexivity.
Defined.

(** ** What the gradient step writes *)

Lemma inplace_length (o : R -> R -> R) (a a' : list R) (b : ndarray) :
  inplace o a b = Ok a' -> length a' = length a.
Proof.
  unfold inplace. destruct b as [y|ys].
  - intros [= <-]. now rewrite length_map.
  - destruct (Nat.eqb_spec (length a) (length ys)) as [Heq|_].
    + intros [= <-]. rewrite length_zip_with. lia.
    + destruct ys as [|y [|]]; try discriminate. intros [= <-]. now rewrite length_map.
Qed.

Lemma fmap_alter_same {A B} (g : A -> B) (f : A -> A) (m : gmap string A) (t : string) :
  (forall x, m !! t = Some x -> g (f x) = g x) -> g <$> alter f t m = g <$> m.
Proof.
  intros H. apply map_eq; intros i. rewrite !lookup_fmap.
  destruct (decide (i = t)) as [->|Hne].
  - rewrite lookup_alter_eq. destruct (m !! t) as [x|] eqn:E; cbn; [|reflexivity].
    f_equal. now apply H.
  - now rewrite lookup_alter_ne.
Qed.

(** The target set of lines 189-192 as a list without repetition. *)
Lemma dict_fold (names : list string) :
  forall acc : list string,
    NoDup acc ->
    NoDup (foldl (fun dict name => if bool_decide (name ∈ dict) then dict else dict ++ [name])
                 acc names)
    /\ forall x,
         x ∈ foldl (fun dict name => if bool_decide (name ∈ dict) then dict else dict ++ [name])
                   acc names
         <-> x ∈ acc \/ x ∈ names.
Proof.
  induction names as [|n names IH]; intros acc Hnd; cbn [foldl].
  - split; [exact Hnd|]. intros x. rewrite elem_of_nil. tauto.
  - case_bool_decide as Hin.
    + destruct (IH acc Hnd) as [H1 H2]. split; [exact H1|].
      intros x. rewrite H2, elem_of_cons. split; [tauto|].
      intros [Hx|[->|Hx]]; tauto.
    + destruct (IH (acc ++ [n])) as [H1 H2].
      { apply NoDup_app. split; [exact Hnd|]. split; [|apply NoDup_singleton].
        intros x Hx Hx'. apply list_elem_of_singleton in Hx'. now subst. }
      split; [exact H1|].
      intros x. rewrite H2, elem_of_app, list_elem_of_singleton, elem_of_cons. tauto.
Qed.

Section Frame.

Context {Sampler : Type}.
Variable sample : Sampler -> Z -> list string * Sampler.

(** *** What one in-place update of a token does to the state *)

Lemma isub_v_effect (t : string) (g : ndarray) (st : State Sampler) :
  (isub_v t g st).1 = st
  \/ exists tok new_v,
       the_vocab st !! t = Some tok
       /\ length new_v = length (VectorizedToken.v (vectorized tok))
       /\ (isub_v t g st).1
          = on_context
              (set_vocab
                 (alter (fun tok' =>
                           {| vectorized :=
                                {| VectorizedToken.v := new_v;
                                   VectorizedToken.v_pred :=
                                     VectorizedToken.v_pred (vectorized tok) |};
                              frequency := frequency tok' |}) t (the_vocab st))) st.
Proof.
  unfold isub_v, bind, deref. destruct (the_vocab st !! t) as [tok|] eqn:Htok; [|now left].
  unfold lift. cbn [snd].
  destruct (inplace Rminus (VectorizedToken.v (vectorized tok)) g) as [new_v|e] eqn:Hnew;
    [|now left].
  right. exists tok, new_v. split; [reflexivity|]. split; [now apply inplace_length in Hnew|].
  reflexivity.
Qed.

Lemma isub_v_pred_effect (t : string) (g : ndarray) (st : State Sampler) :
  (isub_v_pred t g st).1 = st
  \/ exists tok new_v_pred,
       the_vocab st !! t = Some tok
       /\ length new_v_pred = length (VectorizedToken.v_pred (vectorized tok))
       /\ (isub_v_pred t g st).1
          = on_context
              (set_vocab
                 (alter (fun tok' =>
                           {| vectorized :=
                                {| VectorizedToken.v := VectorizedToken.v (vectorized tok);
                                   VectorizedToken.v_pred := new_v_pred |};
                              frequency := frequency tok' |}) t (the_vocab st))) st.
Proof.
  unfold isub_v_pred, bind, deref.
  destruct (the_vocab st !! t) as [tok|] eqn:Htok; [|now left].
  unfold lift. cbn [snd].
  destruct (inplace Rminus (VectorizedToken.v_pred (vectorized tok)) g)
    as [new_v_pred|e] eqn:Hnew; [|now left].
  right. exists tok, new_v_pred. split; [reflexivity|].
  split; [now apply inplace_length in Hnew|]. reflexivity.
Qed.

Lemma isub_v_beside (t : string) (g : ndarray) : preserves (Sampler := Sampler) beside_vocab (isub_v t g).
Proof.
  intros st. destruct (isub_v_effect t g st) as [->|(tok & new_v & _ & _ & ->)];
    reflexivity.
Qed.

Lemma isub_v_pred_beside (t : string) (g : ndarray) :
  preserves (Sampler := Sampler) beside_vocab (isub_v_pred t g).
Proof.
  intros st. destruct (isub_v_pred_effect t g st) as [->|(tok & new_v & _ & _ & ->)];
    reflexivity.
Qed.

Lemma isub_v_fixed (t : string) (g : ndarray) : preserves (Sampler := Sampler) fixed_part (isub_v t g).
Proof.
  intros st. destruct (isub_v_effect t g st) as [->|(tok & new_v & Htok & Hlen & ->)];
    [reflexivity|].
  unfold fixed_part, shapes, frequencies, the_vocab. cbn.
  rewrite !fmap_alter_same; [reflexivity| |]; intros tok' Htok'; cbn; [|reflexivity].
  unfold the_vocab in Htok. rewrite Htok in Htok'. injection Htok' as <-. now rewrite Hlen.
Qed.

Lemma isub_v_pred_fixed (t : string) (g : ndarray) :
  preserves (Sampler := Sampler) fixed_part (isub_v_pred t g).
Proof.
  intros st. destruct (isub_v_pred_effect t g st) as [->|(tok & new_v & Htok & Hlen & ->)];
    [reflexivity|].
  unfold fixed_part, shapes, frequencies, the_vocab. cbn.
  rewrite !fmap_alter_same; [reflexivity| |]; intros tok' Htok'; cbn; [|reflexivity].
  unfold the_vocab in Htok. rewrite Htok in Htok'. injection Htok' as <-. now rewrite Hlen.
Qed.

Lemma isub_v_keeps_v_pred (x t : string) (g : ndarray) :
  preserves (Sampler := Sampler) (fun st => v_pred_of st x) (isub_v t g).
Proof.
  intros st. destruct (isub_v_effect t g st) as [->|(tok & new_v & Htok & _ & ->)];
    [reflexivity|].
  unfold v_pred_of, the_vocab in *. cbn.
  destruct (decide (x = t)) as [->|Hne].
  - rewrite lookup_alter_eq, Htok. reflexivity.
  - now rewrite lookup_alter_ne.
Qed.

Lemma isub_v_keeps_v (x t : string) (g : ndarray) :
  x <> t -> preserves (Sampler := Sampler) (fun st => v_of st x) (isub_v t g).
Proof.
  intros Hne st. destruct (isub_v_effect t g st) as [->|(tok & new_v & Htok & _ & ->)];
    [reflexivity|].
  unfold v_of, the_vocab. cbn. now rewrite lookup_alter_ne.
Qed.

Lemma isub_v_pred_keeps_v (x t : string) (g : ndarray) :
  preserves (Sampler := Sampler) (fun st => v_of st x) (isub_v_pred t g).
Proof.
  intros st. destruct (isub_v_pred_effect t g st) as [->|(tok & new_v & Htok & _ & ->)];
    [reflexivity|].
  unfold v_of, the_vocab in *. cbn.
  destruct (decide (x = t)) as [->|Hne].
  - rewrite lookup_alter_eq, Htok. reflexivity.
  - now rewrite lookup_alter_ne.
Qed.

Lemma isub_v_pred_keeps_v_pred (x t : string) (g : ndarray) :
  x <> t -> preserves (Sampler := Sampler) (fun st => v_pred_of st x) (isub_v_pred t g).
Proof.
  intros Hne st.
  destruct (isub_v_pred_effect t g st) as [->|(tok & new_v & Htok & _ & ->)];
    [reflexivity|].
  unfold v_pred_of, the_vocab. cbn. now rewrite lookup_alter_ne.
Qed.

(** *** The steps, for any part of the state *)

Context {T : Type} (proj : State Sampler -> T).

Lemma preserves_bind_ok {A B} (a : A) (k : A -> M B) :
  preserves proj (k a) -> preserves proj (bind (lift (Ok a)) k).
Proof. intros H st. unfold bind, lift. apply H. Qed.

Lemma preserves_for_each_in {A} (l : list A) (body : A -> M unit) :
  (forall x, x ∈ l -> preserves proj (body x)) -> preserves proj (for_each l body).
Proof.
  induction l as [|x l IH]; intros H; cbn [for_each]; [apply preserves_ret|].
  apply preserves_bind; [apply H; left|intros _; apply IH; intros y Hy; apply H; now right].
Qed.

(** The tokens whose [v], and whose [v_pred], may be written without a
    change of [proj]. *)
Variables may_v may_v_pred : string -> Prop.

Hypothesis proj_sampler : forall s st, proj (on_context (set_sampler s) st) = proj st.
Hypothesis proj_alpha : forall a st, proj (on_context (set_alpha a) st) = proj st.
Hypothesis frame_v_pred :
  forall t g, may_v_pred t -> preserves proj (isub_v_pred t g).
Hypothesis frame_v : forall t g, may_v t -> preserves proj (isub_v t g).
Hypothesis frame_func : forall f_grad, preserves proj (apply_function_gradient f_grad).

Lemma update_targets_frame (targets : list string) (tk : string) (delta : ndarray) :
  (forall t, t ∈ targets -> may_v_pred t) ->
  preserves proj (update_targets targets tk delta).
Proof.
  intros Hmay. unfold update_targets. apply preserves_for_each_in. intros t Ht.
  repeat (first [ apply preserves_lift | apply preserves_deref | apply preserves_gets
                | apply frame_v_pred; now apply Hmay
                | apply preserves_bind; [|intros ?] ]).
Qed.

Lemma token_step_frame (delta : ndarray) (f_grad : list R) (tk : string) :
  (forall t, may_v_pred t) -> preserves proj (token_step sample delta f_grad tk).
Proof.
  intros Hmay. unfold token_step.
  apply preserves_bind; [now apply draw_targets_untouched|intros targets].
  apply preserves_bind; [now apply update_learning_rate_untouched|intros _].
  apply preserves_bind;
    [apply preserves_map_each; intros ?; apply preserves_deref|intros samples].
  apply preserves_bind; [apply preserves_deref|intros current_token].
  apply preserves_bind; [apply preserves_lift|intros g].
  apply preserves_bind; [apply preserves_lift|intros f_grad'].
  apply preserves_bind; [apply preserves_gets|intros ctx].
  apply preserves_bind; [|intros _; apply preserves_ret].
  destruct (is_estimating ctx); [apply preserves_ret|].
  apply update_targets_frame. intros t _. apply Hmay.
Qed.

Lemma token_loop_frame (delta : ndarray) (tokens : list string) (f_grad : list R) :
  (forall t, may_v_pred t) -> preserves proj (token_loop sample delta f_grad tokens).
Proof.
  intros Hmay. revert f_grad.
  induction tokens as [|tk tokens IH]; intros f_grad; cbn [token_loop].
  - apply preserves_ret.
  - apply preserves_bind; [now apply token_step_frame|intros f_grad']. apply IH.
Qed.

Lemma apply_instruction_gradient_frame (wnd : SequenceWindow) (vw : ViewType)
    (f_grad : list R) :
  _view wnd = Some vw -> (forall t, t ∈ neighbour_names vw -> may_v t) ->
  preserves proj (apply_instruction_gradient wnd f_grad).
Proof.
  intros Hview Hmay. unfold apply_instruction_gradient.
  unfold prev_ins_op, prev_ins_args, next_ins_op, next_ins_args, window_attr.
  rewrite Hview. unfold neighbour_names in Hmay.
  apply preserves_bind_ok.
  apply preserves_bind; [apply preserves_deref|intros prev_op_tk].
  apply preserves_bind; [apply preserves_gets|intros ctx].
  apply preserves_bind; [apply preserves_lift|intros step].
  apply preserves_bind; [apply frame_v, Hmay; left|intros _].
  apply preserves_bind_ok.
  apply preserves_bind; [apply preserves_lift|intros q].
  apply preserves_bind; [apply preserves_lift|intros prev_args_grad].
  apply preserves_bind.
  { apply preserves_for_each_in. intros t Ht. apply frame_v, Hmay.
    right. apply elem_of_app. now left. }
  intros _. apply preserves_bind_ok.
  apply preserves_bind; [apply preserves_lift|intros step'].
  apply preserves_bind.
  { apply frame_v, Hmay. right. apply elem_of_app. right. left. }
  intros _. apply preserves_bind_ok.
  apply preserves_bind; [apply preserves_lift|intros q'].
  apply preserves_bind; [apply preserves_lift|intros next_args_grad].
  apply preserves_for_each_in. intros t Ht. apply frame_v, Hmay.
  right. apply elem_of_app. right. now right.
Qed.

Lemma gradient_step_preserves (wnd : SequenceWindow) (delta : ndarray) :
  (forall t, may_v_pred t) ->
  (forall vw t, _view wnd = Some vw -> t ∈ neighbour_names vw -> may_v t) ->
  preserves proj (gradient_step sample wnd delta).
Proof.
  intros Hpred Hv. unfold gradient_step.
  apply preserves_bind; [apply preserves_lift|intros curr_op].
  apply preserves_bind; [apply preserves_lift|intros curr_args].
  apply preserves_bind; [apply preserves_gets|intros f].
  apply preserves_bind; [now apply token_loop_frame|intros f_grad].
  apply preserves_bind; [apply frame_func|intros _].
  apply preserves_bind; [apply preserves_gets|intros ctx].
  destruct (is_estimating ctx); [apply preserves_ret|].
  destruct (_view wnd) as [vw|] eqn:Hview.
  - apply (apply_instruction_gradient_frame wnd vw f_grad Hview). intros t. now apply Hv.
  - unfold apply_instruction_gradient, prev_ins_op, window_attr. rewrite Hview.
    intros st. reflexivity.
Qed.

End Frame.

Section Frames.

Context {Sampler : Type}.
Variable sample : Sampler -> Z -> list string * Sampler.

Lemma apply_function_gradient_effect (f_grad : list R) (st : State Sampler) :
  (apply_function_gradient f_grad st).1 = st
  \/ exists new_v,
       length new_v = length (VectorizedFunction.v (func st))
       /\ (apply_function_gradient f_grad st).1 = set_func_v new_v st.
Proof.
  unfold apply_function_gradient, bind, gets, lift. cbn [fst snd broadcast].
  destruct (inplace Rminus (VectorizedFunction.v (func st))
              (Vec (map (Rmult (alpha (context st))) f_grad))) as [new_v|e] eqn:Hnew;
    [|now left].
  right. exists new_v. split; [now apply inplace_length in Hnew|reflexivity].
Qed.

Lemma apply_function_gradient_fixed (f_grad : list R) :
  preserves (Sampler := Sampler) fixed_part (apply_function_gradient f_grad).
Proof.
  intros st. destruct (apply_function_gradient_effect f_grad st) as [->|(new_v & Hlen & ->)];
    [reflexivity|].
  unfold fixed_part, shapes. cbn. now rewrite Hlen.
Qed.

Lemma apply_function_gradient_vocab (f_grad : list R) :
  preserves (Sampler := Sampler) the_vocab (apply_function_gradient f_grad).
Proof.
  intros st. destruct (apply_function_gradient_effect f_grad st) as [->|(new_v & _ & ->)];
    reflexivity.
Qed.

Lemma gradient_step_fixed (wnd : SequenceWindow) (delta : ndarray) :
  preserves (Sampler := Sampler) fixed_part (gradient_step sample wnd delta).
Proof.
  apply (gradient_step_preserves sample fixed_part (fun _ => True) (fun _ => True));
    try reflexivity; try (intros; exact I).
  - intros t g _. apply isub_v_pred_fixed.
  - intros t g _. apply isub_v_fixed.
  - apply apply_function_gradient_fixed.
Qed.

Lemma gradient_step_keeps_v (x : string) (wnd : SequenceWindow) (vw : ViewType)
    (delta : ndarray) :
  _view wnd = Some vw -> x ∉ neighbour_names vw ->
  preserves (Sampler := Sampler) (fun st => v_of st x) (gradient_step sample wnd delta).
Proof.
  intros Hview Hx.
  apply (gradient_step_preserves sample (fun st => v_of st x)
           (fun t => x <> t) (fun _ => True));
    try reflexivity; try (intros; exact I).
  - intros t g _. apply isub_v_pred_keeps_v.
  - intros t g Hne. now apply isub_v_keeps_v.
  - intros f_grad st. unfold v_of. now rewrite apply_function_gradient_vocab.
  - intros vw' t Hview' Ht ->. rewrite Hview in Hview'. injection Hview' as <-. contradiction.
Qed.

Lemma update_targets_keeps (targets : list string) (tk : string) (delta : ndarray) :
  preserves (Sampler := Sampler) beside_vocab (update_targets targets tk delta)
  /\ (forall x, preserves (Sampler := Sampler) (fun st => v_of st x) (update_targets targets tk delta))
  /\ (forall x, x ∉ targets ->
                preserves (Sampler := Sampler) (fun st => v_pred_of st x) (update_targets targets tk delta)).
Proof.
  split; [|split].
  - apply (update_targets_frame beside_vocab (fun _ => True)); [|intros; exact I].
    intros t g _. apply isub_v_pred_beside.
  - intros x. apply (update_targets_frame (fun st => v_of st x) (fun _ => True));
      [|intros; exact I].
    intros t g _. apply isub_v_pred_keeps_v.
  - intros x Hx.
    apply (update_targets_frame (fun st => v_pred_of st x) (fun t => x <> t)).
    + intros t g Hne. now apply isub_v_pred_keeps_v_pred.
    + intros t Ht ->. contradiction.
Qed.

Lemma apply_instruction_gradient_keeps (wnd : SequenceWindow) (f_grad : list R) :
  preserves (Sampler := Sampler) beside_vocab (apply_instruction_gradient wnd f_grad)
  /\ forall x, preserves (Sampler := Sampler) (fun st => v_pred_of st x)
                 (apply_instruction_gradient wnd f_grad).
Proof.
  destruct (_view wnd) as [vw|] eqn:Hview.
  - split; [|intros x].
    + apply (apply_instruction_gradient_frame beside_vocab (fun _ => True)
               (fun t g _ => isub_v_beside t g) wnd vw f_grad Hview).
      intros; exact I.
    + apply (apply_instruction_gradient_frame (fun st => v_pred_of st x) (fun _ => True)
               (fun t g _ => isub_v_keeps_v_pred x t g) wnd vw f_grad Hview).
      intros; exact I.
  - split; [|intros x]; intros st;
      unfold apply_instruction_gradient, prev_ins_op, window_attr; rewrite Hview;
      reflexivity.
Qed.

End Frames.

(** The draw of lines 189-192: the sampler moves on, and the targets are the
    names drawn, each once, and the current token. *)
Lemma draw_targets_outcome {Sampler : Type}
    (sample : Sampler -> Z -> list string * Sampler) (tk : string) (st : State Sampler) :
  exists targets,
    draw_targets sample tk st
    = (on_context
         (set_sampler (sample (sampler (context st)) (neg_samples (params (context st)))).2)
         st, Ok targets)
    /\ NoDup targets
    /\ forall x,
         x ∈ targets
         <-> x ∈ (sample (sampler (context st)) (neg_samples (params (context st)))).1
             \/ x = tk.
Proof.
  unfold draw_targets, bind, gets, modify, ret.
  destruct (sample _ _) as [drawn sampler']. cbn [fst snd].
  destruct (dict_fold drawn [] (NoDup_nil_2 (A := string))) as [Hnd Hin].
  fold (dict_of_names drawn) in Hnd, Hin.
  eexists. split; [reflexivity|]. case_bool_decide as Htk.
  - split; [exact Hnd|]. intros x. rewrite Hin, elem_of_nil.
    split; [tauto|]. intros [Hx| ->]; [tauto|]. apply Hin in Htk.
    rewrite elem_of_nil in Htk. tauto.
  - split.
    + apply NoDup_app. split; [exact Hnd|]. split; [|apply NoDup_singleton].
      intros x Hx Hx'. apply list_elem_of_singleton in Hx'. now subst.
    + intros x. rewrite elem_of_app, list_elem_of_singleton, Hin, elem_of_nil. tauto.
Qed.

(** X12. The targets of a token (lines 189-192): the names the sampler
    drew, each once, and the current token, which is a target whether it was
    drawn or not.  The draw leaves the sampler in its new state and nothing
    else changed. *)
Theorem targets_of_a_token {Sampler : Type}
    (sample : Sampler -> Z -> list string * Sampler) (tk : string) (st : State Sampler) :
  exists targets,
    draw_targets sample tk st
    = (on_context
         (set_sampler (sample (sampler (context st)) (neg_samples (params (context st)))).2)
         st, Ok targets)
    /\ NoDup targets
    /\ forall x,
         x ∈ targets
         <-> x ∈ (sample (sampler (context st)) (neg_samples (params (context st)))).1
             \/ x = tk.
Proof. apply draw_targets_outcome. Qed.

(** X13. The gradient step of lines 185-224, for any window and any context
    delta and whether it returns or raises, leaves alone the parameters, the
    estimation flag, the token count and the function list of the
    repository, the counters, the frequency of every token, the sequences of
    the function, and the length of the function vector and of both vectors
    of every token. *)
Theorem gradient_step_frame {Sampler : Type}
    (sample : Sampler -> Z -> list string * Sampler)
    (wnd : SequenceWindow) (delta : ndarray) (st : State Sampler) :
  fixed_part (gradient_step sample wnd delta st).1 = fixed_part st.
Proof. apply gradient_step_fixed. Qed.

(** X14. The gradient step writes the vector [v] of no token but the
    opcodes and operands of the previous and of the next instruction: that
    of a token of the current instruction changes only if the token is also
    one of those. *)
Theorem gradient_step_input_vectors {Sampler : Type}
    (sample : Sampler -> Z -> list string * Sampler)
    (wnd : SequenceWindow) (vw : ViewType) (delta : ndarray) (st : State Sampler)
    (x : string) :
  _view wnd = Some vw -> x ∉ neighbour_names vw ->
  v_of (gradient_step sample wnd delta st).1 x = v_of st x.
Proof. intros Hview Hx. now apply (gradient_step_keeps_v sample x wnd vw delta). Qed.

Lemma gradient_step_input_vectors_witness :
  v_of (gradient_step first_sample ex_wnd (Vec [0; 0]%R) (ex_state_at 0)).1 "mov"
  = v_of (ex_state_at 0) "mov".
Proof.
  apply (gradient_step_input_vectors first_sample ex_wnd ex_view); [reflexivity|].
  intros Hin. apply (bool_decide_pack _) in Hin. vm_compute in Hin. exact Hin.
Defined.

(** X15. The update of the targets (lines 206-207) writes the vector
    [v_pred] of targets only: the vector [v] of every token, the vector
    [v_pred] of every token that is no target, the function, the learning
    rate, the sampler, the counters and the settings are as before. *)
Theorem target_update_writes_v_pred_only {Sampler : Type}
    (targets : list string) (tk : string) (delta : ndarray) (st : State Sampler) :
  beside_vocab (update_targets targets tk delta st).1 = beside_vocab st
  /\ (forall x, v_of (update_targets targets tk delta st).1 x = v_of st x)
  /\ (forall x, x ∉ targets ->
                v_pred_of (update_targets targets tk delta st).1 x = v_pred_of st x).
Proof.
  destruct (update_targets_keeps (Sampler := Sampler) targets tk delta) as (Hb & Hv & Hp).
  split; [apply Hb|]. split; [intros x; apply Hv|intros x Hx; now apply Hp].
Qed.

(** X16. The instruction gradient (lines 212-224) writes vectors [v] only:
    the vector [v_pred] of every token, the function, the learning rate, the
    sampler, the counters and the settings are as before. *)
Theorem instruction_gradient_writes_v_only {Sampler : Type}
    (wnd : SequenceWindow) (f_grad : list R) (st : State Sampler) :
  beside_vocab (apply_instruction_gradient wnd f_grad st).1 = beside_vocab st
  /\ forall x, v_pred_of (apply_instruction_gradient wnd f_grad st).1 x = v_pred_of st x.
Proof.
  destruct (apply_instruction_gradient_keeps (Sampler := Sampler) wnd f_grad) as (Hb & Hp).
  split; [apply Hb|intros x; apply Hp].
Qed.

(** X17. In estimation mode the gradient step writes no token: the
    vocabulary is as before, for any window and any context delta. *)
Theorem estimation_step_keeps_tokens {Sampler : Type}
    (sample : Sampler -> Z -> list string * Sampler)
    (wnd : SequenceWindow) (delta : ndarray) (st : State Sampler) :
  is_estimating (context st) = true ->
  the_vocab (gradient_step sample wnd delta st).1 = the_vocab st.
Proof. intros Hest. now apply (gradient_step_freezes sample wnd delta st). Qed.

Lemma estimation_step_keeps_tokens_witness :
  the_vocab (gradient_step first_sample ex_wnd (Vec [0; 0]%R) ex_estimate_state).1
  = the_vocab ex_estimate_state.
Proof.
  apply (estimation_step_keeps_tokens first_sample ex_wnd (Vec [0; 0]%R) ex_estimate_state).
  reflexivity.
Defined.

(** X18. With a registered counter, the learning-rate update raises
    [ZeroDivisionError] and leaves the state as it was when the update
    interval is 0 (the [%] of line 195), and when the counter is on a
    multiple of the interval and [iteration * num_of_tokens + 1] is 0 (the
    [/] of line 197). *)
Theorem learning_rate_division_by_zero {Sampler : Type} (st : State Sampler)
    (c : Counter.t) :
  get_counter (context st) TOKENS_HANDLED_COUNTER = Some c ->
  alpha_update_interval (params (context st)) = 0%Z
  \/ ((Counter.val c mod alpha_update_interval (params (context st)))%Z = 0%Z
      /\ (iteration (params (context st)) * num_of_tokens (repo (context st)) + 1)%Z = 0%Z) ->
  update_learning_rate st = (st, Raise ZeroDivisionError).
Proof.
  intros Hc Hzero. unfold update_learning_rate, bind, gets. rewrite Hc.
  destruct (Z.eqb_spec (alpha_update_interval (params (context st))) 0) as [|Hne];
    [reflexivity|].
  destruct Hzero as [|[Hmod Htotal]]; [contradiction|].
  rewrite Hmod. cbn [Z.eqb]. now rewrite Htotal.
Qed.

Lemma learning_rate_division_by_zero_witness :
  update_learning_rate
    {| context :=
         (add_counter TOKENS_HANDLED_COUNTER 0
            (TrainingContext_init first_sampler ex_repo
               {| d := 1; initial_alpha := 1 / 20; alpha_update_interval := 0;
                  num_of_rnd_walks := 3; neg_samples := 0; iteration := 1 |} false)).2;
       func := ex_func |}
  = ({| context :=
          (add_counter TOKENS_HANDLED_COUNTER 0
             (TrainingContext_init first_sampler ex_repo
                {| d := 1; initial_alpha := 1 / 20; alpha_update_interval := 0;
                   num_of_rnd_walks := 3; neg_samples := 0; iteration := 1 |} false)).2;
        func := ex_func |}, Raise ZeroDivisionError).
Proof.
  apply (learning_rate_division_by_zero _
           {| Counter._name := TOKENS_HANDLED_COUNTER; Counter._val := 0 |}).
  - reflexivity.
  - left. reflexivity.
Defined.

(** X19. In the context [train] builds the counter stands at 0, a multiple
    of every interval: the first token step replaces the learning rate by
    [max(1, initial_alpha * 0.0001)], which is 1 for every [initial_alpha]
    up to 10000, whatever the step does afterwards. *)
Theorem first_token_sets_rate_to_one {Sampler : Type}
    (NegativeSampler : list (string * Z) -> Sampler)
    (sample : Sampler -> Z -> list string * Sampler)
    (repository : FunctionRepository) (p : Asm2VecParams)
    (f : VectorizedFunction.t) (delta : ndarray) (f_grad : list R) (tk : string) :
  alpha_update_interval p <> 0%Z ->
  (iteration p * num_of_tokens repository + 1)%Z <> 0%Z ->
  (initial_alpha p <= 10000)%R ->
  alpha (context (token_step sample delta f_grad tk
                    {| context := train_context NegativeSampler repository p;
                       func := f |}).1)
  = 1%R.
Proof.
  intros Hinterval Htotal Halpha.
  rewrite (token_step_rate sample delta f_grad tk
             {| context := train_context NegativeSampler repository p; func := f |}
             {| Counter._name := TOKENS_HANDLED_COUNTER; Counter._val := 0 |}).
  - unfold spec_learning_rate. cbn [Counter.val Counter._val].
    change (params (context _)) with p.
    rewrite Rmax_left; [unfold Rdiv; lra|].
    unfold Rdiv. rewrite Rmult_0_l. cbn [pow]. lra.
  - apply lookup_insert_eq.
  - exact Hinterval.
  - apply Z.mod_0_l. exact Hinterval.
  - exact Htotal.
Qed.

Lemma first_token_sets_rate_to_one_witness :
  alpha (context (token_step first_sample (Vec [0; 0]%R) [0; 0]%R "mov"
                    {| context := train_context first_sampler ex_repo ex_params;
                       func := ex_func |}).1)
  = 1%R.
Proof.
  apply (first_token_sets_rate_to_one first_sampler first_sample ex_repo ex_params).
  - discriminate.
  - discriminate.
  - cbn. lra.
Defined.

(** ** The gradient step on data of the expected shapes *)

Section Returns.

Context {Sampler : Type} (inv : State Sampler -> Prop).

Lemma returns_ret {A} (a : A) (post : A -> Prop) : post a -> returns inv (ret a) post.
Proof. intros Hp st Hinv. exists a. split; [reflexivity|]. split; [exact Hp|exact Hinv]. Qed.

Lemma returns_gets {A} (proj : State Sampler -> A) (post : A -> Prop) :
  (forall st, inv st -> post (proj st)) -> returns inv (gets proj) post.
Proof.
  intros Hp st Hinv. exists (proj st). split; [reflexivity|].
  split; [now apply Hp|exact Hinv].
Qed.

Lemma returns_bind {A B} (m : M A) (k : A -> M B) (mid : A -> Prop) (post : B -> Prop) :
  returns inv m mid -> (forall a, mid a -> returns inv (k a) post) ->
  returns inv (bind m k) post.
Proof.
  intros Hm Hk st Hinv. destruct (Hm st Hinv) as (a & Ha & Hmid & Hinv').
  unfold bind. destruct (m st) as [st' r]; cbn in *. subst r.
  apply (Hk a Hmid st' Hinv').
Qed.

Lemma returns_bind_lift {A B} (a : A) (k : A -> M B) (post : B -> Prop) :
  returns inv (k a) post -> returns inv (bind (lift (Ok a)) k) post.
Proof. intros Hk st Hinv. unfold bind, lift. now apply Hk. Qed.

Lemma returns_bind_gets {A B} (proj : State Sampler -> A) (k : A -> M B)
    (post : B -> Prop) :
  (forall a, returns inv (k a) post) -> returns inv (bind (gets proj) k) post.
Proof. intros Hk st Hinv. unfold bind, gets. now apply Hk. Qed.

Lemma returns_for_each {A} (l : list A) (body : A -> M unit) :
  (forall x, x ∈ l -> returns inv (body x) (fun _ => True)) ->
  returns inv (for_each l body) (fun _ => True).
Proof.
  induction l as [|x l IH]; intros Hbody; cbn [for_each]; [now apply returns_ret|].
  apply (returns_bind _ _ (fun _ => True)); [apply Hbody; left|intros _ _].
  apply IH. intros y Hy. apply Hbody. now right.
Qed.

Lemma returns_map_each {A B} (l : list A) (body : A -> M B) (post : A -> B -> Prop) :
  (forall x, x ∈ l -> returns inv (body x) (post x)) ->
  returns inv (map_each l body) (Forall2 post l).
Proof.
  induction l as [|x l IH]; intros Hbody; cbn [map_each].
  - apply returns_ret. constructor.
  - apply (returns_bind _ _ (post x)); [apply Hbody; left|intros y Hy].
    apply (returns_bind _ _ (Forall2 post l)).
    + apply IH. intros z Hz. apply Hbody. now right.
    + intros ys Hys. apply returns_ret. now constructor.
Qed.

End Returns.

Lemma inplace_same_length (o : R -> R -> R) (a ys : list R) :
  length a = length ys -> inplace o a (Vec ys) = Ok (zip_with o a ys).
Proof. intros Hlen. unfold inplace. now rewrite Hlen, Nat.eqb_refl. Qed.

(** On a non-empty target set and vectors of one length the function
    gradient is a vector of that length. *)
Lemma function_grad_shape (samples : list token_view) (tk : token_view) (delta : list R) :
  samples <> [] -> length (VectorizedToken.v_pred tk.2) = length delta ->
  exists g, _get_function_grad samples tk (Vec delta) = Ok (Vec g)
            /\ length g = length delta.
Proof.
  intros Hne Hshape. unfold _get_function_grad.
  rewrite (code_terms tk delta Hshape). cbn [rbind].
  destruct samples as [|t samples]; [congruence|].
  destruct (sums_agree tk delta t samples) as (total & -> & _). cbn.
  eexists. split; [reflexivity|]. now rewrite length_map.
Qed.

Section StepReturns.

Context {Sampler : Type}.
Variable sample : Sampler -> Z -> list string * Sampler.
Variable sampler_ok : Sampler -> Prop.
Variable d : nat.
Variable st0 : State Sampler.

Hypothesis shaped : well_shaped d st0.
Hypothesis computable : rate_computable st0.
Hypothesis sound :
  forall s k, sampler_ok s -> Forall (known st0) (sample s k).1 /\ sampler_ok (sample s k).2.

Lemma inv_known (st : State Sampler) (t : string) :
  step_inv sampler_ok st0 st -> known st0 t ->
  exists tok,
    the_vocab st !! t = Some tok
    /\ length (VectorizedToken.v (vectorized tok)) = d
    /\ length (VectorizedToken.v_pred (vectorized tok)) = (2 * d)%nat.
Proof.
  intros [Hfixed _] [tok0 Htok0].
  apply (f_equal snd) in Hfixed. cbn in Hfixed. apply (f_equal snd) in Hfixed.
  cbn in Hfixed. apply (f_equal (fun m => m !! t)) in Hfixed.
  rewrite !lookup_fmap, Htok0 in Hfixed. cbn in Hfixed.
  destruct (the_vocab st !! t) as [tok|]; [|discriminate].
  exists tok. split; [reflexivity|]. injection Hfixed as Hv Hp.
  destruct shaped as [_ Hall]. destruct (Hall t tok0 Htok0) as [Hv0 Hp0]. lia.
Qed.

Lemma inv_func_length (st : State Sampler) :
  step_inv sampler_ok st0 st ->
  length (VectorizedFunction.v (func st)) = (2 * d)%nat.
Proof.
  intros [Hfixed _]. apply (f_equal snd) in Hfixed. cbn in Hfixed.
  apply (f_equal fst) in Hfixed. cbn in Hfixed. destruct shaped as [H0 _]. lia.
Qed.

Lemma inv_rate (st : State Sampler) : step_inv sampler_ok st0 st -> rate_computable st.
Proof.
  intros [Hfixed _]. destruct computable as (Hc & Hinterval & Htotal).
  assert (Hsettings : settings st = settings st0)
    by (apply (f_equal (fun p => p.1.1.1.1)) in Hfixed; exact Hfixed).
  assert (Hcounters : counters_of st = counters_of st0)
    by (apply (f_equal (fun p => p.1.1.1.2)) in Hfixed; exact Hfixed).
  unfold settings in Hsettings. injection Hsettings as Hp _ Hn _.
  unfold rate_computable, get_counter. unfold counters_of in Hcounters.
  rewrite Hcounters, Hp, Hn. now repeat split.
Qed.

Lemma inv_after {A} (m : M A) (st : State Sampler) :
  step_inv sampler_ok st0 st -> fixed_part (m st).1 = fixed_part st ->
  sampler (context (m st).1) = sampler (context st) ->
  step_inv sampler_ok st0 (m st).1.
Proof. intros [Hfixed Hs] Hf Hs'. split; [now rewrite Hf|now rewrite Hs']. Qed.

Lemma deref_returns (t : string) :
  known st0 t ->
  returns (step_inv sampler_ok st0) (deref t)
    (fun tv => length (VectorizedToken.v tv.2) = d
               /\ length (VectorizedToken.v_pred tv.2) = (2 * d)%nat).
Proof.
  intros Hk st Hinv. destruct (inv_known st t Hinv Hk) as (tok & Htok & Hv & Hp).
  rewrite (deref_some t tok st Htok). exists (t, vectorized tok). cbn [fst snd].
  split; [reflexivity|]. split; [split; assumption|exact Hinv].
Qed.

Lemma isub_v_pred_returns (t : string) (ys : list R) :
  known st0 t -> length ys = (2 * d)%nat ->
  returns (step_inv sampler_ok st0) (isub_v_pred t (Vec ys)) (fun _ => True).
Proof.
  intros Hk Hlen st Hinv. destruct (inv_known st t Hinv Hk) as (tok & Htok & Hv & Hp).
  exists tt. split; [|split; [exact I|]].
  - unfold isub_v_pred, bind. rewrite (deref_some t tok st Htok). cbn [lift fst snd].
    rewrite inplace_same_length by lia. reflexivity.
  - apply inv_after; [exact Hinv|apply isub_v_pred_fixed|].
    pose proof (isub_v_pred_beside t (Vec ys) st) as Hb.
    apply (f_equal (fun p => p.1.1.2)) in Hb. exact Hb.
Qed.

Lemma isub_v_returns (t : string) (ys : list R) :
  known st0 t -> length ys = d ->
  returns (step_inv sampler_ok st0) (isub_v t (Vec ys)) (fun _ => True).
Proof.
  intros Hk Hlen st Hinv. destruct (inv_known st t Hinv Hk) as (tok & Htok & Hv & Hp).
  exists tt. split; [|split; [exact I|]].
  - unfold isub_v, bind. rewrite (deref_some t tok st Htok). cbn [lift fst snd].
    rewrite inplace_same_length by lia. reflexivity.
  - apply inv_after; [exact Hinv|apply isub_v_fixed|].
    pose proof (isub_v_beside t (Vec ys) st) as Hb.
    apply (f_equal (fun p => p.1.1.2)) in Hb. exact Hb.
Qed.

Lemma draw_targets_returns (tk : string) :
  known st0 tk ->
  returns (step_inv sampler_ok st0) (draw_targets sample tk)
    (fun targets => targets <> [] /\ Forall (known st0) targets).
Proof.
  intros Hk st [Hfixed Hs].
  destruct (draw_targets_outcome sample tk st) as (targets & Heq & _ & Hin).
  rewrite Heq. exists targets. cbn [fst snd]. split; [reflexivity|].
  destruct (sound (sampler (context st)) (neg_samples (params (context st))) Hs)
    as [Hdrawn Hs'].
  split; [split|split].
  - intros ->. specialize (Hin tk). rewrite elem_of_nil in Hin. tauto.
  - apply Forall_forall. intros x Hx. apply Hin in Hx as [Hx| ->]; [|exact Hk].
    rewrite Forall_forall in Hdrawn. now apply Hdrawn.
  - exact Hfixed.
  - exact Hs'.
Qed.

Lemma update_learning_rate_returns :
  returns (step_inv sampler_ok st0) update_learning_rate (fun _ => True).
Proof.
  intros st Hinv. destruct (inv_rate st Hinv) as ([c Hc] & Hinterval & Htotal).
  exists tt. unfold update_learning_rate, bind, gets. rewrite Hc.
  destruct (Z.eqb_spec (alpha_update_interval (params (context st))) 0) as [|_];
    [contradiction|].
  destruct (_ mod _ =? 0)%Z; [|split; [reflexivity|split; [exact I|exact Hinv]]].
  destruct (Z.eqb_spec (iteration (params (context st))
                        * num_of_tokens (repo (context st)) + 1) 0) as [|_];
    [contradiction|].
  split; [reflexivity|]. split; [exact I|]. destruct Hinv as [Hfixed Hs]. now split.
Qed.

Lemma update_targets_returns (targets : list string) (tk : string) (delta : list R) :
  Forall (known st0) targets -> known st0 tk -> length delta = (2 * d)%nat ->
  returns (step_inv sampler_ok st0) (update_targets targets tk (Vec delta)) (fun _ => True).
Proof.
  intros Htargets Hk Hlen. unfold update_targets. apply returns_for_each. intros t Ht.
  rewrite Forall_forall in Htargets.
  eapply returns_bind; [apply deref_returns; now apply Htargets|].
  intros target [_ Hp]. cbn beta in Hp.
  eapply returns_bind; [apply deref_returns; exact Hk|]. intros current_token _.
  apply returns_bind_gets. intros ctx.
  rewrite target_grad_formula by lia. apply returns_bind_lift.
  cbn [broadcast]. apply returns_bind_lift.
  apply isub_v_pred_returns; [now apply Htargets|]. now rewrite !length_map.
Qed.

Lemma token_step_returns (delta f_grad : list R) (tk : string) :
  known st0 tk -> length delta = (2 * d)%nat -> length f_grad = (2 * d)%nat ->
  returns (step_inv sampler_ok st0) (token_step sample (Vec delta) f_grad tk)
    (fun f_grad' => length f_grad' = (2 * d)%nat).
Proof.
  intros Hk Hdelta Hgrad. unfold token_step.
  eapply returns_bind; [now apply draw_targets_returns|].
  intros targets [Hne Hknown]. cbn beta in Hne, Hknown.
  apply (returns_bind _ _ _ (fun _ => True)); [apply update_learning_rate_returns|].
  intros _ _.
  apply (returns_bind _ _ _ (Forall2 (fun (_ : string) (_ : token_view) => True) targets)).
  { apply returns_map_each. intros t Ht. rewrite Forall_forall in Hknown.
    intros st Hinv. destruct (deref_returns t (Hknown t Ht) st Hinv) as (tv & Htv & _ & Hi).
    exists tv. split; [exact Htv|split; [exact I|exact Hi]]. }
  intros samples Hsamples.
  assert (Hsamples_ne : samples <> [])
    by (intros ->; apply Forall2_nil_inv_r in Hsamples; contradiction).
  eapply returns_bind; [apply deref_returns; exact Hk|].
  intros current_token [_ Hp]. cbn beta in Hp.
  destruct (function_grad_shape samples current_token delta Hsamples_ne ltac:(lia))
    as (g & -> & Hg).
  apply returns_bind_lift. rewrite inplace_same_length by lia. apply returns_bind_lift.
  apply returns_bind_gets. intros ctx.
  apply (returns_bind _ _ _ (fun _ => True)).
  - destruct (is_estimating ctx); [now apply returns_ret|].
    now apply update_targets_returns.
  - intros _ _. apply returns_ret. rewrite length_zip_with. lia.
Qed.

Lemma token_loop_returns (delta : list R) (tokens : list string) :
  Forall (known st0) tokens -> length delta = (2 * d)%nat ->
  forall f_grad,
    length f_grad = (2 * d)%nat ->
    returns (step_inv sampler_ok st0) (token_loop sample (Vec delta) f_grad tokens)
      (fun f_grad' => length f_grad' = (2 * d)%nat).
Proof.
  intros Htokens Hdelta. induction Htokens as [|tk tokens Hk _ IH]; intros f_grad Hgrad.
  - cbn [token_loop]. now apply returns_ret.
  - cbn [token_loop]. eapply returns_bind; [now apply token_step_returns|].
    intros f_grad' Hgrad'. now apply IH.
Qed.

Lemma apply_function_gradient_returns (f_grad : list R) :
  length f_grad = (2 * d)%nat ->
  returns (step_inv sampler_ok st0) (apply_function_gradient f_grad) (fun _ => True).
Proof.
  intros Hgrad st Hinv. exists tt. split; [|split; [exact I|]].
  - unfold apply_function_gradient, bind, gets, lift. cbn [fst snd broadcast].
    rewrite inplace_same_length; [reflexivity|].
    rewrite length_map, (inv_func_length st Hinv). lia.
  - apply inv_after; [exact Hinv|apply apply_function_gradient_fixed|].
    destruct (apply_function_gradient_effect f_grad st) as [->|(new_v & _ & ->)];
      reflexivity.
Qed.

Lemma apply_instruction_gradient_returns (wnd : SequenceWindow) (vw : ViewType)
    (f_grad : list R) :
  _view wnd = Some vw -> Forall (known st0) (neighbour_names vw) ->
  length f_grad = (2 * d)%nat ->
  returns (step_inv sampler_ok st0) (apply_instruction_gradient wnd f_grad) (fun _ => True).
Proof.
  intros Hview Hnames Hgrad. unfold neighbour_names in Hnames.
  apply Forall_cons in Hnames as [Hprev_op Hnames].
  apply Forall_app in Hnames as [Hprev_args Hnames].
  apply Forall_cons in Hnames as [Hnext_op Hnext_args].
  rewrite Forall_forall in Hprev_args, Hnext_args.
  unfold apply_instruction_gradient.
  unfold prev_ins_op, prev_ins_args, next_ins_op, next_ins_args, window_attr.
  rewrite Hview. apply returns_bind_lift.
  eapply returns_bind; [apply deref_returns; exact Hprev_op|].
  intros prev_op_tk [Hv _]. cbn beta in Hv. cbv zeta. rewrite Hv.
  apply returns_bind_gets. intros ctx.
  cbn [broadcast]. apply returns_bind_lift.
  apply (returns_bind _ _ _ (fun _ => True)).
  { apply isub_v_returns; [exact Hprev_op|]. rewrite length_map, length_take. lia. }
  intros _ _. apply returns_bind_lift. apply returns_bind_lift. apply returns_bind_lift.
  apply (returns_bind _ _ _ (fun _ => True)).
  { apply returns_for_each. intros t Ht. apply isub_v_returns; [now apply Hprev_args|].
    rewrite !length_map, length_drop. lia. }
  intros _ _. apply returns_bind_lift. apply returns_bind_lift.
  apply (returns_bind _ _ _ (fun _ => True)).
  { apply isub_v_returns; [exact Hnext_op|]. rewrite length_map, length_take. lia. }
  intros _ _. apply returns_bind_lift. apply returns_bind_lift. apply returns_bind_lift.
  apply returns_for_each. intros t Ht. apply isub_v_returns; [now apply Hnext_args|].
  rewrite !length_map, length_drop. lia.
Qed.

Lemma step_returns_from_start (wnd : SequenceWindow) (vw : ViewType) (delta : list R) :
  _view wnd = Some vw ->
  Forall (known st0) (view_curr_op vw :: view_curr_args vw ++ neighbour_names vw) ->
  length delta = (2 * d)%nat ->
  returns (step_inv sampler_ok st0) (gradient_step sample wnd (Vec delta)) (fun _ => True).
Proof.
  intros Hview Hnames Hdelta.
  change (view_curr_op vw :: view_curr_args vw ++ neighbour_names vw)
    with ((view_curr_op vw :: view_curr_args vw) ++ neighbour_names vw) in Hnames.
  apply Forall_app in Hnames as [Hcurr Hneighbours].
  unfold gradient_step, curr_ins_op, curr_ins_args, window_attr. rewrite Hview.
  apply returns_bind_lift. apply returns_bind_lift.
  apply (returns_bind _ _ _
           (fun f => length (VectorizedFunction.v f) = (2 * d)%nat)).
  { apply returns_gets. apply inv_func_length. }
  intros f Hf.
  eapply returns_bind.
  { apply token_loop_returns; [exact Hcurr|exact Hdelta|]. now rewrite repeat_length. }
  intros f_grad Hgrad. cbn beta in Hgrad.
  apply (returns_bind _ _ _ (fun _ => True));
    [now apply apply_function_gradient_returns|intros _ _].
  apply returns_bind_gets. intros ctx.
  destruct (is_estimating ctx); [now apply returns_ret|].
  now apply (apply_instruction_gradient_returns wnd vw).
Qed.

End StepReturns.

(** X20. Given a context delta of [2 * d] components, the gradient step
    of lines 185-224 returns, in estimation mode as in full mode, whenever
    the data have the shapes of asm2vec (token vectors of [d] components,
    predictive vectors and function vector of [2 * d]), the tokens of the
    window and the tokens the sampler draws are in the vocabulary, the
    tokens-handled counter is registered, and the update interval and
    [iteration * num_of_tokens + 1] are not 0: no shape error, no missing
    key and no division by zero arises in those lines. *)
Theorem gradient_step_returns {Sampler : Type}
    (sample : Sampler -> Z -> list string * Sampler) (sampler_ok : Sampler -> Prop)
    (d : nat) (wnd : SequenceWindow) (vw : ViewType) (delta : list R)
    (st : State Sampler) :
  _view wnd = Some vw ->
  well_shaped d st -> rate_computable st -> sampler_sound sample sampler_ok st ->
  Forall (known st) (view_curr_op vw :: view_curr_args vw ++ neighbour_names vw) ->
  length delta = (2 * d)%nat ->
  exists st', gradient_step sample wnd (Vec delta) st = (st', Ok tt).
Proof.
  intros Hview Hshaped Hrate [Hs Hsound] Hnames Hdelta.
  destruct (step_returns_from_start sample sampler_ok d st Hshaped Hrate Hsound
              wnd vw delta Hview Hnames Hdelta st) as ([] & Hok & _ & _).
  { split; [reflexivity|exact Hs]. }
  exists (gradient_step sample wnd (Vec delta) st).1.
  destruct (gradient_step sample wnd (Vec delta) st) as [st' r]. cbn in *. now subst.
Qed.

Lemma gradient_step_returns_witness :
  exists st', gradient_step first_sample ex_wnd (Vec [0; 0]%R) (ex_state_at 0) = (st', Ok tt).
Proof.
  apply (gradient_step_returns first_sample (Forall (known (ex_state_at 0))) 1
           ex_wnd ex_view [0; 0]%R (ex_state_at 0)).
  - reflexivity.
  - split; [reflexivity|]. apply map_Forall_to_list.
    let l := eval vm_compute in (map_to_list (the_vocab (ex_state_at 0))) in
    change (map_to_list (the_vocab (ex_state_at 0))) with l.
    repeat constructor.
  - split; [|split].
    + eexists. vm_compute. reflexivity.
    + discriminate.
    + discriminate.
  - split.
    + let l := eval vm_compute in (sampler (context (ex_state_at 0))) in
      change (sampler (context (ex_state_at 0))) with l.
      repeat constructor; eexists; vm_compute; reflexivity.
    + intros s k Hs. split; [|exact Hs]. destruct s as [|name s]; [constructor|].
      apply Forall_cons in Hs as [Hname _]. cbn [first_sample fst].
      apply Forall_forall. intros x Hx. apply list_elem_of_In, repeat_spec in Hx.
      now subst.
  - repeat constructor; eexists; vm_compute; reflexivity.
  - reflexivity.
Defined.
